(** * KryptChain ledger core

    A shallow embedding of the TypeScript sources under [src/blockchain]:
    the state manager, the two transaction pools, the two consensus engines,
    the block and transaction validators and the two Merkle hashers,
    together with the properties of the design document that concern them.

    JavaScript objects are references: an [Account] handed out by
    [getAccount] is the very object the cache holds, and a [Block] kept in
    the block cache is the object the caller passed in.  The embedding
    therefore keeps explicit object heaps and lets caches hold locations.
    [bigint] and integral [number] values are modelled as [Z]. *)

From Stdlib Require Import ZArith Lia.
From stdpp Require Import gmap strings list.

Open Scope Z_scope.

(** ** Thrown errors *)

Module Errors.

Inductive Error :=
| PlainError (message : string)
| TypeError (message : string)
| ValidationError (message : string)
| StateError (message : string)
| ConsensusError (message : string).

Definition message (e : Error) : string :=
  match e with
  | PlainError m | TypeError m | ValidationError m
  | StateError m | ConsensusError m => m
  end.

End Errors.

(** ** Stateful, throwing computations

    An [async] method of a class is a function of the instance state that
    either returns a value or throws, and that may have changed the state in
    both cases. *)

Module Eff.

Section Monad.
Context {S : Type}.

Definition M (A : Type) : Type := S -> (Errors.Error + A) * S.

Definition ret {A} (a : A) : M A := fun s => (inr a, s).

Definition throw {A} (e : Errors.Error) : M A := fun s => (inl e, s).

Definition bind {A B} (m : M A) (k : A -> M B) : M B :=
  fun s => match m s with
           | (inl e, s') => (inl e, s')
           | (inr a, s') => k a s'
           end.

Definition catch {A} (m : M A) (h : Errors.Error -> M A) : M A :=
  fun s => match m s with
           | (inl e, s') => h e s'
           | (inr a, s') => (inr a, s')
           end.

Definition gets {A} (f : S -> A) : M A := fun s => (inr (f s), s).

Definition modify (f : S -> S) : M unit := fun s => (inr tt, f s).

(** [for (const x of l) { body x }] *)
Fixpoint for_of {A} (l : list A) (body : A -> M unit) : M unit :=
  match l with
  | [] => ret tt
  | x :: l' => bind (body x) (fun _ => for_of l' body)
  end.

(** [m] takes every state to an [R]-related one, whether it returns or
    throws. *)
Definition frames (R : S -> S -> Prop) {A} (m : M A) : Prop :=
  forall s, R s (m s).2.

End Monad.

End Eff.

Notation "x <- m ;; k" := (Eff.bind m (fun x => k))
  (at level 90, m at level 80, k at level 200, right associativity).
Notation "m ;;; k" := (Eff.bind m (fun _ => k))
  (at level 90, k at level 200, right associativity).

(** ** The bounded cache *)

Module LRUCache.

Section Cache.
Context {K V : Type} `{EqDecision K}.

(** Modelled from the spec: the class [LRUCache] of ['./cache'], which is
    not among the sources; section 4.4 has the caches "bounded,
    least-recently-used eviction".  Entries are kept most recently used
    first; [get] refreshes the entry it finds, [set] puts the entry in front
    and drops what no longer fits. *)
Record t := mk { capacity : nat; entries : list (K * V) }.

Fixpoint peek_entries (k : K) (l : list (K * V)) : option V :=
  match l with
  | [] => None
  | (k', v) :: l' => if decide (k' = k) then Some v else peek_entries k l'
  end.

Fixpoint remove_entries (k : K) (l : list (K * V)) : list (K * V) :=
  match l with
  | [] => []
  | (k', v) :: l' =>
      if decide (k' = k) then remove_entries k l'
      else (k', v) :: remove_entries k l'
  end.

(** The value a [get] would return, without the refresh. *)
Definition peek (k : K) (c : t) : option V := peek_entries k (entries c).

Definition get (k : K) (c : t) : option V * t :=
  match peek k c with
  | Some v => (Some v, mk (capacity c) ((k, v) :: remove_entries k (entries c)))
  | None => (None, c)
  end.

Definition set (k : K) (v : V) (c : t) : t :=
  mk (capacity c) (take (capacity c) ((k, v) :: remove_entries k (entries c))).

Definition empty (n : nat) : t := mk n [].

End Cache.

Arguments t : clear implicits.

End LRUCache.

(** ** State manager ([StateManager.ts]) *)

Module StateManager.
Import Errors.

Abbreviation Address := string.
Abbreviation Hash := string.

(** [balance] is a [bigint]; [nonce] is a [number], taken to stay within
    the integers that a [number] holds exactly. *)
Record Account := mkAccount {
  address : Address;
  balance : Z;
  nonce : Z;
  codeHash : string;
  storageRoot : string }.

(** The types of ['./types'] are not among the sources; these are the fields
    the state manager reads of a transaction and of a block. *)
Record Transaction := mkTransaction {
  from : Address;
  to : Address;
  value : Z;
  fee : Z }.

Record Block := mkBlock {
  hash : Hash;
  parentHash : Hash;
  transactions : list Transaction }.

Definition with_balance (b : Z) (a : Account) : Account :=
  mkAccount (address a) b (nonce a) (codeHash a) (storageRoot a).

Definition with_nonce (n : Z) (a : Account) : Account :=
  mkAccount (address a) (balance a) n (codeHash a) (storageRoot a).

Definition with_transactions (l : list Transaction) (b : Block) : Block :=
  mkBlock (hash b) (parentHash b) l.

(** Modelled from the spec: the class [DatabaseClient] of ['./database'],
    which is not among the sources, is the persistent store of section 6, a
    key-value store with read-your-writes consistency.  It is kept as the two
    maps [dbAccounts] and [dbBlocks]; it stores copies of what is written and
    hands out a new object on every read.  In this module every write is
    answered Ok; [StoreErrors] below runs the writing methods on a store that
    may answer Err.

    The rest is the instance state.  [accountObjects] and [blockObjects] are
    the heaps of live [Account] and [Block] objects; the caches and
    [currentBlock] hold locations in them. *)
Record State := mkState {
  stateCache : LRUCache.t string nat;
  blockCache : LRUCache.t Hash nat;
  dbAccounts : gmap string Account;
  dbBlocks : gmap Hash Block;
  accountObjects : list Account;
  blockObjects : list Block;
  currentBlock : option nat }.

Definition with_stateCache c (s : State) : State :=
  mkState c (blockCache s) (dbAccounts s) (dbBlocks s)
          (accountObjects s) (blockObjects s) (currentBlock s).
Definition with_blockCache c (s : State) : State :=
  mkState (stateCache s) c (dbAccounts s) (dbBlocks s)
          (accountObjects s) (blockObjects s) (currentBlock s).
Definition with_dbAccounts d (s : State) : State :=
  mkState (stateCache s) (blockCache s) d (dbBlocks s)
          (accountObjects s) (blockObjects s) (currentBlock s).
Definition with_dbBlocks d (s : State) : State :=
  mkState (stateCache s) (blockCache s) (dbAccounts s) d
          (accountObjects s) (blockObjects s) (currentBlock s).
Definition with_accountObjects h (s : State) : State :=
  mkState (stateCache s) (blockCache s) (dbAccounts s) (dbBlocks s)
          h (blockObjects s) (currentBlock s).
Definition with_blockObjects h (s : State) : State :=
  mkState (stateCache s) (blockCache s) (dbAccounts s) (dbBlocks s)
          (accountObjects s) h (currentBlock s).
Definition with_currentBlock b (s : State) : State :=
  mkState (stateCache s) (blockCache s) (dbAccounts s) (dbBlocks s)
          (accountObjects s) (blockObjects s) b.

Definition M := @Eff.M State.

(** *** Object heaps *)

Definition newAccount (a : Account) : M nat :=
  fun s => (inr (length (accountObjects s)),
            with_accountObjects (accountObjects s ++ [a]) s).

Definition readAccount (r : nat) : M Account :=
  fun s => match accountObjects s !! r with
           | Some a => (inr a, s)
           | None => (inl (TypeError "Cannot read properties of undefined"), s)
           end.

(** An assignment to a field of the object at [r]. *)
Definition assignAccount (r : nat) (f : Account -> Account) : M unit :=
  a <- readAccount r ;;
  Eff.modify (fun s => with_accountObjects (<[r := f a]> (accountObjects s)) s).

Definition newBlock (b : Block) : M nat :=
  fun s => (inr (length (blockObjects s)),
            with_blockObjects (blockObjects s ++ [b]) s).

Definition readBlock (r : option nat) : M Block :=
  fun s => match r ≫= (fun r => blockObjects s !! r) with
           | Some b => (inr b, s)
           | None => (inl (TypeError "Cannot read properties of undefined"), s)
           end.

(** *** The methods *)

(** sha256 of the empty string, in hex *)
Definition emptyHash : string :=
  "e3b0c44298fc1c149afbf4c8996fb92427ae41e4649b934ca495991b7852b855".

Definition createEmptyAccount (addr : Address) : Account :=
  mkAccount addr 0 0 emptyHash emptyHash.

Definition getAccount (addr : Address) : M nat :=
  Eff.catch
    (fun s =>
       match LRUCache.get addr (stateCache s) with
       | (Some cachedAccount, c) => (inr cachedAccount, with_stateCache c s)
       | (None, c) =>
           match dbAccounts s !! addr with
           | None => newAccount (createEmptyAccount addr) (with_stateCache c s)
           | Some stored =>
               (account <- newAccount stored ;;
                Eff.modify (fun s => with_stateCache
                                       (LRUCache.set addr account (stateCache s)) s) ;;;
                Eff.ret account) (with_stateCache c s)
           end
       end)
    (fun error => Eff.throw (StateError ("Failed to get account: " ++ message error))).

Definition validateAccount (account : Account) : M unit :=
  if (balance account <? 0) || (nonce account <? 0)
  then Eff.throw (ValidationError "Invalid account state")
  else Eff.ret tt.

Definition updateAccount (addr : Address) (account : nat) : M unit :=
  Eff.catch
    (a <- readAccount account ;;
     validateAccount a ;;;
     Eff.modify (fun s => with_dbAccounts (<[addr := a]> (dbAccounts s)) s) ;;;
     Eff.modify (fun s => with_stateCache (LRUCache.set addr account (stateCache s)) s))
    (fun error => Eff.throw (StateError ("Failed to update account: " ++ message error))).

Definition applyTransaction (tx : Transaction) : M unit :=
  Eff.catch
    (sender <- getAccount (from tx) ;;
     recipient <- getAccount (to tx) ;;
     s0 <- readAccount sender ;;
     if balance s0 <? value tx + fee tx
     then Eff.throw (ValidationError "Insufficient balance")
     else
       assignAccount sender (fun a => with_balance (balance a - (value tx + fee tx)) a) ;;;
       assignAccount sender (fun a => with_nonce (nonce a + 1) a) ;;;
       assignAccount recipient (fun a => with_balance (balance a + value tx) a) ;;;
       updateAccount (from tx) sender ;;;
       updateAccount (to tx) recipient)
    (fun error =>
       Eff.throw (StateError ("Transaction application failed: " ++ message error))).

(** [block] is the location of the caller's block object. *)
Definition commitBlock (block : nat) : M unit :=
  Eff.catch
    (b <- readBlock (Some block) ;;
     Eff.for_of (transactions b) applyTransaction ;;;
     Eff.modify (with_currentBlock (Some block)) ;;;
     Eff.modify (fun s => with_blockCache (LRUCache.set (hash b) block (blockCache s)) s) ;;;
     Eff.modify (fun s => with_dbBlocks (<[hash b := b]> (dbBlocks s)) s))
    (fun error => Eff.throw (StateError ("Block commit failed: " ++ message error))).

(** The result is [None] when neither the cache nor the store knows [h]. *)
Definition getBlock (h : Hash) : M (option nat) :=
  fun s =>
    match LRUCache.get h (blockCache s) with
    | (Some cached, c) => (inr (Some cached), with_blockCache c s)
    | (None, c) =>
        match dbBlocks s !! h with
        | None => (inr None, with_blockCache c s)
        | Some stored =>
            (r <- newBlock stored ;; Eff.ret (Some r)) (with_blockCache c s)
        end
    end.

Definition revertTransaction (tx : Transaction) : M unit :=
  sender <- getAccount (from tx) ;;
  recipient <- getAccount (to tx) ;;
  assignAccount sender (fun a => with_balance (balance a + (value tx + fee tx)) a) ;;;
  assignAccount sender (fun a => with_nonce (nonce a - 1) a) ;;;
  assignAccount recipient (fun a => with_balance (balance a - value tx) a) ;;;
  updateAccount (from tx) sender ;;;
  updateAccount (to tx) recipient.

(** [Array.prototype.reverse] reverses the array of the block object in
    place and returns it. *)
Definition reverseTransactions (block : option nat) : M (list Transaction) :=
  b <- readBlock block ;;
  match block with
  | Some r =>
      Eff.modify (fun s => with_blockObjects
                             (<[r := with_transactions (rev (transactions b)) b]>
                                (blockObjects s)) s) ;;;
      Eff.ret (rev (transactions b))
  | None => Eff.ret []
  end.

Definition revertBlock (blockHash : Hash) : M unit :=
  Eff.catch
    (block <- getBlock blockHash ;;
     txs <- reverseTransactions block ;;
     Eff.for_of txs revertTransaction ;;;
     b <- readBlock block ;;
     parent <- getBlock (parentHash b) ;;
     Eff.modify (with_currentBlock parent))
    (fun error => Eff.throw (StateError ("Block revert failed: " ++ message error))).

(** What a reader of the state manager sees for an address: the cached
    object if there is one, else the stored record, else the empty account. *)
Definition viewAccount (s : State) (addr : Address) : Account :=
  match LRUCache.peek addr (stateCache s) ≫= (fun r => accountObjects s !! r) with
  | Some a => a
  | None =>
      match dbAccounts s !! addr with
      | Some a => a
      | None => createEmptyAccount addr
      end
  end.

(** What a reader of the block cache sees for a hash. *)
Definition cachedBlock (s : State) (h : Hash) : option Block :=
  LRUCache.peek h (blockCache s) ≫= (fun r => blockObjects s !! r).

(** [constructor(dbClient, cacheSize = 1000)], on an empty store. *)
Definition init (cacheSize : nat) : State :=
  mkState (LRUCache.empty cacheSize) (LRUCache.empty 100) ∅ ∅ [] [] None.

(** *** Vocabulary of the properties *)

(** The stored record of an address, the empty account standing for a
    missing one. *)
Definition stored (s : State) (a : Address) : Account :=
  default (createEmptyAccount a) (dbAccounts s !! a).

Definition valid (acc : Account) : Prop := 0 <= balance acc /\ 0 <= nonce acc.

(** Every cached object is a copy of the stored record of its address, and
    no object is cached under two addresses. *)
Definition coherent (s : State) : Prop :=
  forall a r, LRUCache.peek a (stateCache s) = Some r ->
    accountObjects s !! r = Some (stored s a) /\
    is_Some (dbAccounts s !! a) /\
    forall a', LRUCache.peek a' (stateCache s) = Some r -> a' = a.

(** A state manager in working order: the account cache can hold an entry
    and agrees with the store, and the stored accounts passed
    [validateAccount]. *)
Record sound (s : State) : Prop := {
  cache_room : (1 <= LRUCache.capacity (stateCache s))%nat;
  cache_coherent : coherent s;
  accounts_valid : forall a acc, dbAccounts s !! a = Some acc -> valid acc }.

(** Changing the record of one address. *)
Definition update (a : Address) (f : Account -> Account) (v : Address -> Account)
  : Address -> Account :=
  fun x => if decide (x = a) then f (v x) else v x.

(** The assignments of a transfer, read as changes to the records: the
    sender's two, then the recipient's. *)
Definition moved (f1 f2 g : Account -> Account) (a1 a2 : Address)
    (v : Address -> Account) : Address -> Account :=
  update a2 g (update a1 (fun acc => f2 (f1 acc)) v).

(** The change [applyTransaction] makes to the records, and the one
    [revertTransaction] makes. *)
Definition applied (tx : Transaction) : (Address -> Account) -> Address -> Account :=
  moved (fun a => with_balance (balance a - (value tx + fee tx)) a)
        (fun a => with_nonce (nonce a + 1) a)
        (fun a => with_balance (balance a + value tx) a)
        (from tx) (to tx).


(** A transaction as the data model has it: a positive amount and a fee
    that is not negative. *)
Definition well_formed (tx : Transaction) : Prop := 0 < value tx /\ 0 <= fee tx.

(** What the account methods leave alone: the block side of the state. *)
Definition same_blocks (s s' : State) : Prop :=
  blockCache s' = blockCache s /\ dbBlocks s' = dbBlocks s /\
  blockObjects s' = blockObjects s /\ currentBlock s' = currentBlock s.

Definition keeps_blocks {A} (m : M A) : Prop := Eff.frames same_blocks m.

(** Reads of the block cache that later steps cannot disturb. *)
Definition cache_reads_kept (s s' : State) : Prop :=
  forall h blk, cachedBlock s h = Some blk -> cachedBlock s' h = Some blk.

(** An object handed out for [a] is cached under no other address. *)
Definition exclusive (s : State) (r : nat) (a : Address) : Prop :=
  forall a', LRUCache.peek a' (stateCache s) = Some r -> a' = a.

(** The assignments and updates that end [applyTransaction] and
    [revertTransaction]. *)
Definition settle (a1 a2 : Address) (r1 r2 : nat) (f1 f2 g : Account -> Account)
  : M unit :=
  assignAccount r1 f1 ;;; assignAccount r1 f2 ;;; assignAccount r2 g ;;;
  updateAccount a1 r1 ;;; updateAccount a2 r2.

(** The records after a run of transactions. *)
Definition applied_list (txs : list Transaction) (v : Address -> Account)
  : Address -> Account :=
  fold_left (fun v tx => applied tx v) txs v.

End StateManager.

(** ** State manager on a store whose writes can fail

    The methods above run on a store that answers every write.  Here the
    methods that write, [updateAccount], [applyTransaction] and
    [commitBlock], run on a store whose writes may be refused; the reads, the
    object heaps and the state are the ones above. *)

Module StoreErrors.
Import Errors StateManager.

(** Modelled from the spec: the writes of the class [DatabaseClient] of
    ['./database'], which is not among the sources.  Section 6 has
    [updateAccount(address, Account) -> Ok/Err] and [saveBlock(Block) ->
    Ok/Err].  What a write answers is up to the store and may differ from
    one call to the next: it is a function of the state the manager is in
    when it asks, and of what is written.  [None] stands for Ok, [Some
    error] for Err, in which case the call throws [error] and the store is
    as it was. *)
Record DatabaseClient := mkDatabaseClient {
  updateAccountAnswer : State -> Address -> Account -> option Error;
  saveBlockAnswer : State -> Block -> option Error }.

(** The store that answers Ok to every write. *)
Definition reliable : DatabaseClient :=
  mkDatabaseClient (fun _ _ _ => None) (fun _ _ => None).

Section Store.

(** [dbClient], the argument of the constructor *)
Variable db : DatabaseClient.

(** [await this.db.updateAccount(address, account)] *)
Definition dbUpdateAccount (addr : Address) (a : Account) : M unit :=
  fun s => match updateAccountAnswer db s addr a with
           | Some error => (inl error, s)
           | None => (inr tt, with_dbAccounts (<[addr := a]> (dbAccounts s)) s)
           end.

(** [await this.db.saveBlock(block)] *)
Definition dbSaveBlock (b : Block) : M unit :=
  fun s => match saveBlockAnswer db s b with
           | Some error => (inl error, s)
           | None => (inr tt, with_dbBlocks (<[hash b := b]> (dbBlocks s)) s)
           end.

Definition updateAccount (addr : Address) (account : nat) : M unit :=
  Eff.catch
    (a <- readAccount account ;;
     validateAccount a ;;;
     dbUpdateAccount addr a ;;;
     Eff.modify (fun s => with_stateCache (LRUCache.set addr account (stateCache s)) s))
    (fun error => Eff.throw (StateError ("Failed to update account: " ++ message error))).

Definition applyTransaction (tx : Transaction) : M unit :=
  Eff.catch
    (sender <- getAccount (from tx) ;;
     recipient <- getAccount (to tx) ;;
     s0 <- readAccount sender ;;
     if balance s0 <? value tx + fee tx
     then Eff.throw (ValidationError "Insufficient balance")
     else
       assignAccount sender (fun a => with_balance (balance a - (value tx + fee tx)) a) ;;;
       assignAccount sender (fun a => with_nonce (nonce a + 1) a) ;;;
       assignAccount recipient (fun a => with_balance (balance a + value tx) a) ;;;
       updateAccount (from tx) sender ;;;
       updateAccount (to tx) recipient)
    (fun error =>
       Eff.throw (StateError ("Transaction application failed: " ++ message error))).

(** [block] is the location of the caller's block object. *)
Definition commitBlock (block : nat) : M unit :=
  Eff.catch
    (b <- readBlock (Some block) ;;
     Eff.for_of (transactions b) applyTransaction ;;;
     Eff.modify (with_currentBlock (Some block)) ;;;
     Eff.modify (fun s => with_blockCache (LRUCache.set (hash b) block (blockCache s)) s) ;;;
     dbSaveBlock b)
    (fun error => Eff.throw (StateError ("Block commit failed: " ++ message error))).

(** The store answers Ok to every account write, and to every block
    write. *)
Definition accepts_accounts : Prop :=
  forall s addr a, updateAccountAnswer db s addr a = None.

Definition accepts_blocks : Prop :=
  forall s b, saveBlockAnswer db s b = None.

End Store.

End StoreErrors.

(** ** JavaScript [Map] and [Set]

    Both iterate in insertion order; assigning to a key that is present
    keeps its position. *)

Module JsMap.

Section JsMap.
Context {K V : Type} `{EqDecision K}.

Definition t := list (K * V).

Fixpoint get (k : K) (m : t) : option V :=
  match m with
  | [] => None
  | (k', v) :: m' => if decide (k' = k) then Some v else get k m'
  end.

Definition has (k : K) (m : t) : bool :=
  match get k m with Some _ => true | None => false end.

Fixpoint set (k : K) (v : V) (m : t) : t :=
  match m with
  | [] => [(k, v)]
  | (k', v') :: m' =>
      if decide (k' = k) then (k, v) :: m' else (k', v') :: set k v m'
  end.

Fixpoint delete (k : K) (m : t) : t :=
  match m with
  | [] => []
  | (k', v) :: m' =>
      if decide (k' = k) then delete k m' else (k', v) :: delete k m'
  end.

Definition size (m : t) : Z := Z.of_nat (length m).

Definition keys (m : t) : list K := map fst m.

Definition values (m : t) : list V := map snd m.

End JsMap.

Arguments t : clear implicits.

End JsMap.

Module JsSet.

Section JsSet.
Context {A : Type} `{EqDecision A}.

Definition t := list A.

Definition has (x : A) (s : t) : bool := bool_decide (x ∈ s).

Definition add (x : A) (s : t) : t := if has x s then s else s ++ [x].

Definition size (s : t) : Z := Z.of_nat (length s).

(** [new Set(array)] *)
Definition of_array (l : list A) : t := fold_left (fun s x => add x s) l [].

End JsSet.

Arguments t : clear implicits.

End JsSet.

(** ** The event-emitting pool ([TransactionPool.ts], first class)

    The pool of [addTransaction], [removeOldestTransactions] and
    [getTransactionHash]. *)

Module TransactionPool.
Import Errors.

(** The class of ['./Transaction'] is not among the sources; these are the
    fields the pool reads, with the [id] and [fee] of the data model. *)
Record Transaction := mkTransaction {
  id : string;
  fromAddress : string;
  toAddress : string;
  amount : Z;
  fee : Z;
  timestamp : Z;
  signature : string }.

(** [{ ...transaction, timestamp: Date.now(), seen: new Set() }]: the
    admission time replaces the transaction's own [timestamp]. *)
Record PoolTransaction := mkPoolTransaction {
  fields : Transaction;
  seen : JsSet.t string }.

Definition with_timestamp (t : Z) (tx : Transaction) : Transaction :=
  mkTransaction (id tx) (fromAddress tx) (toAddress tx) (amount tx) (fee tx)
                t (signature tx).

Inductive Event :=
| EvTransaction (tx : Transaction)
| EvError (e : Error).

(** [errorListener] tells whether a listener for ['error'] has been
    registered with the [on] that the class inherits from [EventEmitter];
    [emitted] is what the listeners have been handed. *)
Record State := mkState {
  transactions : JsMap.t string PoolTransaction;
  maxSize : Z;
  emitted : list Event;
  errorListener : bool }.

Definition with_transactions m (s : State) : State :=
  mkState m (maxSize s) (emitted s) (errorListener s).

Definition MAX_AGE_MS : Z := 3600000.
Definition MAX_SIZE_BYTES : Z := 5000000.

(** [constructor(blockchain, maxSize = 5000)] *)
Definition new (maxSize : Z) : State := mkState [] maxSize [] false.

Section Pool.

(** [SHA256(JSON.stringify({fromAddress, toAddress, amount, timestamp}))]:
    the digest of the four listed fields, in this order. *)
Variable SHA256_JSON : string -> string -> Z -> Z -> string.
(** The [Blockchain] collaborator (['./Blockchain'] is not among the
    sources): its signature check and its balance lookup, which may throw. *)
Variable verifyTransaction : Transaction -> Error + bool.
Variable getAddressBalance : string -> Error + Z.
(** [Buffer.from(JSON.stringify(tx)).length] *)
Variable getTransactionSize : Transaction -> Z.

Definition M := @Eff.M State.

Definition lift {A} (r : Error + A) : M A := fun s => (r, s).

(** [this.emit(...)]; listeners are taken not to throw.  An ['error'] event
    that no listener is registered for is thrown by [emit] instead: the
    emitted error itself, which is an [Error] object here. *)
Definition emit (e : Event) : M unit :=
  fun s =>
    let heard := mkState (transactions s) (maxSize s) (emitted s ++ [e])
                         (errorListener s) in
    match e with
    | EvError error => if errorListener s then (inr tt, heard) else (inl error, s)
    | EvTransaction _ => (inr tt, heard)
    end.

(** [pool.on('error', listener)] *)
Definition onError : M unit :=
  Eff.modify (fun s => mkState (transactions s) (maxSize s) (emitted s) true).

Definition getTransactionHash (tx : Transaction) : string :=
  SHA256_JSON (fromAddress tx) (toAddress tx) (amount tx) (timestamp tx).

Definition getPoolSize (s : State) : Z := JsMap.size (transactions s).

Definition falsy (str : string) : bool := bool_decide (str = "").

Definition validateTransaction (tx : Transaction) : M unit :=
  if falsy (signature tx) || falsy (fromAddress tx) || falsy (toAddress tx)
     || (amount tx <=? 0)
  then Eff.throw (PlainError "Invalid transaction format")
  else
    isValid <- lift (verifyTransaction tx) ;;
    if negb isValid
    then Eff.throw (PlainError "Transaction signature verification failed")
    else
      senderBalance <- lift (getAddressBalance (fromAddress tx)) ;;
      if senderBalance <? amount tx
      then Eff.throw (PlainError "Insufficient balance")
      else
        if MAX_SIZE_BYTES <? getTransactionSize tx
        then Eff.throw (PlainError "Transaction size exceeds limit")
        else Eff.ret tt.

(** Deleting the entry under the cursor does not disturb the iteration of a
    [Map], so the sweep keeps exactly the entries that are not too old. *)
Definition removeOldestTransactions (now : Z) : M unit :=
  Eff.modify (fun s =>
    with_transactions
      (filter (fun e => ¬ (MAX_AGE_MS < now - timestamp (fields e.2)))
              (transactions s)) s).

(** [now] is the reading of [Date.now()] during the call. *)
Definition addTransaction (now : Z) (transaction : Transaction) : M bool :=
  Eff.catch
    (let txHash := getTransactionHash transaction in
     present <- Eff.gets (fun s => JsMap.has txHash (transactions s)) ;;
     if present then Eff.ret false
     else
       validateTransaction transaction ;;;
       size <- Eff.gets getPoolSize ;;
       max <- Eff.gets maxSize ;;
       (if max <=? size then removeOldestTransactions now else Eff.ret tt) ;;;
       let poolTx := mkPoolTransaction (with_timestamp now transaction) [] in
       Eff.modify (fun s => with_transactions
                              (JsMap.set txHash poolTx (transactions s)) s) ;;;
       emit (EvTransaction transaction) ;;;
       Eff.ret true)
    (fun error => emit (EvError error) ;;; Eff.ret false).

Definition removeTransaction (txHash : string) : M bool :=
  present <- Eff.gets (fun s => JsMap.has txHash (transactions s)) ;;
  Eff.modify (fun s => with_transactions (JsMap.delete txHash (transactions s)) s) ;;;
  Eff.ret present.

Definition getTransaction (txHash : string) (s : State) : option PoolTransaction :=
  JsMap.get txHash (transactions s).

Definition getAllTransactions (s : State) : list PoolTransaction :=
  JsMap.values (transactions s).

Definition clear : M unit := Eff.modify (with_transactions []).

(** [confirmedTxs] is what [this.blockchain.getConfirmedTransactions()]
    returns, or throws; [now] is the reading of [Date.now()] in the sweep. *)
Definition cleanPool (now : Z) (confirmedTxs : Error + list Transaction) : M unit :=
  confirmed <- lift confirmedTxs ;;
  Eff.for_of confirmed (fun tx =>
    let txHash := getTransactionHash tx in
    Eff.modify (fun s => with_transactions (JsMap.delete txHash (transactions s)) s)) ;;;
  removeOldestTransactions now.

End Pool.

End TransactionPool.

(** ** The balance-checking pool ([TransactionPool.ts], second class)

    The pool of [validateTransactionBalance] and [getPendingAmount]. *)

Module BalancePool.
Import Errors.

(** What the pool reads of a transaction.  The class [Transaction] is not
    among the sources; [fee] is the field of the data model that the pool
    never reads. *)
Record Transaction := mkTransaction {
  from : string;
  amount : Z;
  fee : Z;
  blockNumber : Z }.

Record State := mkState {
  transactions : JsMap.t string Transaction }.

Definition maxPoolSize : Z := 1000.
Definition expirationBlocks : Z := 6.

(** The amounts, fees left out, of the pending entries sent from [address],
    and their sum: what the design document calls the sum of the sender's
    pending entries, less the fees. *)
Definition pendingAmounts (address : string) (s : State) : list Z :=
  map amount (filter (fun tx => from tx = address) (JsMap.values (transactions s))).

Definition total (l : list Z) : Z := foldr Z.add 0 l.

Definition new : State := mkState [].

Definition M := @Eff.M State.

Definition lift {A} (r : Error + A) : M A := fun s => (r, s).

(** [getSenderBalance] as the sources have it: a stub that throws. *)
Definition getSenderBalance_stub (address : string) : Error + Z :=
  inl (PlainError "Not implemented").

Section Pool.

(** [transaction.isValid()] and [CryptoHash.hash(transaction.serialize())] *)
Variable isValid : Transaction -> bool.
Variable hashSerialized : Transaction -> string.
(** The balance lookup.  The sources have the private method
    [getSenderBalance_stub] here, which throws; the methods are written over
    the lookup, so that what holds whatever the lookup does holds of the pool
    as shipped, and what is said of the pool as shipped is said at
    [getSenderBalance_stub]. *)
Variable getSenderBalance : string -> Error + Z.

Definition getPendingAmount (address : string) : M Z :=
  Eff.gets (fun s =>
    fold_left (fun total tx =>
                 if decide (from tx = address) then total + amount tx else total)
              (JsMap.values (transactions s)) 0).

Definition validateTransactionBalance (tx : Transaction) : M bool :=
  Eff.catch
    (senderBalance <- lift (getSenderBalance (from tx)) ;;
     pendingAmount <- getPendingAmount (from tx) ;;
     Eff.ret (pendingAmount + amount tx <=? senderBalance))
    (fun error =>
       Eff.throw (PlainError ("Transaction validation failed: " ++ message error))).

Definition addTransaction (transaction : Transaction) : M unit :=
  Eff.catch
    (if negb (isValid transaction)
     then Eff.throw (PlainError "Invalid transaction signature")
     else
       size <- Eff.gets (fun s => JsMap.size (transactions s)) ;;
       if maxPoolSize <=? size
       then Eff.throw (PlainError "Transaction pool is full")
       else
         let txHash := hashSerialized transaction in
         present <- Eff.gets (fun s => JsMap.has txHash (transactions s)) ;;
         if present
         then Eff.throw (PlainError "Transaction already exists in pool")
         else
           enough <- validateTransactionBalance transaction ;;
           if negb enough
           then Eff.throw (PlainError "Insufficient balance for transaction")
           else Eff.modify (fun s => mkState (JsMap.set txHash transaction
                                                (transactions s))))
    (fun error =>
       Eff.throw (PlainError ("Failed to add transaction: " ++ message error))).

Definition removeTransaction (txHash : string) : M bool :=
  present <- Eff.gets (fun s => JsMap.has txHash (transactions s)) ;;
  Eff.modify (fun s => mkState (JsMap.delete txHash (transactions s))) ;;;
  Eff.ret present.

Definition clearTransactions : M unit := Eff.modify (fun _ => mkState []).

Definition getTransaction (txHash : string) (s : State) : option Transaction :=
  JsMap.get txHash (transactions s).

Definition getAllTransactions (s : State) : list Transaction :=
  JsMap.values (transactions s).

(** Deleting the entry under the cursor does not disturb the iteration of a
    [Map], so the sweep keeps exactly the entries that have not expired. *)
Definition removeExpiredTransactions (currentBlock : Z) : M unit :=
  Eff.modify (fun s =>
    mkState (filter (fun e => ¬ (expirationBlocks < currentBlock - blockNumber e.2))
                    (transactions s))).

Definition size (s : State) : Z := JsMap.size (transactions s).

(** The loop of [validatePool] over [this.transactions.values()], which
    returns false at the first entry that fails a check. *)
Fixpoint validateEach (txs : list Transaction) : M bool :=
  match txs with
  | [] => Eff.ret true
  | tx :: rest =>
      if negb (isValid tx) then Eff.ret false
      else
        enough <- validateTransactionBalance tx ;;
        if negb enough then Eff.ret false else validateEach rest
  end.

Definition validatePool : M bool :=
  Eff.catch
    (txs <- Eff.gets (fun s => JsMap.values (transactions s)) ;;
     validateEach txs)
    (fun error =>
       Eff.throw (PlainError ("Pool validation failed: " ++ message error))).

End Pool.

End BalancePool.

(** ** Consensus engine ([ConsensusEngine.ts]) *)

Module ConsensusEngine.
Import Errors.

Definition Hash := string.
Definition PublicKey := string.
Definition Signature := string.

Record Transaction := mkTransaction { id : string }.

Record Block := mkBlock {
  prevHash : Hash;
  timestamp : Z;
  transactions : list Transaction;
  height : Z }.

Record State := mkState {
  validators : JsSet.t PublicKey;
  requiredValidations : Z;
  pendingBlocks : JsMap.t Hash Block;
  validations : JsMap.t Hash (JsSet.t PublicKey) }.

Definition with_pending p v (s : State) : State :=
  mkState (validators s) (requiredValidations s) p v.

(** [constructor(validators, requiredValidations)] *)
Definition new (validators : list PublicKey) (requiredValidations : Z)
  : Error + State :=
  if Z.of_nat (length validators) <? requiredValidations
  then inl (ConsensusError "Required validations cannot exceed validator count")
  else inr (mkState (JsSet.of_array validators) requiredValidations [] []).

Section Engine.

(** [SHA256(JSON.stringify({prevHash, timestamp, transactions: ids, height}))] *)
Variable SHA256_JSON : Hash -> Z -> list string -> Z -> Hash.
(** [validateBlock] and [verifySignature] of ['./crypto-utils'], which is not
    among the sources; either may throw. *)
Variable cryptoValidateBlock : Block -> Error + bool.
Variable verifySignature : Hash -> Signature -> PublicKey -> Error + bool.

Definition M := @Eff.M State.

Definition lift {A} (r : Error + A) : M A := fun s => (r, s).

Definition calculateBlockHash (block : Block) : Hash :=
  SHA256_JSON (prevHash block) (timestamp block)
              (map id (transactions block)) (height block).

Definition proposeBlock (block : Block) : M bool :=
  Eff.catch
    (let blockHash := calculateBlockHash block in
     present <- Eff.gets (fun s => JsMap.has blockHash (pendingBlocks s)) ;;
     if present then Eff.throw (ConsensusError "Block already proposed")
     else
       ok <- lift (cryptoValidateBlock block) ;;
       if negb ok then Eff.throw (ConsensusError "Invalid block proposed")
       else
         Eff.modify (fun s => with_pending
                                (JsMap.set blockHash block (pendingBlocks s))
                                (JsMap.set blockHash [] (validations s)) s) ;;;
         Eff.ret true)
    (fun error => Eff.ret false).

Definition validateBlock (blockHash : Hash) (validatorKey : PublicKey)
    (signature : Signature) : M bool :=
  Eff.catch
    (known <- Eff.gets (fun s => JsSet.has validatorKey (validators s)) ;;
     if negb known then Eff.throw (ConsensusError "Unknown validator")
     else
       block <- Eff.gets (fun s => JsMap.get blockHash (pendingBlocks s)) ;;
       match block with
       | None => Eff.throw (ConsensusError "Unknown block")
       | Some _ =>
           ok <- lift (verifySignature blockHash signature validatorKey) ;;
           if negb ok then Eff.throw (ConsensusError "Invalid signature")
           else
             blockValidations <- Eff.gets (fun s => JsMap.get blockHash (validations s)) ;;
             match blockValidations with
             | None => Eff.throw (ConsensusError "Block validation set not found")
             | Some set =>
                 let set' := JsSet.add validatorKey set in
                 Eff.modify (fun s => with_pending (pendingBlocks s)
                                        (JsMap.set blockHash set' (validations s)) s) ;;;
                 required <- Eff.gets requiredValidations ;;
                 Eff.ret (required <=? JsSet.size set')
             end
       end)
    (fun error => Eff.ret false).

(** One turn of the loop over [this.validations.entries()].  Deleting the
    entry under the cursor does not disturb the iteration, so the loop visits
    the entries the map had on entry, in order. *)
Definition finalizeEntry (entry : Hash * JsSet.t PublicKey)
    (acc : list Block * State) : list Block * State :=
  let '(finalizedBlocks, s) := acc in
  if requiredValidations s <=? JsSet.size entry.2 then
    match JsMap.get entry.1 (pendingBlocks s) with
    | Some block =>
        (finalizedBlocks ++ [block],
         with_pending (JsMap.delete entry.1 (pendingBlocks s))
                      (JsMap.delete entry.1 (validations s)) s)
    | None => acc
    end
  else acc.

Definition getFinalizedBlocks : M (list Block) :=
  fun s =>
    let '(finalizedBlocks, s') :=
      fold_left (fun acc entry => finalizeEntry entry acc) (validations s) ([], s) in
    (inr finalizedBlocks, s').

Definition clearPendingBlocks : M unit :=
  Eff.modify (with_pending [] []).

Definition getValidatorCount (s : State) : Z := JsSet.size (validators s).

Definition getPendingBlockCount (s : State) : Z := JsMap.size (pendingBlocks s).

(** What holds of every state of the engine: the two maps have the same
    keys in the same order, a pending block sits under its own hash, and an
    attestation set holds validators only, each once. *)
Record consistent (s : State) : Prop := {
  keys_agree : JsMap.keys (pendingBlocks s) = JsMap.keys (validations s);
  keys_NoDup : NoDup (JsMap.keys (pendingBlocks s));
  keyed_by_hash : forall h b,
    JsMap.get h (pendingBlocks s) = Some b -> h = calculateBlockHash b;
  attested_by_validators : forall h vs,
    JsMap.get h (validations s) = Some vs ->
    NoDup vs /\ forall k, k ∈ vs -> k ∈ validators s }.

(** A pending block is due when its attestation set has reached the
    threshold. *)
Definition due (s : State) (entries : JsMap.t Hash (JsSet.t PublicKey)) (h : Hash) : Prop :=
  exists vs, (h, vs) ∈ entries /\ requiredValidations s <= JsSet.size vs /\
             is_Some (JsMap.get h (pendingBlocks s)).

(** The states an engine can be in: a constructed one, and whatever the
    public methods make of it, whether they succeed or not. *)
Inductive reachable : State -> Prop :=
| reach_new vs q s : new vs q = inr s -> reachable s
| reach_propose s block : reachable s -> reachable (proposeBlock block s).2
| reach_validate s h k sig : reachable s -> reachable (validateBlock h k sig s).2
| reach_finalized s : reachable s -> reachable (getFinalizedBlocks s).2
| reach_clear s : reachable s -> reachable (clearPendingBlocks s).2.

End Engine.

End ConsensusEngine.

(** ** Block validator ([BlockValidator.ts]) *)

Module BlockValidator.
Import Errors.

Record Transaction := mkTransaction {
  id : string;
  signature : string;
  senderPublicKey : string }.

(** A field of an object received at run time, as far as [typeof] and
    [Array.isArray] tell values apart. *)
Inductive JsValue :=
| JsUndefined
| JsNumber (n : Z)
| JsString (s : string)
| JsArray (l : list Transaction).

Record Block := mkBlock {
  index : JsValue;
  timestamp : JsValue;
  hash : JsValue;
  previousHash : JsValue;
  transactions : JsValue;
  nonce : JsValue }.

Inductive ValidationResult :=
| Valid
| Invalid (error : string).

Definition isValid (r : ValidationResult) : bool :=
  match r with Valid => true | Invalid _ => false end.

Definition is_number (v : JsValue) : bool :=
  match v with JsNumber _ => true | _ => false end.
Definition is_string (v : JsValue) : bool :=
  match v with JsString _ => true | _ => false end.
Definition is_array (v : JsValue) : bool :=
  match v with JsArray _ => true | _ => false end.

(** The content of a field that passed its [typeof] test. *)
Definition number_of (v : JsValue) : Z :=
  match v with JsNumber n => n | _ => 0 end.
Definition array_of (v : JsValue) : list Transaction :=
  match v with JsArray l => l | _ => [] end.

Section Validator.

Variable difficulty : nat.
Variable maxBlockSize : Z.
(** [Date.now()] *)
Variable now : Z.
(** [JSON.stringify(block).length] *)
Variable serializedLength : Block -> Error + Z.
(** sha256, in hex, of [JSON.stringify] of the block's [index],
    [previousHash], [timestamp], [transactions] and [nonce] *)
Variable sha256_JSON :
  JsValue -> JsValue -> JsValue -> JsValue -> JsValue -> Error + string.

Definition validateBlockStructure (block : Block) : bool :=
  is_number (index block) && is_number (timestamp block)
  && is_string (hash block) && is_string (previousHash block)
  && is_array (transactions block).

Definition validateBlockSize (block : Block) : Error + bool :=
  match serializedLength block with
  | inl e => inl e
  | inr blockSize => inr (blockSize <=? maxBlockSize)
  end.

(** [previousBlock] is a block of the chain and has numbers and strings
    where the type says so. *)
Definition validateTimestamp (block : Block) (previousBlock : option Block) : bool :=
  if now + 2 * 60 * 1000 <? number_of (timestamp block) then false
  else
    match previousBlock with
    | Some p =>
        if number_of (timestamp block) <=? number_of (timestamp p) then false
        else true
    | None => true
    end.

Definition calculateBlockHash (block : Block) : Error + string :=
  sha256_JSON (index block) (previousHash block) (timestamp block)
              (transactions block) (nonce block).

Definition startsWith (prefix s : string) : bool :=
  bool_decide (String.substring 0 (String.length prefix) s = prefix).

Fixpoint repeat0 (n : nat) : string :=
  match n with
  | O => ""
  | S n' => "0" ++ repeat0 n'
  end.

Definition validateBlockHash (block : Block) : Error + bool :=
  match calculateBlockHash block with
  | inl e => inl e
  | inr calculatedHash =>
      let hashPrefix := repeat0 difficulty in
      inr (match hash block with
           | JsString h => bool_decide (h = calculatedHash) && startsWith hashPrefix h
           | _ => false
           end)
  end.

Definition validatePreviousHash (block previousBlock : Block) : bool :=
  match previousHash block, hash previousBlock with
  | JsString a, JsString b => bool_decide (a = b)
  | _, _ => false
  end.

Definition validateTransaction (tx : Transaction) : bool :=
  if bool_decide (signature tx = "") || bool_decide (senderPublicKey tx = "")
  then false else true.

Fixpoint validateTransactions (txs : list Transaction) : ValidationResult :=
  match txs with
  | [] => Valid
  | tx :: rest =>
      if negb (validateTransaction tx)
      then Invalid ("Invalid transaction: " ++ id tx)
      else validateTransactions rest
  end.

Definition validateBlock (block : Block) (previousBlock : option Block)
  : ValidationResult :=
  if negb (validateBlockStructure block) then Invalid "Invalid block structure"
  else
    match validateBlockSize block with
    | inl e => Invalid ("Validation error: " ++ message e)
    | inr false => Invalid "Block exceeds maximum size"
    | inr true =>
        if negb (validateTimestamp block previousBlock)
        then Invalid "Invalid block timestamp"
        else
          match validateBlockHash block with
          | inl e => Invalid ("Validation error: " ++ message e)
          | inr false => Invalid "Invalid block hash"
          | inr true =>
              if match previousBlock with
                 | Some p => negb (validatePreviousHash block p)
                 | None => false
                 end
              then Invalid "Invalid previous block hash"
              else validateTransactions (array_of (transactions block))
          end
    end.

End Validator.

End BlockValidator.

(** ** Transaction validator ([TransactionValidator.ts]) *)

Module TransactionValidator.
Import Errors.

Record Transaction := mkTransaction {
  id : string;
  from : string;
  to : string;
  amount : Z;
  fee : Z;
  senderBalance : Z;
  timestamp : Z;
  nonce : Z;
  signature : string }.

Record Block := mkBlock {
  blockTimestamp : Z;
  transactions : list Transaction }.

Definition maxTxSize : Z := 1000000.
Definition minFee : Z := 1000.

(** A method that returns or throws, and touches no state. *)
Definition andThen {A B} (r : Error + A) (k : A -> Error + B) : Error + B :=
  match r with
  | inl e => inl e
  | inr a => k a
  end.

Section Validator.

(** [Date.now()] *)
Variable now : Z.
(** [Buffer.from(JSON.stringify(tx)).length], which throws where
    [JSON.stringify] does *)
Variable serializedLength : Transaction -> Error + Z.
(** sha256, in hex, of [JSON.stringify] of [from], [to], [amount], [fee],
    [timestamp] and [nonce] *)
Variable sha256_JSON : string -> string -> Z -> Z -> Z -> Z -> string.
(** [this.ec.keyFromPublic(key, 'hex').verify(txHash, signature)] *)
Variable ecVerify : string -> string -> string -> Error + bool.

Definition falsy (str : string) : bool := bool_decide (str = "").

Definition validateBasics (tx : Transaction) : Error + unit :=
  if falsy (id tx) || falsy (from tx) || falsy (to tx) || falsy (signature tx)
  then inl (ValidationError "Missing required transaction fields")
  else
    andThen (serializedLength tx) (fun size =>
      if maxTxSize <? size
      then inl (ValidationError "Transaction size exceeds maximum allowed")
      else if now + 300000 <? timestamp tx
      then inl (ValidationError "Transaction timestamp too far in future")
      else if fee tx <? minFee
      then inl (ValidationError "Transaction fee below minimum required")
      else inr tt).

Definition calculateTxHash (tx : Transaction) : string :=
  sha256_JSON (from tx) (to tx) (amount tx) (fee tx) (timestamp tx) (nonce tx).

Definition validateSignature (tx : Transaction) : Error + unit :=
  match
    (let txHash := calculateTxHash tx in
     andThen (ecVerify (from tx) txHash (signature tx)) (fun validSig =>
       if negb validSig
       then inl (ValidationError "Invalid transaction signature")
       else inr tt))
  with
  | inl error => inl (ValidationError ("Signature validation failed: " ++ message error))
  | inr u => inr u
  end.

Definition validateAmount (tx : Transaction) : Error + unit :=
  if amount tx <=? 0
  then inl (ValidationError "Transaction amount must be positive")
  else if senderBalance tx <? amount tx
  then inl (ValidationError "Insufficient sender balance")
  else
    let totalAmount := amount tx + fee tx in
    if senderBalance tx <? totalAmount
    then inl (ValidationError "Insufficient balance to cover amount + fee")
    else inr tt.

Definition validateInBlock (tx : Transaction) (block : Block) : Error + unit :=
  if blockTimestamp block <? timestamp tx
  then inl (ValidationError "Transaction timestamp after block timestamp")
  else if (1 <? length (filter (fun t => id t = id tx) (transactions block)))%nat
  then inl (ValidationError "Duplicate transaction in block")
  else inr tt.

Definition validateTransaction (tx : Transaction) (block : option Block)
  : Error + bool :=
  match
    andThen (validateBasics tx) (fun _ =>
    andThen (validateSignature tx) (fun _ =>
    andThen (validateAmount tx) (fun _ =>
    andThen (match block with
             | Some b => validateInBlock tx b
             | None => inr tt
             end) (fun _ =>
    inr true))))
  with
  | inl (ValidationError m) => inl (ValidationError m)
  | inl error =>
      inl (ValidationError ("Transaction validation failed: " ++ message error))
  | inr b => inr b
  end.

End Validator.

End TransactionValidator.

(** ** Merkle hashing ([TransactionPool.ts], the two [CryptographicHash]
    classes)

    [hash] is the instance's [hash] method: the configured digest, iterated,
    in the configured encoding. *)

Module MerkleLoop.

(** [while (level.length > 1) level = step(level)], with the number of turns
    bounded by [fuel]. *)
Fixpoint iterate (step : list string -> list string) (fuel : nat)
    (level : list string) : list string :=
  match fuel with
  | O => level
  | S fuel' =>
      if (1 <? length level)%nat then iterate step fuel' (step level)
      else level
  end.

End MerkleLoop.

(** The first class: [merkleHash(items: (string | Buffer)[])]. *)
Module CryptographicHashA.
Import Errors.

Section Hasher.
Variable hash : string -> string.

(** One pass of the inner [for] loop, [i] advancing by two. *)
Fixpoint pairUp (hashes : list string) : list string :=
  match hashes with
  | [] => []
  | [last] => [hash (last ++ last)]
  | a :: b :: rest => hash (a ++ b) :: pairUp rest
  end.

Definition merkleHash (items : list string) : Error + string :=
  match items with
  | [] => inl (PlainError
                 "Merkle hash calculation failed: Empty array provided for Merkle hash")
  | _ =>
      let hashes := map hash items in
      match MerkleLoop.iterate pairUp (length hashes) hashes with
      | root :: _ => inr root
      | [] => inl (PlainError "Merkle hash calculation failed: undefined")
      end
  end.

End Hasher.

End CryptographicHashA.

(** The second class: [merkleHash(dataArray: string[])]. *)
Module CryptographicHashB.
Import Errors.

Section Hasher.
Variable hash : string -> string.

Fixpoint pairUp (level : list string) : list string :=
  match level with
  | [] => []
  | [last] => [last]
  | a :: b :: rest => hash (a ++ b) :: pairUp rest
  end.

Definition merkleHash (dataArray : list string) : Error + string :=
  match dataArray with
  | [] => inl (PlainError
                 "Failed to generate Merkle hash: Empty array provided for Merkle hash")
  | _ =>
      let leaves := map hash dataArray in
      match MerkleLoop.iterate pairUp (length leaves) leaves with
      | root :: _ => inr root
      | [] => inl (PlainError "Failed to generate Merkle hash: undefined")
      end
  end.

End Hasher.

End CryptographicHashB.

(** ** The proposer-checking engine ([StateManager.ts], the second
    [ConsensusEngine] class)

    The engine that follows a chain head: it takes proposals from its
    validators and moves the head on [finalizeBlock]. *)

Module ConsensusEngine2.
Import Errors.

(** The types of ['./types'] are not among the sources; these are the fields
    the engine reads.  [txHash], [txSignature] and [publicKey] are the
    [hash], [signature] and [publicKey] of a transaction. *)
Record Transaction := mkTransaction {
  txHash : string;
  txSignature : string;
  publicKey : string }.

Record Block := mkBlock {
  hash : string;
  previousHash : string;
  timestamp : Z;
  transactions : list Transaction;
  nonce : Z;
  proposer : string;
  signature : string }.

(** [{ valid: true, hash }] and [{ valid: false, error }] *)
Inductive ValidationResult :=
| Accepted (hash : string)
| Rejected (error : string).

Inductive Event :=
| EvBlockProposed (block : Block)
| EvBlockFinalized (block : Block).

Record State := mkState {
  validators : JsSet.t string;
  pendingBlocks : JsMap.t string Block;
  currentBlock : option Block;
  chainHead : string;
  emitted : list Event }.

(** [constructor(validators, chainHead)] *)
Definition new (validators : list string) (chainHead : string) : State :=
  mkState (JsSet.of_array validators) [] None chainHead [].

Section Engine.

(** [SHA256(JSON.stringify({previousHash, timestamp, transactions, nonce}))] *)
Variable SHA256_JSON : string -> Z -> list Transaction -> Z -> string.
(** [crypto.verify] of [bitcoinjs-lib] on the hash, the signature and the
    public key of a transaction, and [ECPair.fromPublicKey(proposer).verify]
    on the hash and the signature of a block; either may throw. *)
Variable cryptoVerify : string -> string -> string -> Error + bool.
Variable ecPairVerify : string -> string -> string -> Error + bool.

Definition M := @Eff.M State.

(** [this.emit(...)]; listeners are taken not to throw, and so is the
    [Logger], which is left out. *)
Definition emit (e : Event) : M unit :=
  Eff.modify (fun s => mkState (validators s) (pendingBlocks s) (currentBlock s)
                               (chainHead s) (emitted s ++ [e])).

Definition calculateBlockHash (block : Block) : string :=
  SHA256_JSON (previousHash block) (timestamp block) (transactions block) (nonce block).

Definition validateTransaction (tx : Transaction) : bool :=
  match cryptoVerify (txHash tx) (txSignature tx) (publicKey tx) with
  | inr signatureValid => if negb signatureValid then false else true
  | inl error => false
  end.

Definition verifyBlockSignature (block : Block) : bool :=
  match ecPairVerify (proposer block) (hash block) (signature block) with
  | inr verified => verified
  | inl error => false
  end.

(** The loop over [block.transactions], which returns false at the first
    transaction that fails. *)
Fixpoint validateTransactions (txs : list Transaction) : bool :=
  match txs with
  | [] => true
  | tx :: txs' => if negb (validateTransaction tx) then false
                  else validateTransactions txs'
  end.

Definition validateBlock (block : Block) : M bool :=
  head <- Eff.gets chainHead ;;
  let calculatedHash := calculateBlockHash block in
  if negb (bool_decide (calculatedHash = hash block)) then Eff.ret false
  else if negb (bool_decide (previousHash block = head)) then Eff.ret false
  else if negb (validateTransactions (transactions block)) then Eff.ret false
  else Eff.ret (verifyBlockSignature block).

Definition proposeBlock (block : Block) : M ValidationResult :=
  Eff.catch
    (known <- Eff.gets (fun s => JsSet.has (proposer block) (validators s)) ;;
     if negb known then Eff.throw (PlainError "Invalid block proposer")
     else
       isValid <- validateBlock block ;;
       if negb isValid then Eff.throw (PlainError "Invalid block")
       else
         Eff.modify (fun s => mkState (validators s)
                                (JsMap.set (hash block) block (pendingBlocks s))
                                (currentBlock s) (chainHead s) (emitted s)) ;;;
         emit (EvBlockProposed block) ;;;
         Eff.ret (Accepted (hash block)))
    (fun error => Eff.ret (Rejected (message error))).

Definition finalizeBlock (h : string) : M unit :=
  block <- Eff.gets (fun s => JsMap.get h (pendingBlocks s)) ;;
  match block with
  | None => Eff.throw (PlainError "Block not found")
  | Some block =>
      Eff.modify (fun s => mkState (validators s)
                             (JsMap.delete h (pendingBlocks s))
                             (Some block) (hash block) (emitted s)) ;;;
      emit (EvBlockFinalized block)
  end.

Definition getCurrentBlock (s : State) : option Block := currentBlock s.

Definition getChainHead (s : State) : string := chainHead s.

(** What [validateBlock] asks of a block when the head is [head]. *)
Definition acceptable (head : string) (block : Block) : Prop :=
  (calculateBlockHash block = hash block) /\
  (previousHash block = head) /\
  Forall (fun tx => cryptoVerify (txHash tx) (txSignature tx) (publicKey tx) = inr true)
         (transactions block) /\
  (ecPairVerify (proposer block) (hash block) (signature block) = inr true).

(** What holds of every state of the engine: a pending block sits under its
    own hash, and it and the current block were proposed by a validator,
    carry the recomputed hash and a block signature that verifies; the chain
    head is the hash of the current block. *)
Record proposed (s : State) : Prop := {
  pending_proposed : forall h b, JsMap.get h (pendingBlocks s) = Some b ->
    h = hash b /\ proposer b ∈ validators s /\
    calculateBlockHash b = hash b /\
    ecPairVerify (proposer b) (hash b) (signature b) = inr true;
  head_proposed : forall b, currentBlock s = Some b ->
    chainHead s = hash b /\ proposer b ∈ validators s /\
    calculateBlockHash b = hash b /\
    ecPairVerify (proposer b) (hash b) (signature b) = inr true }.

(** The states an engine can be in: a constructed one, and whatever the
    public methods make of it, whether they succeed or not. *)
Inductive reachable : State -> Prop :=
| reach_new vs head : reachable (new vs head)
| reach_propose s block : reachable s -> reachable (proposeBlock block s).2
| reach_finalize s h : reachable s -> reachable (finalizeBlock h s).2.

End Engine.

End ConsensusEngine2.

(** ** Sample collaborators and inputs

    Concrete stand-ins for the collaborators the classes are given, and the
    inputs the scenarios below run on. *)

Module Samples.
Import Errors.

(** A digest that shows its input. *)
Definition tagHash (s : string) : string := "H(" ++ s ++ ")".

(** *** State manager *)

Definition alice : StateManager.Account := StateManager.mkAccount "alice" 100 0 "" "".

Definition funded : StateManager.State :=
  StateManager.with_dbAccounts (<["alice" := alice]> ∅) (StateManager.init 1000).

(** The second transfer asks for more than alice has left. *)
Definition overdrawn : StateManager.Block :=
  StateManager.mkBlock "h1" "h0"
    [StateManager.mkTransaction "alice" "bob" 10 1;
     StateManager.mkTransaction "alice" "bob" 1000 1].

Definition transfers : StateManager.Block :=
  StateManager.mkBlock "h3" "h0"
    [StateManager.mkTransaction "alice" "bob" 10 1;
     StateManager.mkTransaction "bob" "alice" 5 1;
     StateManager.mkTransaction "alice" "alice" 5 1].


(** The caller creates the block object and hands it to [commitBlock]. *)
Definition commit (b : StateManager.Block) : StateManager.M unit :=
  r <- StateManager.newBlock b ;; StateManager.commitBlock r.

(** *** Pools *)

Definition poolDigest (f t : string) (a ts : Z) : string := f ++ ">" ++ t.
Definition poolVerify (tx : TransactionPool.Transaction) : Error + bool := inr true.
Definition poolBalance (a : string) : Error + Z := inr 100.
Definition poolSize (tx : TransactionPool.Transaction) : Z := 250.
Definition toBob : TransactionPool.Transaction :=
  TransactionPool.mkTransaction "t1" "alice" "bob" 10 1 1000 "sig1".
Definition toBobAgain : TransactionPool.Transaction :=
  TransactionPool.mkTransaction "t1b" "alice" "bob" 10 7 1000 "sig1b".
Definition toCarol : TransactionPool.Transaction :=
  TransactionPool.mkTransaction "t2" "alice" "carol" 10 1 1001 "sig2".

Definition poolAdd := TransactionPool.addTransaction poolDigest poolVerify poolBalance poolSize.
(** A pool of the default maximum size, and one of maximum size one, each
    after [toBob] was added at time 1000. *)
Definition roomy : TransactionPool.State := (poolAdd 1000 toBob (TransactionPool.new 5000)).2.
Definition full : TransactionPool.State := (poolAdd 1000 toBob (TransactionPool.new 1)).2.

Definition alwaysValid (tx : BalancePool.Transaction) : bool := true.
Definition byAmount (tx : BalancePool.Transaction) : string :=
  if decide (BalancePool.amount tx = 60) then "pending" else "new".
Definition balance100 (a : string) : Error + Z := inr 100.
Definition pending60 : BalancePool.Transaction := BalancePool.mkTransaction "alice" 60 5 1.
Definition new40 : BalancePool.Transaction := BalancePool.mkTransaction "alice" 40 5 1.
Definition new41 : BalancePool.Transaction := BalancePool.mkTransaction "alice" 41 5 1.
Definition onePending : BalancePool.State := BalancePool.mkState [("pending", pending60)].

(** *** Consensus engine *)

Definition blockDigest (p : string) (ts : Z) (ids : list string) (h : Z) : string :=
  p ++ "/" ++ String.concat "," ids.
Definition acceptBlock (b : ConsensusEngine.Block) : Error + bool := inr true.
Definition acceptSignature (h sig k : string) : Error + bool := inr true.
Definition blockX : ConsensusEngine.Block :=
  ConsensusEngine.mkBlock "genesis" 10 [ConsensusEngine.mkTransaction "t1"] 1.

(** Validators A, B and C with a quorum of two; X proposed, then attested by
    A and by B. *)
Definition attested : ConsensusEngine.State :=
  let s0 := ConsensusEngine.mkState ["A"; "B"; "C"] 2 [] [] in
  let s1 := (ConsensusEngine.proposeBlock blockDigest acceptBlock blockX s0).2 in
  let s2 := (ConsensusEngine.validateBlock acceptSignature "genesis/t1" "A" "sigA" s1).2 in
  (ConsensusEngine.validateBlock acceptSignature "genesis/t1" "B" "sigB" s2).2.

(** *** Validators *)

Definition txLength (tx : TransactionValidator.Transaction) : Error + Z := inr 200.
Definition txDigest (f t : string) (a fe ts n : Z) : string := "digest".
Definition rejectSignature (key h sig : string) : Error + bool := inr false.
(** Well formed, but worth nothing and badly signed. *)
Definition worthless : TransactionValidator.Transaction :=
  TransactionValidator.mkTransaction "tx1" "alice" "bob" 0 1000 50 0 0 "sig".

Definition blockLength (b : BlockValidator.Block) : Error + Z := inr 300.
Definition blockHashOf (i p t txs n : BlockValidator.JsValue) : Error + string :=
  inr "00ab".
Definition stamped (t : Z) : BlockValidator.Block :=
  BlockValidator.mkBlock (BlockValidator.JsNumber 1) (BlockValidator.JsNumber t)
    (BlockValidator.JsString "00ff") (BlockValidator.JsString "0000")
    (BlockValidator.JsArray []) (BlockValidator.JsNumber 7).

(** *** More states of the state manager *)

Definition staged : StateManager.State := (StateManager.newBlock transfers funded).2.
Definition committed : StateManager.State := (commit transfers funded).2.
(** [committed] after the caller created the block object of [overdrawn]. *)
Definition restaged : StateManager.State := (StateManager.newBlock overdrawn committed).2.

(** The caller creates the block object and hands it to [commitBlock], on
    the store [db]. *)
Definition commitOn (db : StoreErrors.DatabaseClient) (b : StateManager.Block)
  : StateManager.M unit :=
  r <- StateManager.newBlock b ;; StoreErrors.commitBlock db r.

(** A store on which the account of alice cannot be written. *)
Definition aliceRefused : StoreErrors.DatabaseClient :=
  StoreErrors.mkDatabaseClient
    (fun _ addr _ => if decide (addr = "alice") then Some (PlainError "write refused")
                     else None)
    (fun _ _ => None).

(** A store that does not save blocks. *)
Definition blocksRefused : StoreErrors.DatabaseClient :=
  StoreErrors.mkDatabaseClient (fun _ _ _ => None)
    (fun _ _ => Some (PlainError "write refused")).

(** *** An engine short of validators *)

(** The one validator A, listed twice, with a quorum of two; X proposed,
    then attested by A. *)
Definition understaffed : ConsensusEngine.State :=
  let s0 := ConsensusEngine.mkState ["A"] 2 [] [] in
  let s1 := (ConsensusEngine.proposeBlock blockDigest acceptBlock blockX s0).2 in
  (ConsensusEngine.validateBlock acceptSignature "genesis/t1" "A" "sigA" s1).2.

(** *** The proposer-checking engine *)

Definition headDigest (p : string) (ts : Z) (txs : list ConsensusEngine2.Transaction)
    (n : Z) : string :=
  p ++ "#" ++ (if decide (n = 1) then "1" else "2").
Definition acceptKey (a b c : string) : Error + bool := inr true.
(** Two blocks by validator V on the head g. *)
Definition blockL : ConsensusEngine2.Block :=
  ConsensusEngine2.mkBlock "g#1" "g" 10 [] 1 "V" "sigL".
Definition blockR : ConsensusEngine2.Block :=
  ConsensusEngine2.mkBlock "g#2" "g" 11 [] 2 "V" "sigR".
Definition propose := ConsensusEngine2.proposeBlock headDigest acceptKey acceptKey.
Definition proposedL : ConsensusEngine2.State :=
  (propose blockL (ConsensusEngine2.new ["V"] "g")).2.
Definition proposedLR : ConsensusEngine2.State := (propose blockR proposedL).2.
Definition finalizedL : ConsensusEngine2.State :=
  (ConsensusEngine2.finalizeBlock "g#1" proposedL).2.

End Samples.

(** * Properties *)

(** ** Running computations *)

Section EffFacts.
Context {S : Type}.
Implicit Types (s : S).

Lemma bind_returns {A B} (m : @Eff.M S A) (k : A -> Eff.M B) s a s1 :
  m s = (inr a, s1) -> Eff.bind m k s = k a s1.
Proof. intros H. unfold Eff.bind. by rewrite H. Qed.

Lemma bind_throws {A B} (m : @Eff.M S A) (k : A -> Eff.M B) s e s1 :
  m s = (inl e, s1) -> Eff.bind m k s = (inl e, s1).
Proof. intros H. unfold Eff.bind. by rewrite H. Qed.

Lemma catch_returns {A} (m : @Eff.M S A) h s a s1 :
  m s = (inr a, s1) -> Eff.catch m h s = (inr a, s1).
Proof. intros H. unfold Eff.catch. by rewrite H. Qed.

Lemma catch_throws {A} (m : @Eff.M S A) h s e s1 :
  m s = (inl e, s1) -> Eff.catch m h s = h e s1.
Proof. intros H. unfold Eff.catch. by rewrite H. Qed.

(** A handler that only rethrows leaves the state as the body left it. *)
Lemma catch_rethrow_state {A} (m : @Eff.M S A) (f : Errors.Error -> Errors.Error) s :
  (Eff.catch m (fun e => Eff.throw (f e)) s).2 = (m s).2.
Proof. unfold Eff.catch. by destruct (m s) as [[e|a] s1]. Qed.

(** A loop that throws does so at one element, after the ones before it
    went through. *)
Lemma for_of_throws {A} (body : A -> @Eff.M S unit) l s e s' :
  Eff.for_of l body s = (inl e, s') ->
  exists done failing rest s1,
    l = done ++ failing :: rest /\
    Eff.for_of done body s = (inr tt, s1) /\
    body failing s1 = (inl e, s').
Proof.
  revert s. induction l as [|x l IH]; intros s; simpl.
  - discriminate.
  - unfold Eff.bind at 1. destruct (body x s) as [[e1|[]] s1] eqn:Hx.
    + intros [= <- <-]. exists [], x, l, s. by repeat split.
    + intros H. destruct (IH _ H) as (done & failing & rest & s2 & -> & Hd & Hf).
      exists (x :: done), failing, rest, s2. repeat split; auto.
      simpl. by rewrite (bind_returns _ _ _ _ _ Hx).
Qed.

Lemma for_of_app {A} (body : A -> @Eff.M S unit) l1 l2 s s1 :
  Eff.for_of l1 body s = (inr tt, s1) ->
  Eff.for_of (l1 ++ l2) body s = Eff.for_of l2 body s1.
Proof.
  revert s. induction l1 as [|x l1 IH]; intros s; simpl.
  - by intros [= ->].
  - unfold Eff.bind. destruct (body x s) as [[e1|[]] s2]; [discriminate|]. apply IH.
Qed.

Section Frames.
Variable R : S -> S -> Prop.
Hypothesis R_refl : forall s, R s s.
Hypothesis R_trans : forall s1 s2 s3, R s1 s2 -> R s2 s3 -> R s1 s3.

Lemma frames_ret {A} (a : A) : Eff.frames R (Eff.ret a).
Proof. intros s. apply R_refl. Qed.

Lemma frames_throw {A} e : Eff.frames R (@Eff.throw S A e).
Proof. intros s. apply R_refl. Qed.

Lemma frames_modify f : (forall s, R s (f s)) -> Eff.frames R (Eff.modify f).
Proof. intros H s. apply H. Qed.

Lemma frames_bind {A B} (m : Eff.M A) (k : A -> Eff.M B) :
  Eff.frames R m -> (forall a, Eff.frames R (k a)) -> Eff.frames R (Eff.bind m k).
Proof.
  intros Hm Hk s. unfold Eff.bind. specialize (Hm s).
  destruct (m s) as [[e|a] s1]; simpl in *; auto.
  eapply R_trans; [exact Hm|apply Hk].
Qed.

Lemma frames_catch {A} (m : Eff.M A) h :
  Eff.frames R m -> (forall e, Eff.frames R (h e)) -> Eff.frames R (Eff.catch m h).
Proof.
  intros Hm Hh s. unfold Eff.catch. specialize (Hm s).
  destruct (m s) as [[e|a] s1]; simpl in *; auto.
  eapply R_trans; [exact Hm|apply Hh].
Qed.

Lemma frames_for_of {A} (l : list A) body :
  (forall x, Eff.frames R (body x)) -> Eff.frames R (Eff.for_of l body).
Proof.
  intros Hb. induction l as [|x l IH]; simpl.
  - apply frames_ret.
  - apply frames_bind; auto.
Qed.

End Frames.

End EffFacts.

(** ** Maps, sets and the cache *)

Section JsMapFacts.
Context {K V : Type} `{EqDecision K}.
Implicit Types (m : JsMap.t K V).

Lemma JsMap_get_set_eq k v m : JsMap.get k (JsMap.set k v m) = Some v.
Proof.
  induction m as [|[k' v'] m IH]; simpl.
  - rewrite decide_True; auto.
  - destruct (decide (k' = k)); simpl.
    + rewrite decide_True; auto.
    + rewrite decide_False; auto.
Qed.

Lemma JsMap_get_set_ne k k' v m : k <> k' -> JsMap.get k' (JsMap.set k v m) = JsMap.get k' m.
Proof.
  intros Hne. induction m as [|[k0 v0] m IH]; simpl.
  - rewrite decide_False; auto.
  - destruct (decide (k0 = k)) as [->|]; simpl.
    + rewrite !decide_False; auto.
    + destruct (decide (k0 = k')); auto.
Qed.

Lemma JsMap_has_set k v m : JsMap.has k (JsMap.set k v m) = true.
Proof. unfold JsMap.has. by rewrite JsMap_get_set_eq. Qed.

Lemma JsMap_get_None k m : JsMap.get k m = None <-> k ∉ JsMap.keys m.
Proof.
  induction m as [|[k' v'] m IH]; simpl.
  - split; auto. intros _. apply not_elem_of_nil.
  - rewrite not_elem_of_cons. destruct (decide (k' = k)) as [->|Hne].
    + split; [discriminate|]. intros [? _]. congruence.
    + rewrite IH. split; [intros ?; split; auto|intros [_ ?]; auto].
Qed.

Lemma JsMap_has_keys k m : JsMap.has k m = true <-> k ∈ JsMap.keys m.
Proof.
  unfold JsMap.has. destruct (JsMap.get k m) eqn:E.
  - split; auto. intros _. destruct (decide (k ∈ JsMap.keys m)); auto.
    apply JsMap_get_None in n. congruence.
  - split; [discriminate|]. intros Hin. apply JsMap_get_None in E. contradiction.
Qed.

Lemma JsMap_get_elem k v m : JsMap.get k m = Some v -> (k, v) ∈ m.
Proof.
  induction m as [|[k' v'] m IH]; simpl; [discriminate|].
  destruct (decide (k' = k)) as [->|Hne].
  - intros [= ->]. apply list_elem_of_here.
  - intros H. apply list_elem_of_further; auto.
Qed.

Lemma JsMap_elem_get k v m : NoDup (JsMap.keys m) -> (k, v) ∈ m -> JsMap.get k m = Some v.
Proof.
  induction m as [|[k' v'] m IH]; simpl; intros Hnd Hin.
  - by apply elem_of_nil in Hin.
  - apply NoDup_cons in Hnd as [Hnotin Hnd].
    apply elem_of_cons in Hin as [[= -> ->]|Hin].
    + by rewrite decide_True.
    + destruct (decide (k' = k)) as [->|Hne]; auto.
      exfalso. apply Hnotin. apply (list_elem_of_fmap_2 fst) in Hin. exact Hin.
Qed.

Lemma JsMap_keys_set_new k v m : JsMap.get k m = None -> JsMap.keys (JsMap.set k v m) = JsMap.keys m ++ [k].
Proof.
  induction m as [|[k' v'] m IH]; simpl; auto.
  destruct (decide (k' = k)); [discriminate|]. intros H. simpl. f_equal. auto.
Qed.

Lemma JsMap_keys_set_old k v m : is_Some (JsMap.get k m) -> JsMap.keys (JsMap.set k v m) = JsMap.keys m.
Proof.
  induction m as [|[k' v'] m IH]; simpl.
  - intros [? ?]. discriminate.
  - destruct (decide (k' = k)) as [->|]; simpl; auto. intros H. f_equal. auto.
Qed.

Lemma JsMap_keys_delete k m : JsMap.keys (JsMap.delete k m) = filter (fun k' => k' <> k) (JsMap.keys m).
Proof.
  induction m as [|[k' v'] m IH]; simpl; auto.
  destruct (decide (k' = k)) as [->|Hne].
  - rewrite filter_cons_False; auto.
  - rewrite filter_cons_True; auto. simpl. by f_equal.
Qed.

Lemma JsMap_get_delete_eq k m : JsMap.get k (JsMap.delete k m) = None.
Proof.
  induction m as [|[k' v'] m IH]; simpl; auto.
  destruct (decide (k' = k)) as [->|Hne]; auto. simpl. by rewrite decide_False.
Qed.

Lemma JsMap_get_delete_ne k k' m : k <> k' -> JsMap.get k' (JsMap.delete k m) = JsMap.get k' m.
Proof.
  intros Hne. induction m as [|[k0 v0] m IH]; simpl; auto.
  destruct (decide (k0 = k)) as [->|Hne0]; simpl.
  - by rewrite decide_False.
  - destruct (decide (k0 = k')); auto.
Qed.
Lemma JsMap_size_set_new k v m :
  JsMap.has k m = false -> JsMap.size (JsMap.set k v m) = JsMap.size m + 1.
Proof.
  unfold JsMap.has, JsMap.size. intros Hhas.
  assert (JsMap.get k m = None) as Hget by (by destruct (JsMap.get k m)).
  clear Hhas. induction m as [|[k' v'] m IH]; simpl in *; [done|].
  destruct (decide (k' = k)); [discriminate|]. simpl. specialize (IH Hget). lia.
Qed.
End JsMapFacts.

Section JsSetFacts.
Context {A : Type} `{EqDecision A}.
Lemma JsSet_elem_add (x y : A) s : y ∈ JsSet.add x s <-> y = x \/ y ∈ s.
Proof.
  unfold JsSet.add, JsSet.has. case_bool_decide.
  - split; auto. intros [->|]; auto.
  - rewrite elem_of_app, list_elem_of_singleton. tauto.
Qed.
Lemma JsSet_NoDup_add (x : A) s : NoDup s -> NoDup (JsSet.add x s).
Proof.
  unfold JsSet.add, JsSet.has. case_bool_decide; auto.
  intros Hnd. apply NoDup_app. repeat split; auto.
  - intros y Hy Hx. apply list_elem_of_singleton in Hx. subst. contradiction.
  - apply NoDup_singleton.
Qed.
End JsSetFacts.

Section LRUFacts.
Context {K V : Type} `{EqDecision K}.
Implicit Types (c : LRUCache.t K V) (l : list (K * V)).

Lemma peek_remove_eq k l : LRUCache.peek_entries k (LRUCache.remove_entries k l) = None.
Proof.
  induction l as [|[k' v] l IH]; simpl; auto.
  destruct (decide (k' = k)) as [->|Hne]; auto. simpl. by rewrite decide_False.
Qed.

Lemma peek_remove_ne k k' l :
  k <> k' -> LRUCache.peek_entries k' (LRUCache.remove_entries k l) = LRUCache.peek_entries k' l.
Proof.
  intros Hne. induction l as [|[k0 v] l IH]; simpl; auto.
  destruct (decide (k0 = k)) as [->|Hne0]; simpl.
  - by rewrite decide_False.
  - destruct (decide (k0 = k')); auto.
Qed.

Lemma peek_take_Some k v n l :
  LRUCache.peek_entries k (take n l) = Some v -> LRUCache.peek_entries k l = Some v.
Proof.
  revert n. induction l as [|[k0 v0] l IH]; intros [|n]; simpl; try discriminate.
  destruct (decide (k0 = k)); auto. apply IH.
Qed.

Lemma get_result k c : (LRUCache.get k c).1 = LRUCache.peek k c.
Proof. unfold LRUCache.get. by destruct (LRUCache.peek k c). Qed.

Lemma get_capacity k c : LRUCache.capacity (LRUCache.get k c).2 = LRUCache.capacity c.
Proof. unfold LRUCache.get. by destruct (LRUCache.peek k c). Qed.

Lemma peek_get k k' c : LRUCache.peek k' (LRUCache.get k c).2 = LRUCache.peek k' c.
Proof.
  unfold LRUCache.get. destruct (LRUCache.peek k c) as [v|] eqn:E; auto.
  unfold LRUCache.peek in *. simpl. destruct (decide (k = k')) as [<-|Hne]; auto.
  by apply peek_remove_ne.
Qed.

Lemma set_capacity k v c : LRUCache.capacity (LRUCache.set k v c) = LRUCache.capacity c.
Proof. reflexivity. Qed.

Lemma peek_set_Some k v k' v' c :
  LRUCache.peek k' (LRUCache.set k v c) = Some v' ->
  (k' = k /\ v' = v) \/ (k' <> k /\ LRUCache.peek k' c = Some v').
Proof.
  unfold LRUCache.peek, LRUCache.set. simpl. intros H. apply peek_take_Some in H.
  simpl in H. destruct (decide (k = k')) as [<-|Hne].
  - left. split; congruence.
  - right. split; [congruence|]. by rewrite peek_remove_ne in H.
Qed.

Lemma peek_set_eq k v c :
  (1 <= LRUCache.capacity c)%nat -> LRUCache.peek k (LRUCache.set k v c) = Some v.
Proof.
  unfold LRUCache.peek, LRUCache.set. simpl. destruct (LRUCache.capacity c); [lia|].
  intros _. simpl. by rewrite decide_True.
Qed.
End LRUFacts.

(** ** Merkle hashing *)

Lemma list_pair_ind {A} (P : list A -> Prop) :
  P [] -> (forall x, P [x]) -> (forall a b l, P l -> P (a :: b :: l)) ->
  forall l, P l.
Proof.
  intros H0 H1 H2.
  assert (forall l, P l /\ forall x, P (x :: l)) as H.
  { induction l as [|a l [IHl IHx]]; split; auto. }
  intros l. apply H.
Qed.

Section MerkleLoopFacts.
Variable step : list string -> list string.
Hypothesis step_shrinks :
  forall l, (1 < length l)%nat -> (0 < length (step l) < length l)%nat.

(** With as many turns as the level has hashes the loop runs until its
    condition fails: one hash is left. *)
Lemma iterate_exits fuel level :
  (0 < length level <= fuel)%nat ->
  length (MerkleLoop.iterate step fuel level) = 1%nat.
Proof.
  revert level. induction fuel as [|fuel IH]; intros level Hl; [lia|].
  simpl. destruct (1 <? length level)%nat eqn:E.
  - apply Nat.ltb_lt in E. apply IH. specialize (step_shrinks _ E). lia.
  - apply Nat.ltb_ge in E. lia.
Qed.

End MerkleLoopFacts.

Section MerkleFacts.
Variable hash : string -> string.

Lemma pairUpA_shrinks l :
  (1 < length l)%nat ->
  (0 < length (CryptographicHashA.pairUp hash l) < length l)%nat.
Proof.
  induction l as [|x|a b l IH] using list_pair_ind; simpl; try lia.
  intros _. destruct l as [|c [|d l]]; simpl in *; lia.
Qed.

Lemma pairUpB_shrinks l :
  (1 < length l)%nat ->
  (0 < length (CryptographicHashB.pairUp hash l) < length l)%nat.
Proof.
  induction l as [|x|a b l IH] using list_pair_ind; simpl; try lia.
  intros _. destruct l as [|c [|d l]]; simpl in *; lia.
Qed.

Lemma pairUpA_even_app l1 l2 :
  Nat.Even (length l1) ->
  CryptographicHashA.pairUp hash (l1 ++ l2)
  = CryptographicHashA.pairUp hash l1 ++ CryptographicHashA.pairUp hash l2.
Proof.
  induction l1 as [|x|a b l IH] using list_pair_ind; simpl; intros He; auto.
  - destruct He as [k Hk]. lia.
  - f_equal. apply IH. destruct He as [k Hk]. exists (k - 1)%nat. lia.
Qed.

Lemma pairUpB_even_app l1 l2 :
  Nat.Even (length l1) ->
  CryptographicHashB.pairUp hash (l1 ++ l2)
  = CryptographicHashB.pairUp hash l1 ++ CryptographicHashB.pairUp hash l2.
Proof.
  induction l1 as [|x|a b l IH] using list_pair_ind; simpl; intros He; auto.
  - destruct He as [k Hk]. lia.
  - f_equal. apply IH. destruct He as [k Hk]. exists (k - 1)%nat. lia.
Qed.

(** The second class pairs the hashes of a level from the left and, when
    their number is odd, hands the last one on as it is. *)
Lemma pairUpB_carries_odd_tail level last :
  Nat.Even (length level) ->
  CryptographicHashB.pairUp hash (level ++ [last])
  = CryptographicHashB.pairUp hash level ++ [last].
Proof. intros He. by rewrite pairUpB_even_app. Qed.

(** The first class hashes the last one of an odd level with itself. *)
Lemma pairUpA_rehashes_odd_tail level last :
  Nat.Even (length level) ->
  CryptographicHashA.pairUp hash (level ++ [last])
  = CryptographicHashA.pairUp hash level ++ [hash (last ++ last)].
Proof. intros He. by rewrite pairUpA_even_app. Qed.

(** On a non-empty array the second class returns: the root is what is left
    of the leaves once the levels have been paired up down to one hash. *)
Lemma merkleHashB_returns items :
  items <> [] ->
  exists root,
    CryptographicHashB.merkleHash hash items = inr root /\
    MerkleLoop.iterate (CryptographicHashB.pairUp hash) (length items) (map hash items)
    = [root].
Proof.
  intros Hne. unfold CryptographicHashB.merkleHash.
  destruct items as [|i items]; [done|].
  pose proof (iterate_exits _ pairUpB_shrinks (length (map hash (i :: items)))
                (map hash (i :: items))) as H.
  rewrite length_map in *.
  destruct (MerkleLoop.iterate _ _ _) as [|root [|]] eqn:E; simpl in H; try lia.
  exists root. by split.
Qed.

Lemma merkleHashA_returns items :
  items <> [] ->
  exists root,
    CryptographicHashA.merkleHash hash items = inr root /\
    MerkleLoop.iterate (CryptographicHashA.pairUp hash) (length items) (map hash items)
    = [root].
Proof.
  intros Hne. unfold CryptographicHashA.merkleHash.
  destruct items as [|i items]; [done|].
  pose proof (iterate_exits _ pairUpA_shrinks (length (map hash (i :: items)))
                (map hash (i :: items))) as H.
  rewrite length_map in *.
  destruct (MerkleLoop.iterate _ _ _) as [|root [|]] eqn:E; simpl in H; try lia.
  exists root. by split.
Qed.

(** The second class does what the design document asks of [merkleRoot]: on
    a non-empty array it returns the hash left when the leaves have been
    paired up level by level, each level pairing its hashes from the left
    and handing an unpaired last hash on unchanged. *)
Lemma merkleHashB_carries_unpaired items :
  items <> [] ->
  (exists root,
     CryptographicHashB.merkleHash hash items = inr root /\
     MerkleLoop.iterate (CryptographicHashB.pairUp hash) (length items) (map hash items)
     = [root]) /\
  (forall a b rest,
     CryptographicHashB.pairUp hash (a :: b :: rest)
     = hash (a ++ b) :: CryptographicHashB.pairUp hash rest) /\
  (forall level last, Nat.Even (length level) ->
     CryptographicHashB.pairUp hash (level ++ [last])
     = CryptographicHashB.pairUp hash level ++ [last]).
Proof.
  intros Hne. split_and!.
  - by apply merkleHashB_returns.
  - reflexivity.
  - apply pairUpB_carries_odd_tail.
Qed.

Lemma merkleHashB_three a b c :
  CryptographicHashB.merkleHash hash [a; b; c]
  = inr (hash (hash (hash a ++ hash b) ++ hash c)).
Proof. reflexivity. Qed.

(** C7: on the three items a, b, c the first [CryptographicHash] class pairs
    the hashes of a and b and, the level being odd, hashes the hash of c
    concatenated with itself before pairing the two results: the unpaired
    hash is not carried forward unchanged. *)
Theorem merkleHashA_rehashes_unpaired a b c :
  CryptographicHashA.merkleHash hash [a; b; c]
  = inr (hash (hash (hash a ++ hash b) ++ hash (hash c ++ hash c))).
Proof. reflexivity. Qed.

End MerkleFacts.

(** With a digest that shows its input the two classes are seen to disagree
    on an odd number of items. *)
Lemma merkle_classes_disagree :
  CryptographicHashA.merkleHash Samples.tagHash ["a"; "b"; "c"]
  = inr "H(H(H(a)H(b))H(H(c)H(c)))" /\
  CryptographicHashB.merkleHash Samples.tagHash ["a"; "b"; "c"]
  = inr "H(H(H(a)H(b))H(c))".
Proof. split; reflexivity. Qed.

(** ** Transaction validator *)

Section TransactionValidatorFacts.
Import Errors TransactionValidator.

Variable now : Z.
Variable serializedLength : Transaction -> Error + Z.
Variable sha256_JSON : string -> string -> Z -> Z -> Z -> Z -> string.
Variable ecVerify : string -> string -> string -> Error + bool.

(** Whatever goes wrong in [validateSignature] leaves it as a
    [ValidationError]. *)
Lemma validateSignature_throws_ValidationError tx e :
  validateSignature sha256_JSON ecVerify tx = inl e ->
  exists m, e = ValidationError m.
Proof.
  unfold validateSignature. destruct (andThen _ _); intros [= <-]; eauto.
Qed.

(** The first four checks run in the listed order: required fields, size,
    timestamp, fee. *)
Lemma basics_in_listed_order tx :
  let missing :=
    falsy (id tx) || falsy (from tx) || falsy (to tx) || falsy (signature tx) in
  (missing = true ->
   validateBasics now serializedLength tx
   = inl (ValidationError "Missing required transaction fields")) /\
  (missing = false -> forall e, serializedLength tx = inl e ->
   validateBasics now serializedLength tx = inl e) /\
  (missing = false -> forall size, serializedLength tx = inr size ->
   (maxTxSize < size ->
    validateBasics now serializedLength tx
    = inl (ValidationError "Transaction size exceeds maximum allowed")) /\
   (size <= maxTxSize -> now + 300000 < timestamp tx ->
    validateBasics now serializedLength tx
    = inl (ValidationError "Transaction timestamp too far in future")) /\
   (size <= maxTxSize -> timestamp tx <= now + 300000 -> fee tx < minFee ->
    validateBasics now serializedLength tx
    = inl (ValidationError "Transaction fee below minimum required")) /\
   (size <= maxTxSize -> timestamp tx <= now + 300000 -> minFee <= fee tx ->
    validateBasics now serializedLength tx = inr tt)).
Proof.
  intros missing. unfold validateBasics. fold missing. split_and!.
  - by intros ->.
  - intros -> e ->. reflexivity.
  - intros -> size ->. simpl. split_and!.
    + intros H. by rewrite (proj2 (Z.ltb_lt _ _) H).
    + intros H1 H2. by rewrite (proj2 (Z.ltb_ge _ _) H1), (proj2 (Z.ltb_lt _ _) H2).
    + intros H1 H2 H3.
      by rewrite (proj2 (Z.ltb_ge _ _) H1), (proj2 (Z.ltb_ge _ _) H2),
        (proj2 (Z.ltb_lt _ _) H3).
    + intros H1 H2 H3.
      by rewrite (proj2 (Z.ltb_ge _ _) H1), (proj2 (Z.ltb_ge _ _) H2),
        (proj2 (Z.ltb_ge _ _) H3).
Qed.

Lemma validateAmount_throws_ValidationError tx e :
  validateAmount tx = inl e -> exists m, e = ValidationError m.
Proof. unfold validateAmount. repeat case_match; intros [= <-]; eauto. Qed.

Lemma validateInBlock_throws_ValidationError tx block e :
  validateInBlock tx block = inl e -> exists m, e = ValidationError m.
Proof. unfold validateInBlock. repeat case_match; intros [= <-]; eauto. Qed.

(** C8, as the code has it: [validateTransaction] runs the checks on
    required fields, size, timestamp and fee, then the signature check, then
    the amount and balance check, then the checks against the containing
    block, and stops at the first that fails; so a transaction that passes
    the first four checks and whose signature check fails is reported with
    the signature failure, whatever the amount and balance check would have
    said. *)
Theorem signature_checked_before_amount tx block :
  (forall m, validateBasics now serializedLength tx = inl (ValidationError m) ->
   validateTransaction now serializedLength sha256_JSON ecVerify tx block
   = inl (ValidationError m)) /\
  (validateBasics now serializedLength tx = inr tt ->
   forall e, validateSignature sha256_JSON ecVerify tx = inl e ->
   validateTransaction now serializedLength sha256_JSON ecVerify tx block = inl e) /\
  (validateBasics now serializedLength tx = inr tt ->
   validateSignature sha256_JSON ecVerify tx = inr tt ->
   forall e, validateAmount tx = inl e ->
   validateTransaction now serializedLength sha256_JSON ecVerify tx block = inl e) /\
  (validateBasics now serializedLength tx = inr tt ->
   validateSignature sha256_JSON ecVerify tx = inr tt ->
   validateAmount tx = inr tt ->
   validateTransaction now serializedLength sha256_JSON ecVerify tx block
   = match block with
     | Some b => match validateInBlock tx b with
                 | inl e => inl e
                 | inr _ => inr true
                 end
     | None => inr true
     end).
Proof.
  unfold validateTransaction. split_and!.
  - by intros m ->.
  - intros -> e Hs.
    destruct (validateSignature_throws_ValidationError _ _ Hs) as [m ->]. by rewrite Hs.
  - intros -> -> e Ha.
    destruct (validateAmount_throws_ValidationError _ _ Ha) as [m ->]. by rewrite Ha.
  - intros -> -> ->. simpl. destruct block as [b|]; [|done].
    destruct (validateInBlock tx b) as [e|[]] eqn:Hb; [|done].
    by destruct (validateInBlock_throws_ValidationError _ _ _ Hb) as [m ->].
Qed.

End TransactionValidatorFacts.

Lemma signature_checked_before_amount_witness :
  TransactionValidator.validateTransaction
    0 Samples.txLength Samples.txDigest Samples.rejectSignature Samples.worthless None
  = inl (Errors.ValidationError
           "Signature validation failed: Invalid transaction signature").
Proof.
  destruct (signature_checked_before_amount 0 Samples.txLength Samples.txDigest
              Samples.rejectSignature Samples.worthless None) as (_ & H & _).
  apply H; reflexivity.
Defined.

(** The sample transaction passes the first four checks and fails both the
    amount check and the signature check; what is reported is not the amount
    failure. *)
Lemma amount_failure_not_reported :
  TransactionValidator.validateBasics 0 Samples.txLength Samples.worthless = inr tt /\
  TransactionValidator.validateAmount Samples.worthless
  = inl (Errors.ValidationError "Transaction amount must be positive") /\
  (exists e, TransactionValidator.validateSignature
               Samples.txDigest Samples.rejectSignature Samples.worthless = inl e) /\
  TransactionValidator.validateTransaction
    0 Samples.txLength Samples.txDigest Samples.rejectSignature Samples.worthless None
  <> inl (Errors.ValidationError "Transaction amount must be positive").
Proof.
  split; [reflexivity|]. split; [reflexivity|]. split; [eexists; reflexivity|].
  vm_compute. discriminate.
Qed.

(** ** Block validator *)

Section BlockValidatorFacts.
Import Errors BlockValidator.

Variable difficulty : nat.
Variable maxBlockSize : Z.
Variable now : Z.
Variable serializedLength : Block -> Error + Z.
Variable sha256_JSON :
  JsValue -> JsValue -> JsValue -> JsValue -> JsValue -> Error + string.

Lemma validateBlockHash_mismatch block calculatedHash :
  calculateBlockHash sha256_JSON block = inr calculatedHash ->
  hash block <> JsString calculatedHash ->
  validateBlockHash difficulty sha256_JSON block = inr false.
Proof.
  intros Hc Hne. unfold validateBlockHash. rewrite Hc.
  destruct (hash block) as [| |h|]; try reflexivity.
  destruct (decide (h = calculatedHash)) as [->|Hn]; [congruence|].
  by rewrite bool_decide_eq_false_2.
Qed.

(** The three checks that run before the hash check report for themselves,
    whatever the hash. *)
Lemma earlier_checks_reported_first block previousBlock :
  (validateBlockStructure block = false ->
   validateBlock difficulty maxBlockSize now serializedLength sha256_JSON
     block previousBlock = Invalid "Invalid block structure") /\
  (validateBlockStructure block = true ->
   validateBlockSize maxBlockSize serializedLength block = inr false ->
   validateBlock difficulty maxBlockSize now serializedLength sha256_JSON
     block previousBlock = Invalid "Block exceeds maximum size") /\
  (validateBlockStructure block = true ->
   validateBlockSize maxBlockSize serializedLength block = inr true ->
   validateTimestamp now block previousBlock = false ->
   validateBlock difficulty maxBlockSize now serializedLength sha256_JSON
     block previousBlock = Invalid "Invalid block timestamp").
Proof.
  unfold validateBlock. repeat split.
  - by intros ->.
  - by intros -> ->.
  - by intros -> -> ->.
Qed.

(** C6, as the code has it: a block whose stored hash differs from the
    recomputed one is never accepted; the structure, size and timestamp
    checks run first and a block that fails one of them gets that check's
    error; when they pass the error is "Invalid block hash", whatever the
    previous-hash link and the transactions, which are checked later. *)
Theorem hash_mismatch_rejected block previousBlock calculatedHash :
  calculateBlockHash sha256_JSON block = inr calculatedHash ->
  hash block <> JsString calculatedHash ->
  let result :=
    validateBlock difficulty maxBlockSize now serializedLength sha256_JSON
      block previousBlock in
  isValid result = false /\
  (validateBlockStructure block = false ->
   result = Invalid "Invalid block structure") /\
  (validateBlockStructure block = true ->
   validateBlockSize maxBlockSize serializedLength block = inr false ->
   result = Invalid "Block exceeds maximum size") /\
  (validateBlockStructure block = true ->
   validateBlockSize maxBlockSize serializedLength block = inr true ->
   validateTimestamp now block previousBlock = false ->
   result = Invalid "Invalid block timestamp") /\
  (validateBlockStructure block = true ->
   validateBlockSize maxBlockSize serializedLength block = inr true ->
   validateTimestamp now block previousBlock = true ->
   result = Invalid "Invalid block hash").
Proof.
  intros Hc Hne result.
  pose proof (validateBlockHash_mismatch _ _ Hc Hne) as Hh.
  destruct (earlier_checks_reported_first block previousBlock) as (H1 & H2 & H3).
  split_and!; auto.
  - subst result. unfold validateBlock.
    destruct (validateBlockStructure block); [|reflexivity]. simpl.
    destruct (validateBlockSize _ _ block) as [e|[|]]; try reflexivity.
    destruct (validateTimestamp now block previousBlock); [|reflexivity]. simpl.
    by rewrite Hh.
  - intros E1 E2 E3. subst result. unfold validateBlock. rewrite E1, E2, E3. simpl.
    by rewrite Hh.
Qed.

End BlockValidatorFacts.

Lemma hash_mismatch_rejected_witness :
  BlockValidator.validateBlock 2 1000000 1000 Samples.blockLength Samples.blockHashOf
    (Samples.stamped 500) None
  = BlockValidator.Invalid "Invalid block hash".
Proof.
  destruct (hash_mismatch_rejected 2 1000000 1000 Samples.blockLength
              Samples.blockHashOf (Samples.stamped 500) None "00ab")
    as (_ & _ & _ & _ & H); [reflexivity|discriminate|].
  apply H; reflexivity.
Defined.

(** A block stamped far in the future whose stored hash differs from the
    recomputed one is turned down for its timestamp, not for its hash. *)
Lemma hash_mismatch_other_error :
  BlockValidator.calculateBlockHash Samples.blockHashOf (Samples.stamped 999999999)
  = inr "00ab" /\
  BlockValidator.hash (Samples.stamped 999999999) <> BlockValidator.JsString "00ab" /\
  BlockValidator.validateBlock 2 1000000 1000 Samples.blockLength Samples.blockHashOf
    (Samples.stamped 999999999) None
  = BlockValidator.Invalid "Invalid block timestamp" /\
  BlockValidator.validateBlock 2 1000000 1000 Samples.blockLength Samples.blockHashOf
    (Samples.stamped 999999999) None
  <> BlockValidator.Invalid "Invalid block hash".
Proof. repeat split; try reflexivity; discriminate. Qed.

(** ** The event-emitting pool *)

Section TransactionPoolFacts.
Import Errors TransactionPool.

Variable SHA256_JSON : string -> string -> Z -> Z -> string.
Variable verifyTransaction : Transaction -> Error + bool.
Variable getAddressBalance : string -> Error + Z.
Variable getTransactionSize : Transaction -> Z.

Lemma validateTransaction_pure tx s :
  (validateTransaction verifyTransaction getAddressBalance getTransactionSize tx s).2 = s.
Proof.
  unfold validateTransaction, Eff.bind, Eff.throw, Eff.ret, lift.
  repeat (case_match; simpl; try reflexivity); simplify_eq; simpl; auto.
Qed.

(** The three ways through [addTransaction]: the key is present; validation
    throws, and the error is handed to the ['error'] listener, or thrown when
    there is none; the transaction is stored, after a sweep when the pool was
    at its maximum. *)
Lemma addTransaction_cases now tx s :
  let add := addTransaction SHA256_JSON verifyTransaction getAddressBalance
                            getTransactionSize in
  let validate := validateTransaction verifyTransaction getAddressBalance
                                      getTransactionSize in
  let key := getTransactionHash SHA256_JSON tx in
  (JsMap.has key (transactions s) = true /\ add now tx s = (inr false, s)) \/
  (JsMap.has key (transactions s) = false /\
   exists e, validate tx s = (inl e, s) /\
     add now tx s =
       if errorListener s
       then (inr false,
             mkState (transactions s) (maxSize s) (emitted s ++ [EvError e]) true)
       else (inl e, s)) \/
  (JsMap.has key (transactions s) = false /\
   validate tx s = (inr tt, s) /\
   exists kept,
     kept = (if maxSize s <=? getPoolSize s
             then filter (fun e => ¬ (MAX_AGE_MS < now - timestamp (fields e.2)))
                         (transactions s)
             else transactions s) /\
     add now tx s =
       (inr true,
        mkState (JsMap.set key (mkPoolTransaction (with_timestamp now tx) []) kept)
                (maxSize s) (emitted s ++ [EvTransaction tx]) (errorListener s))).
Proof.
  intros add validate key. subst add validate key.
  pose proof (validateTransaction_pure tx s) as Hp.
  unfold addTransaction, Eff.catch, Eff.bind, Eff.gets.
  destruct (JsMap.has _ _) eqn:Hhas; simpl.
  { left. auto. }
  right. destruct (validateTransaction _ _ _ tx s) as [[e|[]] s1] eqn:Hv;
    simpl in Hp; subst s1.
  - left. split; auto. exists e. split; auto.
    unfold emit. destruct (errorListener s) eqn:Hl; simpl; reflexivity.
  - right. split; auto. split; auto. eexists. split; [reflexivity|].
    destruct (maxSize s <=? getPoolSize s); reflexivity.
Qed.

(** C10: the key of a pool entry is the digest of [fromAddress],
    [toAddress], [amount] and [timestamp] alone; once a transaction has been
    admitted, [addTransaction] on any transaction that agrees with it on
    these four fields, whatever its id, fee or signature, returns false
    and leaves the pool as it is. *)
Theorem duplicate_key_rejected now1 now2 t1 t2 s s' :
  addTransaction SHA256_JSON verifyTransaction getAddressBalance getTransactionSize
    now1 t1 s = (inr true, s') ->
  fromAddress t2 = fromAddress t1 -> toAddress t2 = toAddress t1 ->
  amount t2 = amount t1 -> timestamp t2 = timestamp t1 ->
  addTransaction SHA256_JSON verifyTransaction getAddressBalance getTransactionSize
    now2 t2 s' = (inr false, s').
Proof.
  intros Hadd Hf Ht Ha Hts.
  assert (getTransactionHash SHA256_JSON t2 = getTransactionHash SHA256_JSON t1) as Hk.
  { unfold getTransactionHash. by rewrite Hf, Ht, Ha, Hts. }
  destruct (addTransaction_cases now1 t1 s)
    as [[_ H]|[(_ & e & _ & H)|(_ & _ & kept & _ & H)]];
    rewrite H in Hadd;
    [simplify_eq | destruct (errorListener s); simplify_eq | simplify_eq].
  match goal with |- _ _ _ _ _ _ _ ?st = _ => set (s1 := st) end.
  destruct (addTransaction_cases now2 t2 s1) as [[_ H']|[(Hh & _)|(Hh & _)]]; auto;
    subst s1; simpl in Hh; rewrite Hk, JsMap_has_set in Hh; discriminate.
Qed.

(** An admission that is turned down has not touched the entries. *)
Lemma rejected_admission_keeps_pool now tx s s' :
  addTransaction SHA256_JSON verifyTransaction getAddressBalance getTransactionSize
    now tx s = (inr false, s') ->
  transactions s' = transactions s.
Proof.
  intros Hadd.
  destruct (addTransaction_cases now tx s)
    as [[_ H]|[(_ & e & _ & H)|(_ & _ & kept & _ & H)]];
    rewrite H in Hadd; try destruct (errorListener s); simplify_eq; reflexivity.
Qed.

(** Nor has one that throws: with no ['error'] listener registered, as right
    after construction, the error of a failed validation is thrown by
    [emit], and [addTransaction] throws it, leaving the pool as it was. *)
Lemma unheard_rejection_is_thrown now tx s e :
  errorListener s = false ->
  JsMap.has (getTransactionHash SHA256_JSON tx) (transactions s) = false ->
  validateTransaction verifyTransaction getAddressBalance getTransactionSize tx s
  = (inl e, s) ->
  addTransaction SHA256_JSON verifyTransaction getAddressBalance getTransactionSize
    now tx s = (inl e, s).
Proof.
  intros Hl Hnew Hv.
  destruct (addTransaction_cases now tx s)
    as [[H _]|[(_ & e' & Hv' & H)|(_ & Hv' & _)]]; [congruence| |congruence].
  rewrite Hl in H. congruence.
Qed.

Lemma addTransaction_throws_unchanged now tx s e s' :
  addTransaction SHA256_JSON verifyTransaction getAddressBalance getTransactionSize
    now tx s = (inl e, s') ->
  s' = s /\ errorListener s = false.
Proof.
  intros Hadd.
  destruct (addTransaction_cases now tx s)
    as [[_ H]|[(_ & e' & _ & H)|(_ & _ & kept & _ & H)]];
    rewrite H in Hadd; try destruct (errorListener s); simplify_eq; auto.
Qed.

(** A pool at its maximum whose entries are all young takes one more. *)
Lemma full_pool_grows now tx s :
  JsMap.has (getTransactionHash SHA256_JSON tx) (transactions s) = false ->
  validateTransaction verifyTransaction getAddressBalance getTransactionSize tx s
  = (inr tt, s) ->
  maxSize s <= getPoolSize s ->
  Forall (fun e => now - timestamp (fields e.2) <= MAX_AGE_MS) (transactions s) ->
  exists s',
    addTransaction SHA256_JSON verifyTransaction getAddressBalance getTransactionSize
      now tx s = (inr true, s') /\
    getPoolSize s' = getPoolSize s + 1 /\ maxSize s' = maxSize s.
Proof.
  intros Hnew Hvalid Hfull Hyoung.
  destruct (addTransaction_cases now tx s)
    as [[H _]|[(_ & e & H & _)|(_ & _ & kept & Hkept & H)]]; [congruence..|].
  rewrite (proj2 (Z.leb_le _ _) Hfull) in Hkept.
  assert (kept = transactions s) as ->.
  { subst kept. clear -Hyoung. unfold JsMap.t in *.
    induction (transactions s) as [|e l IH]; [done|].
    apply Forall_cons in Hyoung as [He Hl].
    rewrite filter_cons_True by lia. f_equal. by apply IH. }
  eexists. split; [exact H|]. split; [|done].
  unfold getPoolSize. simpl. by apply JsMap_size_set_new.
Qed.

(** With an ['error'] listener registered [addTransaction] does not
    throw. *)
Lemma addTransaction_returns now tx s :
  errorListener s = true ->
  exists admitted s',
    addTransaction SHA256_JSON verifyTransaction getAddressBalance getTransactionSize
      now tx s = (inr admitted, s').
Proof.
  intros Hl.
  destruct (addTransaction_cases now tx s)
    as [[_ H]|[(_ & e & _ & H)|(_ & _ & kept & _ & H)]]; rewrite H, ?Hl; eauto.
Qed.

End TransactionPoolFacts.

Lemma duplicate_key_rejected_witness :
  Samples.poolAdd 6000 Samples.toBobAgain Samples.roomy = (inr false, Samples.roomy).
Proof.
  apply (duplicate_key_rejected Samples.poolDigest Samples.poolVerify Samples.poolBalance
           Samples.poolSize 1000 6000 Samples.toBob Samples.toBobAgain
           (TransactionPool.new 5000)); reflexivity.
Defined.

(** C5, at a pool of maximum size one that holds one entry five seconds old:
    adding a second, valid transaction sweeps nothing out, returns true and
    leaves two entries in the pool. *)
Theorem pool_exceeds_maxSize :
  TransactionPool.getPoolSize Samples.full = 1 /\
  TransactionPool.maxSize Samples.full = 1 /\
  (Samples.poolAdd 6000 Samples.toCarol Samples.full).1 = inr true /\
  TransactionPool.getPoolSize (Samples.poolAdd 6000 Samples.toCarol Samples.full).2 = 2 /\
  TransactionPool.maxSize (Samples.poolAdd 6000 Samples.toCarol Samples.full).2 = 1.
Proof. repeat split. Qed.

(** ** The balance-checking pool *)

Section BalancePoolFacts.
Import Errors BalancePool.

Variable isValid : Transaction -> bool.
Variable hashSerialized : Transaction -> string.
Variable getSenderBalance : string -> Error + Z.

Lemma fold_pending address txs acc :
  fold_left (fun total tx =>
               if decide (from tx = address) then total + amount tx else total) txs acc
  = acc + total (map amount (filter (fun tx => from tx = address) txs)).
Proof.
  revert acc. induction txs as [|tx txs IH]; intros acc; simpl; [lia|].
  rewrite IH. destruct (decide (from tx = address)) as [Heq|Hne].
  - rewrite filter_cons_True by done. simpl. lia.
  - by rewrite filter_cons_False.
Qed.

Lemma getPendingAmount_total address s :
  getPendingAmount address s = (inr (total (pendingAmounts address s)), s).
Proof. unfold getPendingAmount, Eff.gets, pendingAmounts. by rewrite fold_pending. Qed.

(** With the balance lookup the sources ship, the check can only throw. *)
Lemma stub_always_throws tx s :
  validateTransactionBalance getSenderBalance_stub tx s
  = (inl (PlainError "Transaction validation failed: Not implemented"), s).
Proof. reflexivity. Qed.



End BalancePoolFacts.


(** ** Consensus engine *)

Section ConsensusEngineFacts.
Import Errors ConsensusEngine.
Variable SHA256_JSON : Hash -> Z -> list string -> Z -> Hash.
Variable cryptoValidateBlock : Block -> Error + bool.
Variable verifySignature : Hash -> Signature -> PublicKey -> Error + bool.

Local Abbreviation calculateBlockHash := (calculateBlockHash SHA256_JSON).
Local Abbreviation proposeBlock := (proposeBlock SHA256_JSON cryptoValidateBlock).
Local Abbreviation validateBlock := (validateBlock verifySignature).
Local Abbreviation reachable := (reachable SHA256_JSON cryptoValidateBlock verifySignature).
Local Abbreviation consistent := (consistent SHA256_JSON).

Lemma consistent_new vs q s : new vs q = inr s -> consistent s.
Proof.
  unfold new. case_match; intros [= <-].
  split; simpl; auto; try constructor; discriminate.
Qed.

Lemma get_agree s h :
  consistent s -> JsMap.get h (pendingBlocks s) = None <-> JsMap.get h (validations s) = None.
Proof. intros C. rewrite !JsMap_get_None, (keys_agree _ _ C). tauto. Qed.

Lemma consistent_propose s block : consistent s -> consistent (proposeBlock block s).2.
Proof.
  intros C. unfold ConsensusEngine.proposeBlock, Eff.catch, Eff.bind, Eff.gets, Eff.throw,
    Eff.ret, Eff.modify, lift, JsMap.has.
  destruct (JsMap.get _ (pendingBlocks s)) eqn:Hget; simpl; auto.
  destruct (cryptoValidateBlock block) as [e|[|]]; simpl; auto.
  pose proof (proj1 (get_agree s _ C) Hget) as Hget'.
  split; simpl.
  - rewrite !JsMap_keys_set_new; auto. by rewrite (keys_agree _ _ C).
  - rewrite JsMap_keys_set_new; auto. apply NoDup_app. repeat split.
    + apply C.
    + intros x Hx Hx'. apply list_elem_of_singleton in Hx'. subst.
      apply JsMap_get_None in Hget. contradiction.
    + apply NoDup_singleton.
  - intros h b. destruct (decide (calculateBlockHash block = h)) as [<-|Hne].
    + rewrite JsMap_get_set_eq. congruence.
    + rewrite JsMap_get_set_ne; auto. apply C.
  - intros h vs. destruct (decide (calculateBlockHash block = h)) as [<-|Hne].
    + rewrite JsMap_get_set_eq. intros [= <-]. split; [constructor|].
      intros k Hk. by apply elem_of_nil in Hk.
    + rewrite JsMap_get_set_ne; auto. apply C.
Qed.

Lemma consistent_validate s h k sig : consistent s -> consistent (validateBlock h k sig s).2.
Proof.
  intros C. unfold ConsensusEngine.validateBlock, Eff.catch, Eff.bind, Eff.gets, Eff.throw,
    Eff.ret, Eff.modify, lift.
  destruct (JsSet.has k (validators s)) eqn:Hk; simpl; auto.
  destruct (JsMap.get h (pendingBlocks s)) eqn:Hb; simpl; auto.
  destruct (verifySignature h sig k) as [e|[|]]; simpl; auto.
  destruct (JsMap.get h (validations s)) as [vs|] eqn:Hvs; simpl; auto.
  split; simpl.
  - rewrite JsMap_keys_set_old; [apply C | by rewrite Hvs].
  - apply C.
  - apply C.
  - intros h' vs'. destruct (decide (h = h')) as [<-|Hne].
    + rewrite JsMap_get_set_eq. intros [= <-].
      destruct (attested_by_validators _ _ C _ _ Hvs) as [Hnd Hsub]. split.
      * by apply JsSet_NoDup_add.
      * intros k' Hk'. apply JsSet_elem_add in Hk' as [->|Hk']; auto.
        unfold JsSet.has in Hk. by apply bool_decide_eq_true in Hk.
    + rewrite JsMap_get_set_ne; auto. apply C.
Qed.

Lemma consistent_finalizeEntry entry out s :
  consistent s -> consistent (finalizeEntry entry (out, s)).2.
Proof.
  intros C. unfold finalizeEntry.
  destruct (requiredValidations s <=? JsSet.size entry.2); auto.
  destruct (JsMap.get entry.1 (pendingBlocks s)) as [blk|] eqn:Hg; auto. simpl.
  split; simpl.
  - rewrite !JsMap_keys_delete. by rewrite (keys_agree _ _ C).
  - rewrite JsMap_keys_delete. apply NoDup_filter, C.
  - intros h b. destruct (decide (entry.1 = h)) as [<-|Hne].
    + by rewrite JsMap_get_delete_eq.
    + rewrite JsMap_get_delete_ne; auto. apply C.
  - intros h vs. destruct (decide (entry.1 = h)) as [<-|Hne].
    + by rewrite JsMap_get_delete_eq.
    + rewrite JsMap_get_delete_ne; auto. apply C.
Qed.

Lemma consistent_fold entries acc :
  consistent acc.2 ->
  consistent (fold_left (fun acc entry => finalizeEntry entry acc) entries acc).2.
Proof.
  revert acc. induction entries as [|e entries IH]; intros [out s] C; simpl; auto.
  apply IH. by apply consistent_finalizeEntry.
Qed.

Lemma consistent_finalized s : consistent s -> consistent (getFinalizedBlocks s).2.
Proof.
  intros C. unfold getFinalizedBlocks.
  pose proof (consistent_fold (validations s) ([], s) C) as H.
  destruct (fold_left _ _ _) as [out s']. exact H.
Qed.

Lemma reachable_consistent s : reachable s -> consistent s.
Proof.
  induction 1.
  - by eapply consistent_new.
  - by apply consistent_propose.
  - by apply consistent_validate.
  - by apply consistent_finalized.
  - split; simpl; auto; try constructor; discriminate.
Qed.

Lemma fold_finalize_spec entries : forall out s,
  NoDup (JsMap.keys entries) ->
  exists out2 s',
    fold_left (fun acc entry => finalizeEntry entry acc) entries (out, s) = (out ++ out2, s') /\
    requiredValidations s' = requiredValidations s /\
    validators s' = validators s /\
    (forall b, b ∈ out2 <->
       exists h vs, (h, vs) ∈ entries /\ requiredValidations s <= JsSet.size vs /\
                    JsMap.get h (pendingBlocks s) = Some b) /\
    (forall h, (due s entries h -> JsMap.get h (pendingBlocks s') = None) /\
               (~ due s entries h ->
                JsMap.get h (pendingBlocks s') = JsMap.get h (pendingBlocks s))).
Proof.
  induction entries as [|[h0 vs0] rest IH]; intros out s Hnd.
  - exists [], s. simpl. rewrite app_nil_r. repeat split; auto.
    + intros Hb. by apply elem_of_nil in Hb.
    + intros (h & vs & Hin & _). by apply elem_of_nil in Hin.
    + intros (vs & Hin & _). by apply elem_of_nil in Hin.
  - simpl in Hnd. apply NoDup_cons in Hnd as [Hfresh Hnd].
    assert (forall h vs, (h, vs) ∈ rest -> h <> h0) as Hother.
    { intros h vs Hin ->. apply Hfresh. apply (list_elem_of_fmap_2 fst) in Hin. exact Hin. }
    cbn [fold_left].
    destruct (requiredValidations s <=? JsSet.size vs0) eqn:Hq;
      [destruct (JsMap.get h0 (pendingBlocks s)) as [b0|] eqn:Hb0|];
    (match goal with
     | |- context [fold_left ?f rest (finalizeEntry ?e ?a)] =>
         let step := eval cbn in (finalizeEntry e a) in
         change (finalizeEntry e a) with step
     end);
    rewrite Hq; try rewrite Hb0;
    [apply Z.leb_le in Hq | apply Z.leb_le in Hq | apply Z.leb_gt in Hq].
    + destruct (IH (out ++ [b0])
                  (with_pending (JsMap.delete h0 (pendingBlocks s))
                                (JsMap.delete h0 (validations s)) s) Hnd)
        as (out2 & s' & Hfold & HQ & HV & Hmem & Hkey).
      simpl in *. exists (b0 :: out2), s'. rewrite Hfold, <- app_assoc. simpl.
      repeat split; auto.
      * intros Hb. apply elem_of_cons in Hb as [->|Hb].
        -- exists h0, vs0. split; [apply list_elem_of_here|]. auto.
        -- apply Hmem in Hb as (h & vs & Hin & Hle & Hget).
           rewrite JsMap_get_delete_ne in Hget by (symmetry; eauto).
           exists h, vs. split; [by apply list_elem_of_further|]. auto.
      * intros (h & vs & Hin & Hle & Hget). apply elem_of_cons in Hin as [[= -> ->]|Hin].
        -- rewrite Hb0 in Hget. injection Hget as ->. apply list_elem_of_here.
        -- apply list_elem_of_further, Hmem. exists h, vs. split; auto. split; auto.
           rewrite JsMap_get_delete_ne by (symmetry; eauto). auto.
      * intros Hdue. destruct (decide (h = h0)) as [->|Hne].
        -- destruct (Hkey h0) as [_ Hk]. rewrite Hk; [apply JsMap_get_delete_eq|].
           intros (vs & Hin & _). by eapply Hother.
        -- destruct (Hkey h) as [Hk _]. apply Hk.
           destruct Hdue as (vs & Hin & Hle & Hsome).
           apply elem_of_cons in Hin as [[= -> ->]|Hin]; [done|].
           exists vs. simpl. rewrite JsMap_get_delete_ne; auto.
      * intros Hndue. destruct (decide (h = h0)) as [->|Hne].
        -- exfalso. apply Hndue. exists vs0. split; [apply list_elem_of_here|].
           split; [lia | by rewrite Hb0].
        -- destruct (Hkey h) as [_ Hk]. rewrite Hk, JsMap_get_delete_ne; auto.
           intros (vs & Hin & Hle & Hsome). apply Hndue. exists vs.
           split; [by apply list_elem_of_further|]. split; auto.
           simpl in Hsome. by rewrite JsMap_get_delete_ne in Hsome.
    + destruct (IH out s Hnd) as (out2 & s' & Hfold & HQ & HV & Hmem & Hkey).
      exists out2, s'. rewrite Hfold. repeat split; auto.
      * intros Hb. apply Hmem in Hb as (h & vs & Hin & Hle & Hget).
        exists h, vs. split; [by apply list_elem_of_further|]. auto.
      * intros (h & vs & Hin & Hle & Hget). apply Hmem.
        apply elem_of_cons in Hin as [[= -> ->]|Hin]; [congruence|]. eauto.
      * intros (vs & Hin & Hle & Hsome). apply Hkey.
        apply elem_of_cons in Hin as [[= -> ->]|Hin].
        -- rewrite Hb0 in Hsome. by destruct Hsome.
        -- exists vs. auto.
      * intros Hndue. apply Hkey. intros (vs & Hin & Hle & Hsome). apply Hndue.
        exists vs. split; [by apply list_elem_of_further|]. auto.
    + destruct (IH out s Hnd) as (out2 & s' & Hfold & HQ & HV & Hmem & Hkey).
      exists out2, s'. rewrite Hfold. repeat split; auto.
      * intros Hb. apply Hmem in Hb as (h & vs & Hin & Hle & Hget).
        exists h, vs. split; [by apply list_elem_of_further|]. auto.
      * intros (h & vs & Hin & Hle & Hget). apply Hmem.
        apply elem_of_cons in Hin as [[= -> ->]|Hin]; [lia|]. eauto.
      * intros (vs & Hin & Hle & Hsome). apply Hkey.
        apply elem_of_cons in Hin as [[= -> ->]|Hin]; [lia|].
        exists vs. auto.
      * intros Hndue. apply Hkey. intros (vs & Hin & Hle & Hsome). apply Hndue.
        exists vs. split; [by apply list_elem_of_further|]. auto.
Qed.

(** C4: in every reachable state of the engine every member of every
    attestation set is a configured validator, and [getFinalizedBlocks]
    returns a pending block, and removes it from the pending set, if and only
    if its attestation set has at least [requiredValidations] members; any
    other pending block stays pending. *)
Theorem finalized_iff_quorum s :
  reachable s ->
  (forall h vs k, JsMap.get h (validations s) = Some vs -> k ∈ vs -> k ∈ validators s) /\
  (forall h b, JsMap.get h (pendingBlocks s) = Some b ->
     let quorum := exists vs, JsMap.get h (validations s) = Some vs /\
                              requiredValidations s <= JsSet.size vs in
     match getFinalizedBlocks s with
     | (inr finalizedBlocks, s') =>
         (b ∈ finalizedBlocks <-> quorum) /\
         (JsMap.get h (pendingBlocks s') = None <-> quorum) /\
         (JsMap.get h (pendingBlocks s') = Some b <-> ~ quorum)
     | (inl _, _) => False
     end).
Proof.
  intros Hr. pose proof (reachable_consistent s Hr) as C. split.
  { intros h vs k Hget Hk. by apply (attested_by_validators _ _ C h vs). }
  intros h b Hb quorum. unfold getFinalizedBlocks.
  assert (NoDup (JsMap.keys (validations s))) as Hnd.
  { rewrite <- (keys_agree _ _ C). apply C. }
  destruct (fold_finalize_spec (validations s) [] s Hnd)
    as (out2 & s' & Hfold & HQ & HV & Hmem & Hkey).
  rewrite Hfold. simpl.
  assert (due s (validations s) h <-> quorum) as Hdue.
  { unfold due, quorum. rewrite Hb. split.
    - intros (vs & Hin & Hle & _). exists vs. split; auto. by apply JsMap_elem_get.
    - intros (vs & Hget & Hle). exists vs. split; [by apply JsMap_get_elem|]. split; auto. }
  assert (b ∈ out2 <-> quorum) as Hin.
  { rewrite Hmem. unfold quorum. split.
    - intros (h' & vs & Hin & Hle & Hget).
      pose proof (keyed_by_hash _ _ C _ _ Hget) as ->.
      pose proof (keyed_by_hash _ _ C _ _ Hb) as ->.
      exists vs. split; auto. by apply JsMap_elem_get.
    - intros (vs & Hget & Hle). exists h, vs. split; [by apply JsMap_get_elem|]. auto. }
  destruct (Hkey h) as [Hk1 Hk2]. rewrite <- Hdue in *.
  assert (due s (validations s) h \/ ~ due s (validations s) h) as [Hd|Hd].
  { unfold due. rewrite Hb.
    destruct (JsMap.get h (validations s)) as [vs|] eqn:Hvs.
    - destruct (decide (requiredValidations s <= JsSet.size vs)).
      + left. exists vs. split; [by apply JsMap_get_elem|]. split; auto.
      + right. intros (vs' & Hin' & Hle & _). apply JsMap_elem_get in Hin'; auto.
        rewrite Hvs in Hin'. injection Hin' as ->. contradiction.
    - right. intros (vs' & Hin' & _). apply JsMap_elem_get in Hin'; auto. congruence. }
  - rewrite (Hk1 Hd). repeat split; auto; try tauto. discriminate.
  - rewrite (Hk2 Hd), Hb. repeat split; auto; try tauto. discriminate.
Qed.
End ConsensusEngineFacts.

Lemma finalized_iff_quorum_witness :
  match ConsensusEngine.getFinalizedBlocks Samples.attested with
  | (inr finalizedBlocks, s') =>
      Samples.blockX ∈ finalizedBlocks /\
      JsMap.get "genesis/t1" (ConsensusEngine.pendingBlocks s') = None
  | (inl _, _) => False
  end.
Proof.
  assert (ConsensusEngine.reachable Samples.blockDigest Samples.acceptBlock
            Samples.acceptSignature Samples.attested) as Hr.
  { unfold Samples.attested.
    apply ConsensusEngine.reach_validate, ConsensusEngine.reach_validate,
      ConsensusEngine.reach_propose.
    apply (ConsensusEngine.reach_new _ _ _ ["A"; "B"; "C"] 2). reflexivity. }
  pose proof (finalized_iff_quorum Samples.blockDigest Samples.acceptBlock
                Samples.acceptSignature Samples.attested Hr) as [_ H].
  specialize (H "genesis/t1" Samples.blockX eq_refl). cbv zeta in H.
  destruct (ConsensusEngine.getFinalizedBlocks Samples.attested) as [[e|fin] s'];
    [done|].
  destruct H as (Hin & Hgone & _).
  assert (exists vs, JsMap.get "genesis/t1" (ConsensusEngine.validations Samples.attested)
                     = Some vs /\
                     ConsensusEngine.requiredValidations Samples.attested <= JsSet.size vs)
    as Hq.
  { exists ["A"; "B"]. split; [reflexivity|]. vm_compute. discriminate. }
  split; [by apply Hin | by apply Hgone].
Defined.

(** ** State manager *)

Section StateManagerFacts.
Import Errors StateManager.

Lemma same_blocks_refl s : same_blocks s s.
Proof. by repeat split. Qed.
Lemma same_blocks_trans s1 s2 s3 : same_blocks s1 s2 -> same_blocks s2 s3 -> same_blocks s1 s3.
Proof. unfold same_blocks. intros (?&?&?&?) (?&?&?&?). repeat split; congruence. Qed.


Lemma keeps_ret {A} (a : A) : keeps_blocks (Eff.ret a).
Proof. apply frames_ret, same_blocks_refl. Qed.
Lemma keeps_throw {A} e : keeps_blocks (@Eff.throw _ A e).
Proof. apply frames_throw, same_blocks_refl. Qed.
Lemma keeps_bind {A B} (m : M A) (k : A -> M B) :
  keeps_blocks m -> (forall a, keeps_blocks (k a)) -> keeps_blocks (Eff.bind m k).
Proof. apply frames_bind, same_blocks_trans. Qed.
Lemma keeps_catch {A} (m : M A) h :
  keeps_blocks m -> (forall e, keeps_blocks (h e)) -> keeps_blocks (Eff.catch m h).
Proof. apply frames_catch, same_blocks_trans. Qed.
Lemma keeps_for_of {A} (l : list A) body :
  (forall x, keeps_blocks (body x)) -> keeps_blocks (Eff.for_of l body).
Proof. apply frames_for_of; [apply same_blocks_refl | apply same_blocks_trans]. Qed.
Lemma keeps_modify f : (forall s, same_blocks s (f s)) -> keeps_blocks (Eff.modify f).
Proof. apply frames_modify. Qed.

Lemma newAccount_blocks a : keeps_blocks (newAccount a).
Proof. intros s. by repeat split. Qed.
Lemma readAccount_blocks r : keeps_blocks (readAccount r).
Proof. intros s. unfold readAccount. destruct (_ !! _); by repeat split. Qed.
Lemma assignAccount_blocks r f : keeps_blocks (assignAccount r f).
Proof.
  apply keeps_bind; [apply readAccount_blocks|].
  intros a. apply keeps_modify. intros s. by repeat split.
Qed.
Lemma getAccount_blocks a : keeps_blocks (getAccount a).
Proof.
  apply keeps_catch; [|intros e; apply keeps_throw].
  intros s. destruct (LRUCache.get a (stateCache s)) as [[r|] c]; simpl.
  - by repeat split.
  - destruct (dbAccounts s !! a); by repeat split.
Qed.
Lemma validateAccount_blocks a : keeps_blocks (validateAccount a).
Proof. unfold validateAccount. case_match; [apply keeps_throw|apply keeps_ret]. Qed.
Lemma updateAccount_blocks a r : keeps_blocks (updateAccount a r).
Proof.
  apply keeps_catch; [|intros e; apply keeps_throw].
  apply keeps_bind; [apply readAccount_blocks|intros acc].
  apply keeps_bind; [apply validateAccount_blocks|intros _].
  apply keeps_bind; [|intros _]; apply keeps_modify; intros s; by repeat split.
Qed.

Lemma applyTransaction_blocks tx : keeps_blocks (applyTransaction tx).
Proof.
  apply keeps_catch; [|intros e; apply keeps_throw].
  apply keeps_bind; [apply getAccount_blocks|intros sender].
  apply keeps_bind; [apply getAccount_blocks|intros recipient].
  apply keeps_bind; [apply readAccount_blocks|intros s0].
  case_match; [apply keeps_throw|].
  repeat (apply keeps_bind; [apply assignAccount_blocks|intros _]).
  apply keeps_bind; [apply updateAccount_blocks|intros _]. apply updateAccount_blocks.
Qed.

Lemma revertTransaction_blocks tx : keeps_blocks (revertTransaction tx).
Proof.
  apply keeps_bind; [apply getAccount_blocks|intros sender].
  apply keeps_bind; [apply getAccount_blocks|intros recipient].
  repeat (apply keeps_bind; [apply assignAccount_blocks|intros _]).
  apply keeps_bind; [apply updateAccount_blocks|intros _]. apply updateAccount_blocks.
Qed.

Lemma cache_reads_kept_refl s : cache_reads_kept s s.
Proof. by intros h blk. Qed.
Lemma cache_reads_kept_trans s1 s2 s3 :
  cache_reads_kept s1 s2 -> cache_reads_kept s2 s3 -> cache_reads_kept s1 s3.
Proof. intros H1 H2 h blk H. by apply H2, H1. Qed.

Lemma same_blocks_reads_kept s s' : same_blocks s s' -> cache_reads_kept s s'.
Proof. intros (Hc & _ & Ho & _) h blk. unfold cachedBlock. by rewrite Hc, Ho. Qed.

Lemma getBlock_reads_kept h : Eff.frames cache_reads_kept (getBlock h).
Proof.
  intros s k blk. unfold getBlock, cachedBlock.
  pose proof (peek_get h k (blockCache s)) as Hpeek.
  destruct (LRUCache.get h (blockCache s)) as [[r|] c]; simpl in *.
  - by rewrite Hpeek.
  - destruct (dbBlocks s !! h); simpl; rewrite Hpeek; auto.
    destruct (LRUCache.peek k (blockCache s)) as [r|]; simpl; auto.
    intros Hr. by apply lookup_app_l_Some.
Qed.

Lemma getBlock_cached h r s :
  LRUCache.peek h (blockCache s) = Some r ->
  exists s1, getBlock h s = (inr (Some r), s1) /\
             blockObjects s1 = blockObjects s /\
             LRUCache.peek h (blockCache s1) = Some r.
Proof.
  intros Hp. unfold getBlock.
  pose proof (peek_get h h (blockCache s)) as Hpeek.
  pose proof (get_result h (blockCache s)) as Hres.
  destruct (LRUCache.get h (blockCache s)) as [o c]; simpl in *.
  rewrite Hp in Hres. subst o. eexists. split; [reflexivity|]. simpl.
  split; auto. by rewrite Hpeek.
Qed.

(** C9: [revertBlock] reverses, in place, the transactions of the block
    object that the cache holds under the hash: whether the revert goes
    through or throws, a later read of the cache under that hash finds the
    same block with its transactions in reverse order and its other fields
    as they were. *)
Theorem revertBlock_reverses_cached_block h r b s :
  LRUCache.peek h (blockCache s) = Some r ->
  blockObjects s !! r = Some b ->
  cachedBlock (revertBlock h s).2 h
    = Some (mkBlock (hash b) (parentHash b) (rev (transactions b))).
Proof.
  intros Hp Hb.
  destruct (getBlock_cached h r s Hp) as (s1 & Hget & Ho1 & Hp1).
  set (b' := mkBlock (hash b) (parentHash b) (rev (transactions b))).
  set (s2 := with_blockObjects (<[r := b']> (blockObjects s1)) s1).
  assert (cachedBlock s2 h = Some b') as Hc2.
  { unfold cachedBlock, s2. simpl. rewrite Hp1. simpl.
    apply list_lookup_insert_eq. rewrite Ho1. by eapply lookup_lt_Some. }
  assert (Eff.frames cache_reads_kept
            (Eff.for_of (rev (transactions b)) revertTransaction ;;;
             blk <- readBlock (Some r) ;;
             parent <- getBlock (parentHash blk) ;;
             Eff.modify (with_currentBlock parent))) as Hrest.
  { apply frames_bind; [apply cache_reads_kept_trans| |intros _].
    { intros s0. apply same_blocks_reads_kept.
      apply (keeps_for_of _ _ revertTransaction_blocks). }
    apply frames_bind; [apply cache_reads_kept_trans| |intros blk].
    { intros s0. unfold readBlock. case_match; apply cache_reads_kept_refl. }
    apply frames_bind; [apply cache_reads_kept_trans|apply getBlock_reads_kept|intros parent].
    apply frames_modify. intros s0 k blk0. auto. }
  specialize (Hrest s2 h b' Hc2).
  assert (reverseTransactions (Some r) s1 = (inr (rev (transactions b)), s2)) as Hrev.
  { unfold reverseTransactions, Eff.bind, readBlock. simpl. by rewrite Ho1, Hb. }
  unfold revertBlock. rewrite catch_rethrow_state.
  rewrite (bind_returns _ _ _ _ _ Hget), (bind_returns _ _ _ _ _ Hrev).
  exact Hrest.
Qed.
Ltac simpl_state :=
  cbn [stateCache blockCache dbAccounts dbBlocks accountObjects blockObjects currentBlock
       with_stateCache with_blockCache with_dbAccounts with_dbBlocks with_accountObjects
       with_blockObjects with_currentBlock fst snd] in *.

Lemma stored_valid s a : sound s -> valid (stored s a).
Proof.
  intros Hs. unfold stored. destruct (dbAccounts s !! a) eqn:E; simpl.
  - by eapply accounts_valid.
  - split; simpl; lia.
Qed.

Lemma viewAccount_stored s a : coherent s -> viewAccount s a = stored s a.
Proof.
  intros Hc. unfold viewAccount.
  destruct (LRUCache.peek a (stateCache s)) as [r|] eqn:Hp; simpl.
  - destruct (Hc a r Hp) as (Hr & _). by rewrite Hr.
  - unfold stored. by destruct (dbAccounts s !! a).
Qed.

Lemma readAccount_ok r acc s :
  accountObjects s !! r = Some acc -> readAccount r s = (inr acc, s).
Proof. intros H. unfold readAccount. by rewrite H. Qed.

Lemma assignAccount_ok r f acc s :
  accountObjects s !! r = Some acc ->
  assignAccount r f s = (inr tt, with_accountObjects (<[r := f acc]> (accountObjects s)) s).
Proof.
  intros H. unfold assignAccount. by rewrite (bind_returns _ _ _ _ _ (readAccount_ok _ _ _ H)).
Qed.

Lemma updateAccount_ok a r acc s :
  accountObjects s !! r = Some acc -> valid acc ->
  updateAccount a r s =
    (inr tt, with_stateCache (LRUCache.set a r (stateCache s))
               (with_dbAccounts (<[a := acc]> (dbAccounts s)) s)).
Proof.
  intros H [Hb Hn]. unfold updateAccount.
  apply catch_returns. rewrite (bind_returns _ _ _ _ _ (readAccount_ok _ _ _ H)).
  unfold validateAccount.
  replace (balance acc <? 0) with false by (symmetry; apply Z.ltb_ge; lia).
  replace (nonce acc <? 0) with false by (symmetry; apply Z.ltb_ge; lia).
  reflexivity.
Qed.

(** What [getAccount] does, case by case. *)
Lemma getAccount_run a s :
  getAccount a s =
    match LRUCache.peek a (stateCache s) with
    | Some r => (inr r, with_stateCache (LRUCache.get a (stateCache s)).2 s)
    | None =>
        match dbAccounts s !! a with
        | None => (inr (length (accountObjects s)),
                   with_accountObjects (accountObjects s ++ [createEmptyAccount a]) s)
        | Some acc =>
            (inr (length (accountObjects s)),
             with_stateCache (LRUCache.set a (length (accountObjects s)) (stateCache s))
               (with_accountObjects (accountObjects s ++ [acc]) s))
        end
    end.
Proof.
  unfold getAccount, Eff.catch.
  pose proof (get_result a (stateCache s)) as Hres.
  destruct (LRUCache.get a (stateCache s)) as [o c] eqn:Hget. simpl in Hres. subst o.
  destruct (LRUCache.peek a (stateCache s)) as [r|] eqn:Hp; simpl; [done|].
  assert (c = stateCache s) as ->.
  { unfold LRUCache.get in Hget. rewrite Hp in Hget. congruence. }
  destruct s as [sc bc da dbk ao bo cb]; simpl in *.
  destruct (da !! a); reflexivity.
Qed.

Lemma getAccount_spec a s :
  coherent s ->
  exists r s',
    getAccount a s = (inr r, s') /\
    dbAccounts s' = dbAccounts s /\
    same_blocks s s' /\
    LRUCache.capacity (stateCache s') = LRUCache.capacity (stateCache s) /\
    coherent s' /\
    accountObjects s' !! r = Some (stored s a) /\
    exclusive s' r a /\
    (forall r0 acc0, accountObjects s !! r0 = Some acc0 ->
                     accountObjects s' !! r0 = Some acc0) /\
    (forall a' r', LRUCache.peek a' (stateCache s') = Some r' ->
                   (a' = a /\ r' = r) \/ LRUCache.peek a' (stateCache s) = Some r') /\
    (LRUCache.peek a (stateCache s) = Some r \/
     (LRUCache.peek a (stateCache s) = None /\ r = length (accountObjects s))) /\
    (is_Some (dbAccounts s !! a) -> (1 <= LRUCache.capacity (stateCache s))%nat ->
     LRUCache.peek a (stateCache s') = Some r).
Proof.
  intros Hc. rewrite getAccount_run.
  destruct (LRUCache.peek a (stateCache s)) as [r|] eqn:Hp.
  - (* hit *)
    destruct (Hc a r Hp) as (Hr & Hdb & Hex).
    eexists r, _. split; [reflexivity|]. simpl_state.
    assert (forall a', LRUCache.peek a' (LRUCache.get a (stateCache s)).2
                       = LRUCache.peek a' (stateCache s)) as Hpk
      by (intros; apply peek_get).
    split_and!; auto; try (unfold same_blocks; done).
    + apply get_capacity.
    + intros a0 r0. rewrite Hpk. intros H0. destruct (Hc a0 r0 H0) as (? & ? & Hex0).
      repeat split; auto. intros a'. rewrite Hpk. apply Hex0.
    + intros a'. rewrite Hpk. apply Hex.
    + intros a' r'. rewrite Hpk. auto.
    + intros _ _. by rewrite Hpk.
  - destruct (dbAccounts s !! a) as [acc|] eqn:Hdb.
    + (* miss, stored *)
      eexists _, _. split; [reflexivity|]. simpl_state.
      assert (stored s a = acc) as Hst by (unfold stored; by rewrite Hdb).
      assert (forall a' r', LRUCache.peek a' (LRUCache.set a (length (accountObjects s))
                                                (stateCache s)) = Some r' ->
                (a' = a /\ r' = length (accountObjects s)) \/
                (a' <> a /\ LRUCache.peek a' (stateCache s) = Some r')) as Hmono
        by (intros; by apply peek_set_Some).
      assert (forall a0 r0, LRUCache.peek a0 (stateCache s) = Some r0 ->
                            (r0 < length (accountObjects s))%nat) as Hlt.
      { intros a0 r0 H0. destruct (Hc a0 r0 H0) as (H1 & _). by eapply lookup_lt_Some. }
      split_and!; auto; try (unfold same_blocks; done).
      * intros a0 r0 H0. unfold stored. simpl_state. fold (stored s a0).
        destruct (Hmono _ _ H0) as [[-> ->]|[Hne H1]].
        -- rewrite Hst. repeat split.
           ++ apply list_lookup_middle. done.
           ++ exists acc. exact Hdb.
           ++ intros a' H'. destruct (Hmono _ _ H') as [[-> _]|[_ H2]]; auto.
              apply Hlt in H2. lia.
        -- destruct (Hc a0 r0 H1) as (H2 & H3 & H4). repeat split; auto.
           ++ by apply lookup_app_l_Some.
           ++ intros a' H'. destruct (Hmono _ _ H') as [[-> ->]|[_ H5]]; auto.
              apply Hlt in H1. lia.
      * rewrite Hst. by apply list_lookup_middle.
      * intros a' H'. destruct (Hmono _ _ H') as [[-> _]|[_ H2]]; auto.
        apply Hlt in H2. lia.
      * intros r0 acc0 H0. by apply lookup_app_l_Some.
      * intros a' r' H'. destruct (Hmono _ _ H') as [[-> ->]|[_ H2]]; auto.
      * intros _ Hcap. by apply peek_set_eq.
    + (* miss, unknown *)
      eexists _, _. split; [reflexivity|]. simpl_state.
      assert (forall a0 r0, LRUCache.peek a0 (stateCache s) = Some r0 ->
                            (r0 < length (accountObjects s))%nat) as Hlt.
      { intros a0 r0 H0. destruct (Hc a0 r0 H0) as (H1 & _). by eapply lookup_lt_Some. }
      split_and!; auto; try (unfold same_blocks; done).
      * intros a0 r0 H0. unfold stored. simpl_state. fold (stored s a0).
        destruct (Hc a0 r0 H0) as (H2 & H3 & H4). repeat split; auto.
        by apply lookup_app_l_Some.
      * unfold stored. rewrite Hdb. by apply list_lookup_middle.
      * intros a' H'. apply Hlt in H'. lia.
      * intros r0 acc0 H0. by apply lookup_app_l_Some.
Qed.

Lemma two_accounts a1 a2 s :
  coherent s -> (1 <= LRUCache.capacity (stateCache s))%nat ->
  exists r1 s1 r2 s2,
    getAccount a1 s = (inr r1, s1) /\ getAccount a2 s1 = (inr r2, s2) /\
    dbAccounts s2 = dbAccounts s /\ same_blocks s s2 /\
    LRUCache.capacity (stateCache s2) = LRUCache.capacity (stateCache s) /\
    coherent s2 /\
    accountObjects s2 !! r1 = Some (stored s a1) /\
    accountObjects s2 !! r2 = Some (stored s a2) /\
    exclusive s2 r1 a1 /\ exclusive s2 r2 a2 /\
    (a1 <> a2 -> r1 <> r2) /\
    (a1 = a2 -> is_Some (dbAccounts s !! a1) -> r1 = r2).
Proof.
  intros Hc Hcap.
  destruct (getAccount_spec a1 s Hc)
    as (r1 & s1 & Hg1 & Hdb1 & Hb1 & Hcap1 & Hc1 & Hr1 & Hex1 & Hext1 & Hmono1 & Hor1 & Hst1).
  destruct (getAccount_spec a2 s1 Hc1)
    as (r2 & s2 & Hg2 & Hdb2 & Hb2 & Hcap2 & Hc2 & Hr2 & Hex2 & Hext2 & Hmono2 & Hor2 & Hst2).
  assert (stored s1 a2 = stored s a2) as Hs12 by (unfold stored; by rewrite Hdb1).
  assert (a1 <> a2 -> r1 <> r2) as Hne.
  { intros Hne ->. destruct Hor2 as [Hhit|[_ ->]].
    - apply Hex1 in Hhit. congruence.
    - apply lookup_lt_Some in Hr1. lia. }
  assert (a1 = a2 -> is_Some (dbAccounts s !! a1) -> r1 = r2) as Heq.
  { intros <- Hsome. specialize (Hst1 Hsome Hcap).
    destruct Hor2 as [Hhit|[Hmiss _]]; congruence. }
  exists r1, s1, r2, s2. split_and!; auto.
  - congruence.
  - eapply same_blocks_trans; eauto.
  - congruence.
  - by rewrite <- Hs12.
  - intros a' H'. destruct (Hmono2 _ _ H') as [[-> ->]|H1]; [|by apply Hex1].
    destruct (decide (a1 = a2)) as [->|Hd]; [done|]. by apply Hne in Hd.
Qed.

Lemma settle_spec a1 a2 r1 r2 f1 f2 g s :
  coherent s ->
  accountObjects s !! r1 = Some (stored s a1) ->
  accountObjects s !! r2 = Some (stored s a2) ->
  exclusive s r1 a1 -> exclusive s r2 a2 ->
  (a1 <> a2 -> r1 <> r2) -> (a1 = a2 -> r1 = r2) ->
  valid (moved f1 f2 g a1 a2 (stored s) a1) ->
  valid (moved f1 f2 g a1 a2 (stored s) a2) ->
  exists s',
    settle a1 a2 r1 r2 f1 f2 g s = (inr tt, s') /\
    coherent s' /\ same_blocks s s' /\
    LRUCache.capacity (stateCache s') = LRUCache.capacity (stateCache s) /\
    (forall x, stored s' x = moved f1 f2 g a1 a2 (stored s) x) /\
    (forall x, is_Some (dbAccounts s' !! x) <->
               is_Some (dbAccounts s !! x) \/ x = a1 \/ x = a2).
Proof.
  intros Hc Hr1 Hr2 Hex1 Hex2 Hne Heq Hv1 Hv2.
  pose proof (lookup_lt_Some _ _ _ Hr1) as Hlt1.
  pose proof (lookup_lt_Some _ _ _ Hr2) as Hlt2.
  set (A := moved f1 f2 g a1 a2 (stored s) a1) in *.
  set (B := moved f1 f2 g a1 a2 (stored s) a2) in *.
  set (h3 := <[r2 := B]> (<[r1 := f2 (f1 (stored s a1))]> (accountObjects s))).
  assert (h3 !! r1 = Some A /\ h3 !! r2 = Some B /\
          forall r, r <> r1 -> r <> r2 -> h3 !! r = accountObjects s !! r) as (H31 & H32 & H3o).
  { subst h3. split_and!.
    - destruct (decide (a1 = a2)) as [e|n].
      + rewrite <- (Heq e). rewrite list_lookup_insert_eq by (by rewrite length_insert).
        subst A B. by rewrite e.
      + rewrite list_lookup_insert_ne by (apply not_eq_sym; auto).
        rewrite list_lookup_insert_eq by done.
        subst A. unfold moved, update. rewrite decide_False by done. by rewrite decide_True.
    - by rewrite list_lookup_insert_eq by (by rewrite length_insert).
    - intros r n1 n2. by rewrite !list_lookup_insert_ne by (apply not_eq_sym; auto). }
  set (s' := with_stateCache (LRUCache.set a2 r2 (LRUCache.set a1 r1 (stateCache s)))
               (with_dbAccounts (<[a2 := B]> (<[a1 := A]> (dbAccounts s)))
                  (with_accountObjects h3 s))).
  assert (settle a1 a2 r1 r2 f1 f2 g s = (inr tt, s')) as Hrun.
  { unfold settle.
    rewrite (bind_returns _ _ _ _ _ (assignAccount_ok r1 f1 _ s Hr1)).
    erewrite bind_returns; cycle 1.
    { apply assignAccount_ok. simpl_state. by apply list_lookup_insert_eq. }
    simpl_state. rewrite list_insert_insert_eq.
    erewrite bind_returns; cycle 1.
    { apply (assignAccount_ok r2 g
               (if decide (a1 = a2) then f2 (f1 (stored s a1)) else stored s a2)).
      simpl_state. destruct (decide (a1 = a2)) as [e|n].
      - rewrite <- (Heq e). by apply list_lookup_insert_eq.
      - rewrite list_lookup_insert_ne by auto. done. }
    simpl_state.
    assert (g (if decide (a1 = a2) then f2 (f1 (stored s a1)) else stored s a2) = B) as ->.
    { subst B. unfold moved, update.
      destruct (decide (a1 = a2)) as [e|n].
      - rewrite !decide_True by done. by rewrite e.
      - rewrite decide_True by done.
        rewrite decide_False by (apply not_eq_sym; auto). done. }
    fold h3.
    erewrite bind_returns; cycle 1.
    { apply (updateAccount_ok a1 r1 A); simpl_state; auto. }
    erewrite updateAccount_ok; simpl_state; eauto. }
  assert (forall x, stored s' x = moved f1 f2 g a1 a2 (stored s) x) as Hstored.
  { intros x. unfold stored at 1. subst s'. simpl_state.
    destruct (decide (x = a2)) as [->|n2]; [by rewrite lookup_insert_eq|].
    rewrite lookup_insert_ne by (apply not_eq_sym; auto).
    destruct (decide (x = a1)) as [->|n1]; [by rewrite lookup_insert_eq|].
    rewrite lookup_insert_ne by (apply not_eq_sym; auto).
    unfold moved, update. by rewrite !decide_False by done. }
  exists s'. split; [exact Hrun|]. split_and!; auto; try (unfold same_blocks; done).
  - intros a' r' Hp. subst s'. simpl_state.
    apply peek_set_Some in Hp as [[-> ->]|[n2 Hp]]; [|apply peek_set_Some in Hp as [[-> ->]|[n1 Hp]]].
    + split_and!.
      * by rewrite Hstored.
      * rewrite lookup_insert_eq. eauto.
      * intros x Hx. apply peek_set_Some in Hx as [[-> _]|[_ Hx]]; [done|].
        apply peek_set_Some in Hx as [[-> <-]|[_ Hx]]; [|by apply Hex2].
        destruct (decide (a1 = a2)) as [e|n]; [done|]. by apply Hne in n.
    + split_and!.
      * by rewrite Hstored.
      * rewrite lookup_insert_ne by (apply not_eq_sym; auto). rewrite lookup_insert_eq. eauto.
      * intros x Hx. apply peek_set_Some in Hx as [[-> Hx]|[_ Hx]].
        { exfalso. revert Hx. by apply Hne. }
        apply peek_set_Some in Hx as [[-> _]|[_ Hx]]; [done|]. by apply Hex1.
    + destruct (Hc a' r' Hp) as (Hh & Hsome & Hex).
      assert (r' <> r1) as nr1 by (intros ->; by apply n1, Hex1).
      assert (r' <> r2) as nr2 by (intros ->; by apply n2, Hex2).
      split_and!.
      * rewrite H3o by done. rewrite Hstored. unfold moved, update.
        by rewrite !decide_False by done.
      * by rewrite !lookup_insert_ne by (apply not_eq_sym; auto).
      * intros x Hx. apply peek_set_Some in Hx as [[-> Hx]|[_ Hx]]; [done|].
        apply peek_set_Some in Hx as [[-> Hx]|[_ Hx]]; [done|]. by apply Hex.
  - intros x. subst s'. simpl_state.
    destruct (decide (x = a2)) as [->|n2].
    { rewrite lookup_insert_eq. split; eauto. }
    rewrite lookup_insert_ne by (apply not_eq_sym; auto).
    destruct (decide (x = a1)) as [->|n1].
    { rewrite lookup_insert_eq. split; eauto. }
    rewrite lookup_insert_ne by (apply not_eq_sym; auto). intuition.
Qed.


Lemma sound_same_accounts s s' :
  stateCache s' = stateCache s -> dbAccounts s' = dbAccounts s ->
  accountObjects s' = accountObjects s -> sound s -> sound s'.
Proof.
  intros Hc Hd Ho [H1 H2 H3]. split.
  - by rewrite Hc.
  - intros a r. unfold stored. rewrite Hc, Hd, Ho. apply H2.
  - intros a acc. rewrite Hd. apply H3.
Qed.

Lemma stored_same_db s s' x : dbAccounts s' = dbAccounts s -> stored s' x = stored s x.
Proof. unfold stored. by intros ->. Qed.

Lemma sound_moved (s' : State) (w : Address -> Account) :
  (1 <= LRUCache.capacity (stateCache s'))%nat -> coherent s' ->
  (forall x, stored s' x = w x) -> (forall x, valid (w x)) -> sound s'.
Proof.
  intros Hcap Hc Hst Hv. split; auto.
  intros a acc Hacc. specialize (Hst a). unfold stored in Hst. rewrite Hacc in Hst.
  simpl in Hst. rewrite Hst. apply Hv.
Qed.

Lemma applyTransaction_insufficient tx s :
  coherent s -> (1 <= LRUCache.capacity (stateCache s))%nat ->
  balance (stored s (from tx)) < value tx + fee tx ->
  exists s',
    applyTransaction tx s
    = (inl (StateError "Transaction application failed: Insufficient balance"), s') /\
    dbAccounts s' = dbAccounts s /\ coherent s' /\
    LRUCache.capacity (stateCache s') = LRUCache.capacity (stateCache s).
Proof.
  intros Hc Hcap Hlt.
  destruct (two_accounts (from tx) (to tx) s Hc Hcap)
    as (r1 & s1 & r2 & s2 & Hg1 & Hg2 & Hdb & Hb & Hcap2 & Hc2 & Hr1 & Hr2 & _).
  exists s2. split_and!; auto.
  unfold applyTransaction.
  rewrite (catch_throws _ _ _ (ValidationError "Insufficient balance") s2); [reflexivity|].
  rewrite (bind_returns _ _ _ _ _ Hg1), (bind_returns _ _ _ _ _ Hg2).
  rewrite (bind_returns _ _ _ _ _ (readAccount_ok _ _ _ Hr1)).
  by rewrite (proj2 (Z.ltb_lt _ _) Hlt).
Qed.

Lemma applyTransaction_sufficient tx s :
  sound s -> well_formed tx ->
  value tx + fee tx <= balance (stored s (from tx)) ->
  exists s',
    applyTransaction tx s = (inr tt, s') /\ sound s' /\ same_blocks s s' /\
    (forall x, stored s' x = applied tx (stored s) x) /\
    (forall x, is_Some (dbAccounts s' !! x) <->
               is_Some (dbAccounts s !! x) \/ x = from tx \/ x = to tx).
Proof.
  intros Hs [Hval Hfee] Hle. destruct Hs as [Hcap Hc Hvalid].
  assert (forall x, valid (stored s x)) as Hsv.
  { intros x. apply stored_valid. by split. }
  destruct (two_accounts (from tx) (to tx) s Hc Hcap)
    as (r1 & s1 & r2 & s2 & Hg1 & Hg2 & Hdb & Hb & Hcap2 & Hc2 & Hr1 & Hr2
        & Hex1 & Hex2 & Hne & Heq).
  assert (forall x, stored s2 x = stored s x) as Hst2 by (intros; by apply stored_same_db).
  assert (is_Some (dbAccounts s !! from tx)) as Hsome.
  { unfold stored in Hle. destruct (dbAccounts s !! from tx); [eauto|]. simpl in Hle. lia. }
  assert (forall x, valid (applied tx (stored s) x)) as Hva.
  { intros x. specialize (Hsv x). unfold applied, moved, update, valid in *.
    repeat case_decide; unfold with_balance, with_nonce; simpl;
      try match goal with H : x = from tx |- _ => rewrite <- H in Hle end; lia. }
  destruct (settle_spec (from tx) (to tx) r1 r2
              (fun a => with_balance (balance a - (value tx + fee tx)) a)
              (fun a => with_nonce (nonce a + 1) a)
              (fun a => with_balance (balance a + value tx) a) s2)
    as (s' & Hrun & Hc' & Hb' & Hcap' & Hst' & Hdom'); auto.
  { by rewrite Hst2. }
  { by rewrite Hst2. }
  { fold (applied tx (stored s2) (from tx)). unfold applied, moved, update.
    rewrite !Hst2. apply (Hva (from tx)). }
  { fold (applied tx (stored s2) (to tx)). unfold applied, moved, update.
    rewrite !Hst2. apply (Hva (to tx)). }
  assert (forall x, stored s' x = applied tx (stored s) x) as Hfinal.
  { intros x. rewrite Hst'. unfold applied, moved, update. by rewrite !Hst2. }
  exists s'. split_and!; auto.
  - unfold applyTransaction. apply catch_returns.
    rewrite (bind_returns _ _ _ _ _ Hg1), (bind_returns _ _ _ _ _ Hg2).
    rewrite (bind_returns _ _ _ _ _ (readAccount_ok _ _ _ Hr1)).
    rewrite (proj2 (Z.ltb_ge _ _) Hle). exact Hrun.
  - eapply sound_moved; eauto. congruence.
  - eapply same_blocks_trans; eauto.
  - intros x. rewrite Hdom', Hdb. done.
Qed.


(** A transaction that went through on a sound state found the funds. *)
Lemma applyTransaction_returned tx s s' :
  sound s -> well_formed tx -> applyTransaction tx s = (inr tt, s') ->
  sound s' /\ same_blocks s s' /\
  (forall x, stored s' x = applied tx (stored s) x) /\
  (forall x, is_Some (dbAccounts s' !! x) <->
             is_Some (dbAccounts s !! x) \/ x = from tx \/ x = to tx).
Proof.
  intros Hs Hwf Hrun.
  destruct (Z.lt_ge_cases (balance (stored s (from tx))) (value tx + fee tx)) as [Hlt|Hge].
  - destruct (applyTransaction_insufficient tx s (cache_coherent _ Hs) (cache_room _ Hs) Hlt)
      as (s'' & Hthrow & _). congruence.
  - destruct (applyTransaction_sufficient tx s Hs Hwf Hge) as (s'' & Hret & H).
    rewrite Hret in Hrun. by injection Hrun as <-.
Qed.

Lemma applied_all txs : forall s s',
  sound s -> Forall well_formed txs ->
  Eff.for_of txs applyTransaction s = (inr tt, s') ->
  sound s' /\ same_blocks s s' /\
  (forall x, is_Some (dbAccounts s !! x) -> is_Some (dbAccounts s' !! x)).
Proof.
  induction txs as [|tx txs IH]; intros s s' Hs Hwf; simpl.
  - intros [= <-]. split_and!; auto. apply same_blocks_refl.
  - apply Forall_cons in Hwf as [Hwf1 Hwf]. unfold Eff.bind.
    destruct (applyTransaction tx s) as [[e|[]] s1] eqn:H1; [discriminate|].
    intros Hrest.
    destruct (applyTransaction_returned _ _ _ Hs Hwf1 H1) as (Hs1 & Hb1 & _ & Hd1).
    destruct (IH _ _ Hs1 Hwf Hrest) as (Hs' & Hb' & Hd').
    split_and!; auto.
    + eapply same_blocks_trans; eauto.
    + intros x Hx. apply Hd', Hd1. auto.
Qed.





Lemma applied_ext tx v w x : v x = w x -> applied tx v x = applied tx w x.
Proof. unfold applied, moved, update. by intros ->. Qed.

Lemma applied_list_ext txs : forall v w,
  (forall x, v x = w x) -> forall x, applied_list txs v x = applied_list txs w x.
Proof.
  induction txs as [|tx txs IH]; intros v w Hvw x; simpl; auto.
  apply IH. intros y. by apply applied_ext.
Qed.

Lemma applied_all_records txs : forall s s',
  sound s -> Forall well_formed txs ->
  Eff.for_of txs applyTransaction s = (inr tt, s') ->
  forall x, stored s' x = applied_list txs (stored s) x.
Proof.
  induction txs as [|tx txs IH]; intros s s' Hs Hwf; simpl.
  - by intros [= <-].
  - apply Forall_cons in Hwf as [Hwf1 Hwf]. unfold Eff.bind.
    destruct (applyTransaction tx s) as [[e|[]] s1] eqn:H1; [discriminate|].
    intros Hrest x.
    destruct (applyTransaction_returned _ _ _ Hs Hwf1 H1) as (Hs1 & _ & Hst1 & _).
    rewrite (IH _ _ Hs1 Hwf Hrest). by apply applied_list_ext.
Qed.

(** On a store that answers every write, a sound state and a block of
    well-formed transactions, a commit that throws has stopped at a
    transaction the sender could not pay for, and the accounts read as the
    transactions before it left them. *)
Lemma failed_commit_shows_prefix block b s e s' :
  sound s ->
  blockObjects s !! block = Some b ->
  Forall well_formed (transactions b) ->
  commitBlock block s = (inl e, s') ->
  exists before failing rest,
    transactions b = before ++ failing :: rest /\
    (forall a, viewAccount s' a = applied_list before (viewAccount s) a) /\
    balance (applied_list before (viewAccount s) (from failing))
    < value failing + fee failing /\
    e = StateError
          "Block commit failed: Transaction application failed: Insufficient balance".
Proof.
  intros Hs Hb Hwf Hcommit.
  assert (readBlock (Some block) s = (inr b, s)) as Hread.
  { unfold readBlock. simpl. by rewrite Hb. }
  unfold commitBlock in Hcommit.
  destruct (Eff.for_of (transactions b) applyTransaction s) as [[e1|[]] sN] eqn:Hfor.
  - rewrite (catch_throws _ _ _ e1 sN) in Hcommit;
      [|rewrite (bind_returns _ _ _ _ _ Hread); by rewrite (bind_throws _ _ _ _ _ Hfor)].
    injection Hcommit as <- <-.
    destruct (for_of_throws _ _ _ _ _ Hfor) as (done & failing & rest & s1 & Htxs & Hd & Hf).
    rewrite Htxs in Hwf. apply Forall_app in Hwf as [Hwfd Hwff].
    apply Forall_cons in Hwff as [Hwf1 _].
    destruct (applied_all _ _ _ Hs Hwfd Hd) as (Hs1 & _ & _).
    pose proof (applied_all_records _ _ _ Hs Hwfd Hd) as Hrec.
    assert (forall x, applied_list done (viewAccount s) x = stored s1 x) as Hview.
    { intros x. rewrite Hrec. apply applied_list_ext. intros y.
      apply viewAccount_stored, Hs. }
    exists done, failing, rest. split; [done|].
    destruct (Z.lt_ge_cases (balance (stored s1 (from failing)))
                (value failing + fee failing)) as [Hlt|Hge].
    + destruct (applyTransaction_insufficient failing s1 (cache_coherent _ Hs1)
                  (cache_room _ Hs1) Hlt) as (s'' & Hthrow & Hdb & Hc & _).
      rewrite Hthrow in Hf. injection Hf as <- <-. split_and!.
      * intros a. rewrite Hview, viewAccount_stored by done. by apply stored_same_db.
      * by rewrite Hview.
      * reflexivity.
    + destruct (applyTransaction_sufficient failing s1 Hs1 Hwf1 Hge) as (s'' & Hret & _).
      congruence.
  - erewrite catch_returns in Hcommit; [discriminate|].
    rewrite (bind_returns _ _ _ _ _ Hread), (bind_returns _ _ _ _ _ Hfor). reflexivity.
Qed.

End StateManagerFacts.

Lemma revertBlock_reverses_cached_block_witness :
  StateManager.cachedBlock
    (StateManager.revertBlock "h3" (Samples.commit Samples.transfers Samples.funded).2).2
    "h3"
  = Some (StateManager.mkBlock "h3" "h0"
            [StateManager.mkTransaction "alice" "alice" 5 1;
             StateManager.mkTransaction "bob" "alice" 5 1;
             StateManager.mkTransaction "alice" "bob" 10 1]).
Proof.
  apply (revertBlock_reverses_cached_block "h3" 0 Samples.transfers
           (Samples.commit Samples.transfers Samples.funded).2); vm_compute; reflexivity.
Defined.


Lemma funded_sound :
  StateManager.sound (StateManager.newBlock Samples.transfers Samples.funded).2.
Proof.
  split.
  - vm_compute. lia.
  - intros a r Hp. discriminate.
  - intros a acc. simpl. intros Hacc.
    apply lookup_insert_Some in Hacc as [[_ <-]|[_ Hacc]].
    + split; vm_compute; discriminate.
    + by rewrite lookup_empty in Hacc.
Qed.


(** * Further properties *)

(** ** State manager: reads, transfers, commits and reverts *)

Section StateManagerReads.
Import Errors StateManager.

Ltac state_cbn :=
  cbn [stateCache blockCache dbAccounts dbBlocks accountObjects blockObjects currentBlock
       with_stateCache with_blockCache with_dbAccounts with_dbBlocks with_accountObjects
       with_blockObjects with_currentBlock fst snd] in *.

(** X1: [getAccount] does not cache the empty account it makes up for an
    address that neither the cache nor the store knows: two reads in a row
    return two distinct objects, each an empty account of that address, and
    leave the cache and the store as they were. *)
Theorem unknown_account_read_twice a s :
  LRUCache.peek a (stateCache s) = None ->
  dbAccounts s !! a = None ->
  exists r1 s1 r2 s2,
    getAccount a s = (inr r1, s1) /\ getAccount a s1 = (inr r2, s2) /\
    r1 <> r2 /\
    accountObjects s2 !! r1 = Some (createEmptyAccount a) /\
    accountObjects s2 !! r2 = Some (createEmptyAccount a) /\
    dbAccounts s2 = dbAccounts s /\ stateCache s2 = stateCache s.
Proof.
  intros Hp Hdb.
  eexists _, _, _, _. split.
  { rewrite getAccount_run, Hp, Hdb. reflexivity. }
  split.
  { rewrite getAccount_run. state_cbn. rewrite Hp, Hdb. reflexivity. }
  state_cbn. rewrite length_app. simpl. split_and!; auto.
  - lia.
  - rewrite <- app_assoc. by apply list_lookup_middle.
  - apply list_lookup_middle. rewrite length_app. simpl. lia.
Qed.

(** X2: an address the store knows is read through the cache: when the
    cache agrees with the store and can hold an entry, two reads in a row
    return the same object; it holds the stored record and is the one the
    cache has for the address afterwards, and the store is not written. *)
Theorem stored_account_read_twice a acc s :
  coherent s -> (1 <= LRUCache.capacity (stateCache s))%nat ->
  dbAccounts s !! a = Some acc ->
  exists r s1 s2,
    getAccount a s = (inr r, s1) /\ getAccount a s1 = (inr r, s2) /\
    accountObjects s2 !! r = Some acc /\
    LRUCache.peek a (stateCache s2) = Some r /\
    dbAccounts s2 = dbAccounts s.
Proof.
  intros Hc Hcap Hdb.
  destruct (getAccount_spec a s Hc)
    as (r1 & s1 & Hg1 & Hdb1 & _ & Hcap1 & Hc1 & Hr1 & _ & _ & _ & _ & Hst1).
  destruct (getAccount_spec a s1 Hc1)
    as (r2 & s2 & Hg2 & Hdb2 & _ & _ & _ & Hr2 & _ & _ & _ & Hor2 & Hst2).
  assert (LRUCache.peek a (stateCache s1) = Some r1) as Hp1 by (apply Hst1; eauto).
  assert (r2 = r1) as -> by (destruct Hor2 as [H|[H _]]; congruence).
  exists r1, s1, s2. split_and!; auto.
  - rewrite Hr2. unfold stored. by rewrite Hdb1, Hdb.
  - apply Hst2; [rewrite Hdb1; eauto | by rewrite Hcap1].
  - congruence.
Qed.

(** An account with a negative balance or nonce is turned down before the
    store is touched. *)
Lemma invalid_account_not_written a r acc s :
  accountObjects s !! r = Some acc ->
  balance acc < 0 \/ nonce acc < 0 ->
  updateAccount a r s
  = (inl (StateError "Failed to update account: Invalid account state"), s).
Proof.
  intros Hr Hbad. unfold updateAccount.
  rewrite (catch_throws _ _ _ (ValidationError "Invalid account state") s); [done|].
  rewrite (bind_returns _ _ _ _ _ (readAccount_ok _ _ _ Hr)).
  unfold validateAccount.
  assert ((balance acc <? 0) || (nonce acc <? 0) = true) as ->; [|done].
  apply orb_true_iff. destruct Hbad; [left|right]; by apply Z.ltb_lt.
Qed.


(** X4: on a state manager in working order (its account cache can hold an
    entry and agrees with the store, and no stored account has a negative
    balance or nonce), [applyTransaction] of a transaction whose amount plus
    fee exceeds the sender's balance throws the state error "Transaction
    application failed: Insufficient balance" and moves nothing: the store is
    as it was and every address reads as before. *)
Theorem unfunded_transfer_changes_nothing tx s :
  sound s ->
  balance (viewAccount s (from tx)) < value tx + fee tx ->
  exists s',
    applyTransaction tx s
    = (inl (StateError "Transaction application failed: Insufficient balance"), s') /\
    dbAccounts s' = dbAccounts s /\
    forall a, viewAccount s' a = viewAccount s a.
Proof.
  intros Hs Hlt. rewrite (viewAccount_stored _ _ (cache_coherent _ Hs)) in Hlt.
  destruct (applyTransaction_insufficient tx s (cache_coherent _ Hs) (cache_room _ Hs) Hlt)
    as (s' & Hrun & Hdb & Hc & _).
  exists s'. split_and!; auto.
  intros a. rewrite !viewAccount_stored by (done || apply Hs). by apply stored_same_db.
Qed.


Lemma applyTransaction_keeps_sound tx s :
  sound s -> well_formed tx -> sound (applyTransaction tx s).2.
Proof.
  intros Hs Hwf.
  destruct (Z.lt_ge_cases (balance (stored s (from tx))) (value tx + fee tx)) as [Hlt|Hge].
  - destruct (applyTransaction_insufficient tx s (cache_coherent _ Hs) (cache_room _ Hs) Hlt)
      as (s' & Hrun & Hdb & Hc & Hcap).
    rewrite Hrun. simpl. split.
    + rewrite Hcap. apply Hs.
    + done.
    + intros a acc. rewrite Hdb. apply Hs.
  - destruct (applyTransaction_sufficient tx s Hs Hwf Hge) as (s' & Hrun & Hs' & _).
    by rewrite Hrun.
Qed.

Lemma for_of_keeps {S A} (P : S -> Prop) (Q : A -> Prop) (body : A -> @Eff.M S unit) l :
  (forall x s, Q x -> P s -> P (body x s).2) ->
  Forall Q l -> forall s, P s -> P (Eff.for_of l body s).2.
Proof.
  intros Hbody. induction 1 as [|x l Hx Hl IH]; intros s Hs; simpl; [done|].
  unfold Eff.bind. specialize (Hbody x s Hx Hs).
  destruct (body x s) as [[e|[]] s1]; simpl in *; auto.
Qed.

(** X7: on a state manager in working order, a commit of transactions with
    positive amounts and fees that are not negative that returns has recorded
    the block: [currentBlock] is the committed block object, the store holds the block under its hash, the
    block cache answers for the hash when it can hold an entry, and every
    address reads as the transactions of the block, applied in order, leave
    it. *)
Theorem committed_block_recorded block b s s' :
  sound s ->
  blockObjects s !! block = Some b ->
  Forall well_formed (transactions b) ->
  commitBlock block s = (inr tt, s') ->
  currentBlock s' = Some block /\
  dbBlocks s' !! hash b = Some b /\
  ((1 <= LRUCache.capacity (blockCache s))%nat -> cachedBlock s' (hash b) = Some b) /\
  forall a, viewAccount s' a = applied_list (transactions b) (viewAccount s) a.
Proof.
  intros Hs Hb Hwf Hcommit. unfold commitBlock in Hcommit.
  assert (readBlock (Some block) s = (inr b, s)) as Hread.
  { unfold readBlock. simpl. by rewrite Hb. }
  destruct (Eff.for_of (transactions b) applyTransaction s) as [[e|[]] sN] eqn:Hfor.
  { rewrite (catch_throws _ _ _ e sN) in Hcommit; [discriminate|].
    rewrite (bind_returns _ _ _ _ _ Hread). by rewrite (bind_throws _ _ _ _ _ Hfor). }
  erewrite catch_returns in Hcommit; cycle 1.
  { rewrite (bind_returns _ _ _ _ _ Hread), (bind_returns _ _ _ _ _ Hfor). reflexivity. }
  injection Hcommit as <-.
  destruct (applied_all _ _ _ Hs Hwf Hfor) as (HsN & (HbcN & HdbN & HboN & HcbN) & _).
  pose proof (applied_all_records _ _ _ Hs Hwf Hfor) as Hrec.
  state_cbn. split_and!.
  - done.
  - by rewrite lookup_insert_eq.
  - intros Hcap. unfold cachedBlock. state_cbn.
    rewrite peek_set_eq by (by rewrite HbcN). simpl. by rewrite HboN.
  - intros a. rewrite viewAccount_stored; cycle 1.
    { apply (cache_coherent _ (sound_same_accounts sN _ eq_refl eq_refl eq_refl HsN)). }
    unfold stored. state_cbn. fold (stored sN a). rewrite Hrec.
    apply applied_list_ext. intros y. symmetry. apply viewAccount_stored, Hs.
Qed.

(** X8: [revertBlock] of a hash that neither the block cache nor the store
    knows throws a state error and changes nothing. *)
Theorem revert_of_unknown_block_throws h s :
  LRUCache.peek h (blockCache s) = None ->
  dbBlocks s !! h = None ->
  exists m, revertBlock h s = (inl (StateError m), s).
Proof.
  intros Hp Hdb.
  assert (getBlock h s = (inr None, s)) as Hget.
  { unfold getBlock. pose proof (get_result h (blockCache s)) as Hres.
    unfold LRUCache.get in *. rewrite Hp in *. rewrite Hdb.
    by destruct s. }
  eexists. unfold revertBlock.
  erewrite catch_throws; [reflexivity|].
  rewrite (bind_returns _ _ _ _ _ Hget). reflexivity.
Qed.

(** X9: [revertBlock] does not ask for the parent to be known: when the
    revert of a cached block returns and neither the block cache nor the
    store knows the block's parent, [currentBlock] is left empty. *)
Theorem revert_to_unknown_parent_clears_pointer h r b s s' :
  LRUCache.peek h (blockCache s) = Some r ->
  blockObjects s !! r = Some b ->
  LRUCache.peek (parentHash b) (blockCache s) = None ->
  dbBlocks s !! parentHash b = None ->
  revertBlock h s = (inr tt, s') ->
  currentBlock s' = None.
Proof.
  intros Hp Hb Hpp Hdbp Hrev.
  destruct (getBlock_cached h r s Hp) as (s1 & Hget & Ho1 & Hp1).
  assert (forall k, LRUCache.peek k (blockCache s1) = LRUCache.peek k (blockCache s)
                    /\ dbBlocks s1 = dbBlocks s) as H1.
  { intros k. unfold getBlock in Hget.
    pose proof (peek_get h k (blockCache s)) as Hpk.
    pose proof (get_result h (blockCache s)) as Hres. rewrite Hp in Hres.
    destruct (LRUCache.get h (blockCache s)) as [[r0|] c]; simpl in *; [|discriminate].
    injection Hget as _ <-. by state_cbn. }
  set (b' := with_transactions (rev (transactions b)) b).
  set (s2 := with_blockObjects (<[r := b']> (blockObjects s1)) s1).
  assert (reverseTransactions (Some r) s1 = (inr (rev (transactions b)), s2)) as Hrv.
  { unfold reverseTransactions, Eff.bind, readBlock. simpl. by rewrite Ho1, Hb. }
  unfold revertBlock in Hrev.
  destruct (Eff.for_of (rev (transactions b)) revertTransaction s2) as [[e|[]] s3] eqn:Hfor.
  { rewrite (catch_throws _ _ _ e s3) in Hrev; [discriminate|].
    rewrite (bind_returns _ _ _ _ _ Hget), (bind_returns _ _ _ _ _ Hrv).
    by rewrite (bind_throws _ _ _ _ _ Hfor). }
  pose proof (keeps_for_of (rev (transactions b)) revertTransaction
                revertTransaction_blocks s2) as Hk.
  rewrite Hfor in Hk. destruct Hk as (Hbc3 & Hdb3 & Hbo3 & _). simpl in *.
  assert (readBlock (Some r) s3 = (inr b', s3)) as Hread.
  { unfold readBlock. simpl. rewrite Hbo3. subst s2. state_cbn.
    rewrite list_lookup_insert_eq; [done|]. rewrite Ho1. by eapply lookup_lt_Some. }
  assert (getBlock (parentHash b') s3 = (inr None, s3)) as Hgp.
  { unfold getBlock. change (parentHash b') with (parentHash b).
    assert (LRUCache.peek (parentHash b) (blockCache s3) = None) as Hp3.
    { rewrite Hbc3. subst s2. state_cbn. by rewrite (proj1 (H1 _)). }
    assert (dbBlocks s3 !! parentHash b = None) as Hd3.
    { rewrite Hdb3. subst s2. state_cbn. by rewrite (proj2 (H1 h)). }
    unfold LRUCache.get. rewrite Hp3, Hd3. by destruct s3. }
  erewrite catch_returns in Hrev; cycle 1.
  { rewrite (bind_returns _ _ _ _ _ Hget), (bind_returns _ _ _ _ _ Hrv).
    rewrite (bind_returns _ _ _ _ _ Hfor), (bind_returns _ _ _ _ _ Hread).
    rewrite (bind_returns _ _ _ _ _ Hgp). reflexivity. }
  by injection Hrev as <-.
Qed.
End StateManagerReads.

Lemma funded_state_sound : StateManager.sound Samples.funded.
Proof.
  exact (sound_same_accounts (StateManager.newBlock Samples.transfers Samples.funded).2
           Samples.funded eq_refl eq_refl eq_refl funded_sound).
Qed.

Lemma unknown_account_read_twice_witness :
  exists r1 s1 r2 s2,
    StateManager.getAccount "bob" Samples.funded = (inr r1, s1) /\
    StateManager.getAccount "bob" s1 = (inr r2, s2) /\
    r1 <> r2.
Proof.
  assert (LRUCache.peek "bob" (StateManager.stateCache Samples.funded) = None) as H1
    by (vm_compute; reflexivity).
  assert (StateManager.dbAccounts Samples.funded !! "bob" = None) as H2
    by (vm_compute; reflexivity).
  destruct (unknown_account_read_twice "bob" Samples.funded H1 H2)
    as (r1 & s1 & r2 & s2 & Hg1 & Hg2 & Hne & _).
  exists r1, s1, r2, s2. auto.
Defined.

Lemma stored_account_read_twice_witness :
  exists r s1 s2,
    StateManager.getAccount "alice" Samples.funded = (inr r, s1) /\
    StateManager.getAccount "alice" s1 = (inr r, s2) /\
    StateManager.accountObjects s2 !! r = Some Samples.alice.
Proof.
  assert (1 <= LRUCache.capacity (StateManager.stateCache Samples.funded))%nat as H1
    by (vm_compute; lia).
  assert (StateManager.dbAccounts Samples.funded !! "alice" = Some Samples.alice) as H2
    by (vm_compute; reflexivity).
  destruct (stored_account_read_twice "alice" Samples.alice Samples.funded
              (StateManager.cache_coherent _ funded_state_sound) H1 H2)
    as (r & s1 & s2 & Hg1 & Hg2 & Hobj & _).
  exists r, s1, s2. auto.
Defined.


Lemma unfunded_transfer_changes_nothing_witness :
  exists s',
    StateManager.applyTransaction (StateManager.mkTransaction "alice" "bob" 1000 1)
      Samples.funded
    = (inl (Errors.StateError "Transaction application failed: Insufficient balance"), s') /\
    forall a, StateManager.viewAccount s' a = StateManager.viewAccount Samples.funded a.
Proof.
  destruct (unfunded_transfer_changes_nothing
              (StateManager.mkTransaction "alice" "bob" 1000 1) Samples.funded
              funded_state_sound)
    as (s' & Hrun & _ & Hview); [vm_compute; reflexivity|].
  exists s'. auto.
Defined.


Lemma committed_block_recorded_witness :
  StateManager.currentBlock Samples.committed = Some 0%nat /\
  StateManager.dbBlocks Samples.committed !! "h3" = Some Samples.transfers.
Proof.
  assert (StateManager.commitBlock 0 Samples.staged = (inr tt, Samples.committed)) as Hrun
    by (vm_compute; reflexivity).
  assert (Forall StateManager.well_formed (StateManager.transactions Samples.transfers))
    as Hwf by (repeat constructor; vm_compute; discriminate).
  destruct (committed_block_recorded 0 Samples.transfers Samples.staged Samples.committed
              funded_sound eq_refl Hwf Hrun) as (Hcur & Hdb & _).
  split; [exact Hcur | exact Hdb].
Defined.

Lemma revert_of_unknown_block_throws_witness :
  exists m,
    StateManager.revertBlock "h9" Samples.funded
    = (inl (Errors.StateError m), Samples.funded).
Proof.
  apply (revert_of_unknown_block_throws "h9" Samples.funded); vm_compute; reflexivity.
Defined.

Lemma revert_to_unknown_parent_clears_pointer_witness :
  StateManager.currentBlock (StateManager.revertBlock "h3" Samples.committed).2 = None.
Proof.
  apply (revert_to_unknown_parent_clears_pointer "h3" 0 Samples.transfers
           Samples.committed (StateManager.revertBlock "h3" Samples.committed).2);
    vm_compute; reflexivity.
Defined.

(** ** State manager on a store whose writes can fail *)

Section StoreErrorsFacts.
Import Errors StateManager StoreErrors.

Variable db : DatabaseClient.

Local Abbreviation updateAccount := (StoreErrors.updateAccount db).
Local Abbreviation applyTransaction := (StoreErrors.applyTransaction db).
Local Abbreviation commitBlock := (StoreErrors.commitBlock db).

Lemma dbUpdateAccount_blocks a acc : keeps_blocks (dbUpdateAccount db a acc).
Proof.
  intros s. unfold dbUpdateAccount. destruct (updateAccountAnswer db s a acc); by repeat split.
Qed.

Lemma db_updateAccount_blocks a r : keeps_blocks (updateAccount a r).
Proof.
  apply keeps_catch; [|intros e; apply keeps_throw].
  apply keeps_bind; [apply readAccount_blocks|intros acc].
  apply keeps_bind; [apply validateAccount_blocks|intros _].
  apply keeps_bind; [apply dbUpdateAccount_blocks|intros _].
  apply keeps_modify. intros s. by repeat split.
Qed.

Lemma db_applyTransaction_blocks tx : keeps_blocks (applyTransaction tx).
Proof.
  apply keeps_catch; [|intros e; apply keeps_throw].
  apply keeps_bind; [apply getAccount_blocks|intros sender].
  apply keeps_bind; [apply getAccount_blocks|intros recipient].
  apply keeps_bind; [apply readAccount_blocks|intros s0].
  destruct (balance s0 <? value tx + fee tx); [apply keeps_throw|].
  repeat (apply keeps_bind; [apply assignAccount_blocks|intros _]).
  apply keeps_bind; [apply db_updateAccount_blocks|intros _].
  apply db_updateAccount_blocks.
Qed.

(** Whatever stops [applyTransaction], lack of funds or a refused write, it
    leaves as a state error. *)
Lemma db_applyTransaction_error tx s e s' :
  applyTransaction tx s = (inl e, s') ->
  exists m, e = StateError ("Transaction application failed: " ++ m).
Proof.
  unfold applyTransaction, StoreErrors.applyTransaction, Eff.catch.
  match goal with |- context [let (_, _) := ?m s in _] => destruct (m s) as [[e0|[]] s0] end.
  - intros [= <- <-]. eauto.
  - discriminate.
Qed.

(** C1, as the code has it: when applying a transaction of the block
    fails, for lack of funds or because the store refused a write,
    [commitBlock] throws a state error that wraps the failure, and the
    committed block pointer, the block cache and the stored blocks are as
    they were before the commit; nothing is rolled back: the state is the
    one that the transactions before the failing one, applied in order, and
    then the failed attempt have left, and the transactions after it are not
    attempted. *)
Theorem failed_commit_keeps_pointer block b before failing after s s1 e s' :
  blockObjects s !! block = Some b ->
  transactions b = before ++ failing :: after ->
  Eff.for_of before applyTransaction s = (inr tt, s1) ->
  applyTransaction failing s1 = (inl e, s') ->
  commitBlock block s = (inl (StateError ("Block commit failed: " ++ message e)), s') /\
  (exists m, e = StateError ("Transaction application failed: " ++ m)) /\
  currentBlock s' = currentBlock s /\
  blockCache s' = blockCache s /\
  dbBlocks s' = dbBlocks s.
Proof.
  intros Hb Htxs Hbefore Hfail.
  assert (readBlock (Some block) s = (inr b, s)) as Hread.
  { unfold readBlock. simpl. by rewrite Hb. }
  assert (Eff.for_of (transactions b) applyTransaction s = (inl e, s')) as Hfor.
  { rewrite Htxs, (for_of_app _ _ _ _ _ Hbefore). simpl.
    by rewrite (bind_throws _ _ _ _ _ Hfail). }
  split.
  { unfold commitBlock, StoreErrors.commitBlock.
    rewrite (catch_throws _ _ _ e s'); [done|].
    rewrite (bind_returns _ _ _ _ _ Hread). by rewrite (bind_throws _ _ _ _ _ Hfor). }
  split; [by eapply db_applyTransaction_error|].
  pose proof (keeps_for_of (transactions b) applyTransaction db_applyTransaction_blocks s)
    as Hk.
  rewrite Hfor in Hk. destruct Hk as (Hbc & Hdb & _ & Hcur). auto.
Qed.

(** A refused [saveBlock] is no failed transaction: the commit throws after
    the pointer has moved and the block has been cached. *)
Lemma failed_save_moves_pointer block b s s1 error :
  blockObjects s !! block = Some b ->
  Eff.for_of (transactions b) applyTransaction s = (inr tt, s1) ->
  saveBlockAnswer db
    (with_blockCache (LRUCache.set (hash b) block (blockCache s1))
       (with_currentBlock (Some block) s1)) b = Some error ->
  exists s',
    commitBlock block s = (inl (StateError ("Block commit failed: " ++ message error)), s') /\
    currentBlock s' = Some block /\
    dbBlocks s' = dbBlocks s1.
Proof.
  intros Hb Hfor Hsave.
  assert (readBlock (Some block) s = (inr b, s)) as Hread.
  { unfold readBlock. simpl. by rewrite Hb. }
  eexists. split.
  { unfold commitBlock, StoreErrors.commitBlock.
    erewrite catch_throws; [reflexivity|].
    rewrite (bind_returns _ _ _ _ _ Hread), (bind_returns _ _ _ _ _ Hfor).
    unfold Eff.bind, Eff.modify, dbSaveBlock.
    change (blockCache (with_currentBlock (Some block) s1)) with (blockCache s1).
    by rewrite Hsave. }
  done.
Qed.

(** On a store that answers Ok to every account write the methods do what
    they do on the store that answers every write. *)
Lemma accepted_updateAccount a r s :
  accepts_accounts db -> updateAccount a r s = StateManager.updateAccount a r s.
Proof.
  intros Hok. unfold updateAccount, StoreErrors.updateAccount, StateManager.updateAccount,
    Eff.catch, Eff.bind, dbUpdateAccount, Eff.modify.
  destruct (readAccount r s) as [[e|acc] s1]; [done|].
  destruct (validateAccount acc s1) as [[e|[]] s2]; [done|].
  by rewrite Hok.
Qed.

Lemma accepted_applyTransaction tx s :
  accepts_accounts db -> applyTransaction tx s = StateManager.applyTransaction tx s.
Proof.
  intros Hok. unfold applyTransaction, StoreErrors.applyTransaction,
    StateManager.applyTransaction, Eff.catch.
  match goal with
  | |- (let (_, _) := ?m s in _) = (let (_, _) := ?m' s in _) =>
      assert (m s = m' s) as ->; [|done]
  end.
  unfold Eff.bind.
  destruct (getAccount (from tx) s) as [[e|sender] s1]; [done|].
  destruct (getAccount (to tx) s1) as [[e|recipient] s2]; [done|].
  destruct (readAccount sender s2) as [[e|s0] s3]; [done|].
  destruct (balance s0 <? value tx + fee tx); [done|].
  unfold Eff.bind.
  repeat match goal with
         | |- context [assignAccount ?r ?f ?st] =>
             destruct (assignAccount r f st) as [[?|[]] ?]; [done|]
         end.
  rewrite accepted_updateAccount by done.
  destruct (StateManager.updateAccount _ _ _) as [[?|[]] ?]; [done|].
  by apply accepted_updateAccount.
Qed.

Lemma accepted_for_of txs : forall s,
  accepts_accounts db ->
  Eff.for_of txs applyTransaction s = Eff.for_of txs StateManager.applyTransaction s.
Proof.
  induction txs as [|tx txs IH]; intros s Hok; [done|].
  simpl. unfold Eff.bind. rewrite accepted_applyTransaction by done.
  destruct (StateManager.applyTransaction tx s) as [[e|[]] s1]; [done|]. by apply IH.
Qed.

Lemma accepted_commitBlock block s :
  accepts_accounts db -> accepts_blocks db ->
  commitBlock block s = StateManager.commitBlock block s.
Proof.
  intros Hok Hblocks. unfold commitBlock, StoreErrors.commitBlock,
    StateManager.commitBlock, Eff.catch.
  match goal with
  | |- (let (_, _) := ?m s in _) = (let (_, _) := ?m' s in _) =>
      assert (m s = m' s) as ->; [|done]
  end.
  unfold Eff.bind. destruct (readBlock (Some block) s) as [[e|b] s1]; [done|].
  rewrite accepted_for_of by done.
  destruct (Eff.for_of (transactions b) StateManager.applyTransaction s1) as [[e|[]] s2];
    [done|].
  unfold Eff.modify, dbSaveBlock. by rewrite Hblocks.
Qed.

(** X6: as long as the store accepts the account writes, [commitBlock]
    keeps the state manager in working order, whether it returns, throws for
    a transaction that its sender cannot pay or throws because the store
    refused to save the block: after it the account cache still can hold an
    entry and agrees with the store, and no stored account has a negative
    balance or nonce, for every block of transactions with positive amounts
    and fees that are not negative. *)
Theorem commitBlock_keeps_sound block b s :
  accepts_accounts db ->
  sound s ->
  blockObjects s !! block = Some b ->
  Forall well_formed (transactions b) ->
  sound (commitBlock block s).2.
Proof.
  intros Hok Hs Hb Hwf. unfold commitBlock, StoreErrors.commitBlock.
  rewrite catch_rethrow_state.
  assert (readBlock (Some block) s = (inr b, s)) as Hread.
  { unfold readBlock. simpl. by rewrite Hb. }
  rewrite (bind_returns _ _ _ _ _ Hread).
  pose proof (for_of_keeps sound well_formed StateManager.applyTransaction (transactions b)
                (fun tx s0 Hwf0 Hs0 => applyTransaction_keeps_sound tx s0 Hs0 Hwf0)
                Hwf s Hs) as Hfor.
  unfold Eff.bind at 1. rewrite accepted_for_of by done.
  destruct (Eff.for_of (transactions b) StateManager.applyTransaction s) as [[e|[]] sN];
    simpl in *; [done|].
  unfold Eff.bind, Eff.modify, dbSaveBlock.
  destruct (saveBlockAnswer db _ b); simpl; by apply (sound_same_accounts sN).
Qed.
End StoreErrorsFacts.

(** On the store that answers every write the methods are the ones of
    [StateManager]. *)
Lemma reliable_store_agrees :
  StoreErrors.updateAccount StoreErrors.reliable = StateManager.updateAccount /\
  StoreErrors.applyTransaction StoreErrors.reliable = StateManager.applyTransaction /\
  StoreErrors.commitBlock StoreErrors.reliable = StateManager.commitBlock.
Proof. repeat split. Qed.

Lemma failed_commit_keeps_pointer_witness :
  StoreErrors.commitBlock StoreErrors.reliable 1 Samples.restaged
  = (inl (Errors.StateError
            "Block commit failed: Transaction application failed: Insufficient balance"),
     (StoreErrors.commitBlock StoreErrors.reliable 1 Samples.restaged).2) /\
  StateManager.currentBlock (StoreErrors.commitBlock StoreErrors.reliable 1 Samples.restaged).2
  = Some 0%nat.
Proof.
  destruct (failed_commit_keeps_pointer StoreErrors.reliable 1 Samples.overdrawn
              [StateManager.mkTransaction "alice" "bob" 10 1]
              (StateManager.mkTransaction "alice" "bob" 1000 1) []
              Samples.restaged
              (StoreErrors.applyTransaction StoreErrors.reliable
                 (StateManager.mkTransaction "alice" "bob" 10 1) Samples.restaged).2
              (Errors.StateError "Transaction application failed: Insufficient balance")
              (StoreErrors.commitBlock StoreErrors.reliable 1 Samples.restaged).2)
    as (Hthrow & _ & Hcur & _); [vm_compute; reflexivity ..|].
  split; [exact Hthrow|]. rewrite Hcur. vm_compute. reflexivity.
Defined.

(** The first transfer of the sample block goes through, the second is
    turned down for lack of funds: the commit throws, and alice and bob are
    left with the first transfer applied. *)
Lemma failed_commit_not_atomic :
  (Samples.commitOn StoreErrors.reliable Samples.overdrawn Samples.funded).1
  = inl (Errors.StateError
           "Block commit failed: Transaction application failed: Insufficient balance") /\
  StateManager.balance (StateManager.viewAccount Samples.funded "alice") = 100 /\
  StateManager.balance
    (StateManager.viewAccount
       (Samples.commitOn StoreErrors.reliable Samples.overdrawn Samples.funded).2 "alice")
  = 89 /\
  StateManager.balance (StateManager.viewAccount Samples.funded "bob") = 0 /\
  StateManager.balance
    (StateManager.viewAccount
       (Samples.commitOn StoreErrors.reliable Samples.overdrawn Samples.funded).2 "bob")
  = 10.
Proof. repeat (split; [vm_compute; reflexivity|]). vm_compute; reflexivity. Qed.

(** A refused account write leaves the cache ahead of the store: on a store
    that does not write the account of alice, her transfer of 10 for a fee of
    1 throws after her cached account was charged, so that she reads 89 where
    the store has 100, and the state manager is in working order no more. *)
Lemma refused_write_leaves_cache_ahead :
  (StoreErrors.applyTransaction Samples.aliceRefused
     (StateManager.mkTransaction "alice" "bob" 10 1) Samples.funded).1
  = inl (Errors.StateError
           "Transaction application failed: Failed to update account: write refused") /\
  StateManager.balance
    (StateManager.viewAccount
       (StoreErrors.applyTransaction Samples.aliceRefused
          (StateManager.mkTransaction "alice" "bob" 10 1) Samples.funded).2 "alice") = 89 /\
  StateManager.balance
    (StateManager.stored
       (StoreErrors.applyTransaction Samples.aliceRefused
          (StateManager.mkTransaction "alice" "bob" 10 1) Samples.funded).2 "alice") = 100 /\
  ~ StateManager.sound
      (StoreErrors.applyTransaction Samples.aliceRefused
         (StateManager.mkTransaction "alice" "bob" 10 1) Samples.funded).2.
Proof.
  repeat (split; [vm_compute; reflexivity|]).
  intros [_ Hc _].
  destruct (Hc "alice" 0%nat) as (Hobj & _); [vm_compute; reflexivity|].
  vm_compute in Hobj. discriminate.
Qed.

Lemma commitBlock_keeps_sound_witness :
  StateManager.sound
    (StoreErrors.commitBlock Samples.blocksRefused 0 Samples.staged).2 /\
  (StoreErrors.commitBlock Samples.blocksRefused 0 Samples.staged).1
  = inl (Errors.StateError "Block commit failed: write refused").
Proof.
  split; [|vm_compute; reflexivity].
  apply (commitBlock_keeps_sound Samples.blocksRefused 0 Samples.transfers Samples.staged).
  - intros s addr a. reflexivity.
  - exact funded_sound.
  - reflexivity.
  - repeat constructor; vm_compute; discriminate.
Defined.

(** ** Consensus engine: proposals, attestations and finalization *)

Section JsMapOverwrite.
Context {K V : Type} `{EqDecision K}.
Implicit Types (m : JsMap.t K V).

Lemma JsMap_set_set k v v' m : JsMap.set k v (JsMap.set k v' m) = JsMap.set k v m.
Proof.
  induction m as [|[k0 v0] m IH]; simpl.
  - by rewrite decide_True.
  - destruct (decide (k0 = k)) as [->|Hne]; simpl.
    + by rewrite decide_True.
    + rewrite decide_False by done. by rewrite IH.
Qed.

End JsMapOverwrite.

Section JsSetSize.
Context {A : Type} `{EqDecision A}.

Lemma JsSet_add_add (x : A) s : JsSet.add x (JsSet.add x s) = JsSet.add x s.
Proof.
  unfold JsSet.add at 1. unfold JsSet.has.
  rewrite bool_decide_eq_true_2; [done|]. apply JsSet_elem_add. by left.
Qed.

Lemma JsSet_size_bound (s u : JsSet.t A) :
  NoDup s -> (forall x, x ∈ s -> x ∈ u) -> JsSet.size s <= JsSet.size u.
Proof.
  intros Hnd Hsub. unfold JsSet.size. apply inj_le.
  apply submseteq_length, NoDup_submseteq; auto.
Qed.
End JsSetSize.

Section ConsensusEngineRounds.
Import Errors ConsensusEngine.
Variable SHA256_JSON : Hash -> Z -> list string -> Z -> Hash.
Variable cryptoValidateBlock : Block -> Error + bool.
Variable verifySignature : Hash -> Signature -> PublicKey -> Error + bool.

Local Abbreviation calculateBlockHash := (calculateBlockHash SHA256_JSON).
Local Abbreviation proposeBlock := (proposeBlock SHA256_JSON cryptoValidateBlock).
Local Abbreviation validateBlock := (validateBlock verifySignature).
Local Abbreviation reachable := (reachable SHA256_JSON cryptoValidateBlock verifySignature).
Local Abbreviation consistent := (consistent SHA256_JSON).

(** X10: [proposeBlock] never throws; it returns true exactly when the hash
    of the block is not pending and the block validation of the crypto
    utilities returns true; the block is then pending under its hash with an
    empty attestation set and the other entries are as they were; when it
    returns false the engine is unchanged. *)
Theorem proposeBlock_outcome block s :
  let h := calculateBlockHash block in
  exists accepted s',
    proposeBlock block s = (inr accepted, s') /\
    (accepted = true <->
       JsMap.has h (pendingBlocks s) = false /\ cryptoValidateBlock block = inr true) /\
    (accepted = true ->
       JsMap.get h (pendingBlocks s') = Some block /\
       JsMap.get h (validations s') = Some [] /\
       forall h', h' <> h ->
         JsMap.get h' (pendingBlocks s') = JsMap.get h' (pendingBlocks s) /\
         JsMap.get h' (validations s') = JsMap.get h' (validations s)) /\
    (accepted = false -> s' = s).
Proof.
  intros h. unfold proposeBlock, ConsensusEngine.proposeBlock, Eff.catch, Eff.bind,
    Eff.gets, Eff.throw, Eff.ret, Eff.modify, lift. simpl. fold h.
  destruct (JsMap.has h (pendingBlocks s)) eqn:Hhas; simpl.
  { exists false, s. split_and!; auto; try done. split; [done|]. by intros [? _]. }
  destruct (cryptoValidateBlock block) as [e|[|]] eqn:Hv; simpl.
  - exists false, s. split_and!; auto; try done. split; [done|]. by intros [_ ?].
  - eexists true, _. split_and!; [reflexivity| | |done].
    + done.
    + intros _. simpl. split_and!.
      * apply JsMap_get_set_eq.
      * apply JsMap_get_set_eq.
      * intros h' Hne. split; apply JsMap_get_set_ne; congruence.
  - exists false, s. split_and!; auto; try done. split; [done|]. by intros [_ ?].
Qed.

(** An attestation by a key that is no validator, for a hash that is not
    pending, or with a signature that does not verify returns false and
    changes nothing. *)
Lemma validateBlock_refused h k sig s :
  JsSet.has k (validators s) = false \/
  JsMap.get h (pendingBlocks s) = None \/
  verifySignature h sig k <> inr true ->
  validateBlock h k sig s = (inr false, s).
Proof.
  intros Hcase. unfold validateBlock, ConsensusEngine.validateBlock, Eff.catch, Eff.bind,
    Eff.gets, Eff.throw, Eff.ret, Eff.modify, lift. simpl.
  destruct (JsSet.has k (validators s)) eqn:Hk; simpl; [|done].
  destruct (JsMap.get h (pendingBlocks s)) as [b|] eqn:Hb; simpl; [|done].
  destruct (verifySignature h sig k) as [e|[|]] eqn:Hsig; simpl; try done.
  destruct Hcase as [?|[?|?]]; done.
Qed.

Lemma validateBlock_accepted h k sig s b :
  consistent s ->
  JsSet.has k (validators s) = true ->
  JsMap.get h (pendingBlocks s) = Some b ->
  verifySignature h sig k = inr true ->
  exists vs,
    JsMap.get h (validations s) = Some vs /\
    validateBlock h k sig s =
      (inr (requiredValidations s <=? JsSet.size (JsSet.add k vs)),
       with_pending (pendingBlocks s)
         (JsMap.set h (JsSet.add k vs) (validations s)) s).
Proof.
  intros C Hk Hb Hsig.
  destruct (JsMap.get h (validations s)) as [vs|] eqn:Hvs; cycle 1.
  { apply (get_agree SHA256_JSON) in Hvs; auto. congruence. }
  exists vs. split; [done|].
  unfold validateBlock, ConsensusEngine.validateBlock, Eff.catch, Eff.bind,
    Eff.gets, Eff.throw, Eff.ret, Eff.modify, lift. simpl.
  rewrite Hk. simpl. rewrite Hb, Hsig. simpl. by rewrite Hvs.
Qed.

(** X11: attesting twice counts once: in every reachable state, the same
    [validateBlock] call made a second time returns what the first returned
    and leaves the engine as the first left it. *)
Theorem repeated_attestation_is_idempotent h k sig s :
  reachable s ->
  exists r s1,
    validateBlock h k sig s = (inr r, s1) /\
    validateBlock h k sig s1 = (inr r, s1).
Proof.
  intros Hr. pose proof (reachable_consistent _ _ _ _ Hr) as C.
  destruct (JsSet.has k (validators s)) eqn:Hk; cycle 1.
  { exists false, s. split; apply validateBlock_refused; auto. }
  destruct (JsMap.get h (pendingBlocks s)) as [b|] eqn:Hb; cycle 1.
  { exists false, s. split; apply validateBlock_refused; auto. }
  destruct (verifySignature h sig k) as [e|[|]] eqn:Hsig.
  - exists false, s. split; apply validateBlock_refused;
      right; right; congruence.
  - destruct (validateBlock_accepted h k sig s b C Hk Hb Hsig) as (vs & Hvs & Hrun).
    eexists _, _. split; [exact Hrun|].
    set (s1 := with_pending _ _ s).
    assert (consistent s1) as C1.
    { pose proof (consistent_validate SHA256_JSON verifySignature s h k sig C) as C'.
      by rewrite Hrun in C'. }
    destruct (validateBlock_accepted h k sig s1 b C1 Hk Hb Hsig) as (vs1 & Hvs1 & Hrun1).
    subst s1. simpl in Hvs1. rewrite JsMap_get_set_eq in Hvs1. injection Hvs1 as <-.
    rewrite Hrun1. simpl. rewrite JsSet_add_add, JsMap_set_set. reflexivity.
  - exists false, s. split; apply validateBlock_refused;
      right; right; congruence.
Qed.

(** X12: in every reachable state an attestation set is no larger than the
    validator set. *)
Theorem attestations_bounded_by_validators s h vs :
  reachable s ->
  JsMap.get h (validations s) = Some vs ->
  JsSet.size vs <= getValidatorCount s.
Proof.
  intros Hr Hget. pose proof (reachable_consistent _ _ _ _ Hr) as C.
  destruct (attested_by_validators _ _ C h vs Hget) as [Hnd Hsub].
  unfold getValidatorCount. by apply JsSet_size_bound.
Qed.

Lemma fold_finalize_idle entries : forall out s,
  (forall h vs, (h, vs) ∈ entries -> JsSet.size vs < requiredValidations s) ->
  fold_left (fun acc entry => finalizeEntry entry acc) entries (out, s) = (out, s).
Proof.
  induction entries as [|[h0 vs0] rest IH]; intros out s Hlt; [done|].
  cbn [fold_left]. unfold finalizeEntry at 2. cbn [fst snd].
  rewrite (proj2 (Z.leb_gt _ _)) by (apply (Hlt h0), list_elem_of_here).
  apply IH. intros h vs Hin. apply (Hlt h). by apply list_elem_of_further.
Qed.

(** X13: the constructor compares [requiredValidations] with the length of
    the validator array, not with the size of the set made of it; in a
    reachable state whose validator set is smaller than the threshold
    [getFinalizedBlocks] returns no block and changes nothing. *)
Theorem quorum_above_validator_count_never_finalizes s :
  reachable s ->
  getValidatorCount s < requiredValidations s ->
  getFinalizedBlocks s = (inr [], s).
Proof.
  intros Hr Hlt. pose proof (reachable_consistent _ _ _ _ Hr) as C.
  unfold getValidatorCount in Hlt.
  unfold getFinalizedBlocks. rewrite fold_finalize_idle; [done|].
  intros h vs Hin. apply JsMap_elem_get in Hin; cycle 1.
  { rewrite <- (keys_agree _ _ C). apply C. }
  destruct (attested_by_validators _ _ C h vs Hin) as [Hnd Hsub].
  pose proof (JsSet_size_bound vs (validators s) Hnd Hsub). lia.
Qed.

Lemma fold_finalize_rest entries : forall out s out' s',
  fold_left (fun acc entry => finalizeEntry entry acc) entries (out, s) = (out', s') ->
  requiredValidations s' = requiredValidations s /\
  forall h vs, JsMap.get h (validations s') = Some vs ->
    JsMap.get h (validations s) = Some vs /\
    forall vs', (h, vs') ∈ entries -> requiredValidations s <= JsSet.size vs' ->
                JsMap.get h (pendingBlocks s) = None.
Proof.
  induction entries as [|[h0 vs0] rest IH]; intros out s out' s'.
  - simpl. intros [= <- <-]. split; [done|]. intros h vs Hget. split; [done|].
    intros vs' Hin. by apply elem_of_nil in Hin.
  - cbn [fold_left]. unfold finalizeEntry at 2. cbn [fst snd].
    destruct (requiredValidations s <=? JsSet.size vs0) eqn:Hq;
      [destruct (JsMap.get h0 (pendingBlocks s)) as [b0|] eqn:Hb0|]; intros Hfold;
      apply IH in Hfold as [HQ Hrest]; simpl in *; (split; [done|]);
      intros h vs Hget; destruct (Hrest h vs Hget) as [Hval Hdue].
    + assert (h0 <> h) as Hne.
      { intros ->. by rewrite JsMap_get_delete_eq in Hval. }
      rewrite JsMap_get_delete_ne in Hval by done. split; [done|].
      intros vs' Hin Hle. apply elem_of_cons in Hin as [[= ? ?]|Hin]; [congruence|].
      specialize (Hdue vs' Hin Hle). by rewrite JsMap_get_delete_ne in Hdue.
    + split; [done|]. intros vs' Hin Hle.
      apply elem_of_cons in Hin as [[= -> ->]|Hin]; [done|]. eauto.
    + split; [done|]. intros vs' Hin Hle. apply Z.leb_gt in Hq.
      apply elem_of_cons in Hin as [[= -> ->]|Hin]; [lia|]. eauto.
Qed.

(** X14: a finalized block is handed out once: in every reachable state
    [getFinalizedBlocks] returns, and a second call right after it returns
    the empty list and changes nothing. *)
Theorem finalized_blocks_returned_once s :
  reachable s ->
  exists finalizedBlocks s1,
    getFinalizedBlocks s = (inr finalizedBlocks, s1) /\
    getFinalizedBlocks s1 = (inr [], s1).
Proof.
  intros Hr. pose proof (reachable_consistent _ _ _ _ Hr) as C.
  pose proof (consistent_finalized SHA256_JSON s C) as C1.
  unfold getFinalizedBlocks in *.
  destruct (fold_left _ (validations s) ([], s)) as [fin s1] eqn:Hfold.
  exists fin, s1. split; [done|]. simpl in C1.
  apply fold_finalize_rest in Hfold as [HQ Hrest].
  rewrite fold_finalize_idle; [done|].
  intros h vs Hin. apply JsMap_elem_get in Hin; cycle 1.
  { rewrite <- (keys_agree _ _ C1). apply C1. }
  destruct (Hrest h vs Hin) as [Hval Hdue].
  destruct (Z.lt_ge_cases (JsSet.size vs) (requiredValidations s1)) as [|Hle]; [done|].
  exfalso. rewrite HQ in Hle.
  specialize (Hdue vs (JsMap_get_elem _ _ _ Hval) Hle).
  apply (get_agree SHA256_JSON) in Hdue; auto. congruence.
Qed.
End ConsensusEngineRounds.

Lemma attested_reachable :
  ConsensusEngine.reachable Samples.blockDigest Samples.acceptBlock
    Samples.acceptSignature Samples.attested.
Proof.
  unfold Samples.attested.
  apply ConsensusEngine.reach_validate, ConsensusEngine.reach_validate,
    ConsensusEngine.reach_propose.
  apply (ConsensusEngine.reach_new _ _ _ ["A"; "B"; "C"] 2). reflexivity.
Qed.

Lemma understaffed_reachable :
  ConsensusEngine.reachable Samples.blockDigest Samples.acceptBlock
    Samples.acceptSignature Samples.understaffed.
Proof.
  unfold Samples.understaffed.
  apply ConsensusEngine.reach_validate, ConsensusEngine.reach_propose.
  apply (ConsensusEngine.reach_new _ _ _ ["A"; "A"] 2). reflexivity.
Qed.

Lemma repeated_attestation_is_idempotent_witness :
  exists r s1,
    ConsensusEngine.validateBlock Samples.acceptSignature "genesis/t1" "A" "sigA"
      Samples.attested = (inr r, s1) /\
    ConsensusEngine.validateBlock Samples.acceptSignature "genesis/t1" "A" "sigA" s1
    = (inr r, s1).
Proof.
  exact (repeated_attestation_is_idempotent Samples.blockDigest Samples.acceptBlock
           Samples.acceptSignature "genesis/t1" "A" "sigA" Samples.attested
           attested_reachable).
Defined.

Lemma attestations_bounded_by_validators_witness :
  JsSet.size ["A"; "B"] <= ConsensusEngine.getValidatorCount Samples.attested.
Proof.
  apply (attestations_bounded_by_validators Samples.blockDigest Samples.acceptBlock
           Samples.acceptSignature Samples.attested "genesis/t1" ["A"; "B"]).
  - exact attested_reachable.
  - vm_compute. reflexivity.
Defined.

Lemma quorum_above_validator_count_never_finalizes_witness :
  ConsensusEngine.getFinalizedBlocks Samples.understaffed = (inr [], Samples.understaffed).
Proof.
  apply (quorum_above_validator_count_never_finalizes Samples.blockDigest
           Samples.acceptBlock Samples.acceptSignature Samples.understaffed).
  - exact understaffed_reachable.
  - vm_compute. reflexivity.
Defined.

Lemma finalized_blocks_returned_once_witness :
  exists finalizedBlocks s1,
    ConsensusEngine.getFinalizedBlocks Samples.attested = (inr finalizedBlocks, s1) /\
    ConsensusEngine.getFinalizedBlocks s1 = (inr [], s1).
Proof.
  exact (finalized_blocks_returned_once Samples.blockDigest Samples.acceptBlock
           Samples.acceptSignature Samples.attested attested_reachable).
Defined.

(** ** The pools: admission and upkeep *)

Section JsMapSweeps.
Context {K V : Type} `{EqDecision K}.
Implicit Types (m : JsMap.t K V).

Lemma JsMap_delete_set_new k v m : JsMap.get k m = None -> JsMap.delete k (JsMap.set k v m) = m.
Proof.
  induction m as [|[k0 v0] m IH]; simpl.
  - by rewrite decide_True.
  - destruct (decide (k0 = k)) as [->|Hne]; [done|]. intros Hget. simpl.
    rewrite decide_False by done. by rewrite IH.
Qed.

Lemma JsMap_NoDup_delete k m : NoDup (JsMap.keys m) -> NoDup (JsMap.keys (JsMap.delete k m)).
Proof. rewrite JsMap_keys_delete. apply NoDup_filter. Qed.

Lemma JsMap_get_filter (P : K * V -> Prop) `{forall x, Decision (P x)} k v m :
  NoDup (JsMap.keys m) ->
  JsMap.get k (filter P m) = Some v <-> JsMap.get k m = Some v /\ P (k, v).
Proof.
  unfold JsMap.t in *. induction m as [|[k0 v0] m IH].
  - intros _. simpl. split; [done | by intros [? _]].
  - intros Hnd. change (JsMap.keys ((k0, v0) :: m)) with (k0 :: JsMap.keys m) in Hnd.
    apply NoDup_cons in Hnd as [Hfresh Hnd].
    rewrite filter_cons. destruct (decide (P (k0, v0))) as [HP|HP]; cbn [JsMap.get].
    + destruct (decide (k0 = k)) as [->|Hne]; [|by apply IH].
      split; [by intros [= ->] | by intros [? _]].
    + destruct (decide (k0 = k)) as [->|Hne]; [|by apply IH].
      split.
      * intros Hget. exfalso. apply Hfresh. apply JsMap_get_elem in Hget.
        apply list_elem_of_filter in Hget as [_ Hin].
        by apply (list_elem_of_fmap_2 fst) in Hin.
      * intros [[= ->] ?]. done.
Qed.

End JsMapSweeps.

Section TransactionPoolUpkeep.
Import Errors TransactionPool.

Variable SHA256_JSON : string -> string -> Z -> Z -> string.
Variable verifyTransaction : Transaction -> Error + bool.
Variable getAddressBalance : string -> Error + Z.
Variable getTransactionSize : Transaction -> Z.

Local Abbreviation getTransactionHash := (getTransactionHash SHA256_JSON).
Local Abbreviation validateTransaction :=
  (validateTransaction verifyTransaction getAddressBalance getTransactionSize).
Local Abbreviation addTransaction :=
  (addTransaction SHA256_JSON verifyTransaction getAddressBalance getTransactionSize).
Local Abbreviation cleanPool := (cleanPool SHA256_JSON).

Lemma validateTransaction_passed tx s :
  validateTransaction tx s = (inr tt, s) ->
  signature tx <> "" /\ fromAddress tx <> "" /\ toAddress tx <> "" /\ 0 < amount tx /\
  verifyTransaction tx = inr true /\
  (exists senderBalance,
     getAddressBalance (fromAddress tx) = inr senderBalance /\
     amount tx <= senderBalance) /\
  getTransactionSize tx <= MAX_SIZE_BYTES.
Proof.
  unfold validateTransaction, TransactionPool.validateTransaction, falsy,
    Eff.bind, Eff.throw, Eff.ret, lift.
  repeat case_bool_decide; simpl; try discriminate.
  destruct (amount tx <=? 0) eqn:Ha; [discriminate|]. apply Z.leb_gt in Ha.
  destruct (verifyTransaction tx) as [e|[|]]; simpl; try discriminate.
  destruct (getAddressBalance (fromAddress tx)) as [e|b]; simpl; try discriminate.
  destruct (b <? amount tx) eqn:Hb; [discriminate|]. apply Z.ltb_ge in Hb.
  destruct (MAX_SIZE_BYTES <? getTransactionSize tx) eqn:Hsz; [discriminate|].
  apply Z.ltb_ge in Hsz. intros _. split_and!; eauto.
Qed.

(** X15: a transaction that [addTransaction] admits has passed every check
    of [validateTransaction]: signature and addresses are present, the amount
    is positive, the chain verified it, the sender's balance covers the
    amount and the size is within the limit; it is then found under its key
    with the admission time in place of its own timestamp and no peers seen,
    and one ['transaction'] event was emitted. *)
Theorem admitted_transaction_passed_checks now tx s s' :
  addTransaction now tx s = (inr true, s') ->
  (signature tx <> "" /\ fromAddress tx <> "" /\ toAddress tx <> "" /\ 0 < amount tx /\
   verifyTransaction tx = inr true /\
   (exists senderBalance,
      getAddressBalance (fromAddress tx) = inr senderBalance /\
      amount tx <= senderBalance) /\
   getTransactionSize tx <= MAX_SIZE_BYTES) /\
  getTransaction (getTransactionHash tx) s'
  = Some (mkPoolTransaction (with_timestamp now tx) []) /\
  emitted s' = emitted s ++ [EvTransaction tx] /\
  maxSize s' = maxSize s.
Proof.
  intros Hadd.
  destruct (addTransaction_cases SHA256_JSON verifyTransaction getAddressBalance
              getTransactionSize now tx s)
    as [[_ H]|[(_ & e & _ & H)|(_ & Hv & kept & _ & H)]];
    rewrite H in Hadd;
    [discriminate | destruct (errorListener s); discriminate |].
  injection Hadd as <-. split; [by apply (validateTransaction_passed tx s)|].
  unfold getTransaction. simpl. split_and!; auto. apply JsMap_get_set_eq.
Qed.

(** A new transaction that lacks a signature or an address, or whose amount
    is not positive, is turned down for its format, whatever the chain would
    say of it: the error goes to the ['error'] listener, and is thrown when
    there is none. *)
Lemma malformed_transaction_rejected_first now tx s :
  JsMap.has (getTransactionHash tx) (transactions s) = false ->
  signature tx = "" \/ fromAddress tx = "" \/ toAddress tx = "" \/ amount tx <= 0 ->
  addTransaction now tx s
  = if errorListener s
    then (inr false,
          mkState (transactions s) (maxSize s)
                  (emitted s ++ [EvError (PlainError "Invalid transaction format")]) true)
    else (inl (PlainError "Invalid transaction format"), s).
Proof.
  intros Hfresh Hbad.
  unfold addTransaction, TransactionPool.addTransaction, Eff.catch, Eff.bind, Eff.gets.
  rewrite Hfresh. simpl.
  assert (falsy (signature tx) || falsy (fromAddress tx) || falsy (toAddress tx)
          || (amount tx <=? 0) = true) as Hb.
  { unfold falsy. destruct Hbad as [H|[H|[H|H]]].
    - rewrite (bool_decide_eq_true_2 _ H). done.
    - rewrite (bool_decide_eq_true_2 _ H). by rewrite orb_true_r.
    - rewrite (bool_decide_eq_true_2 _ H). by rewrite orb_true_r.
    - rewrite (proj2 (Z.leb_le _ _) H). by rewrite orb_true_r. }
  unfold TransactionPool.validateTransaction. rewrite Hb. simpl.
  unfold emit. destruct (errorListener s); reflexivity.
Qed.

(** X16: in a pool below its maximum size, removing a transaction that was
    just admitted returns true and leaves the entries as they were before the
    admission. *)
Theorem admit_then_remove_restores_entries now tx s s1 :
  getPoolSize s < maxSize s ->
  addTransaction now tx s = (inr true, s1) ->
  exists s2,
    removeTransaction (getTransactionHash tx) s1 = (inr true, s2) /\
    transactions s2 = transactions s.
Proof.
  intros Hroom Hadd.
  destruct (addTransaction_cases SHA256_JSON verifyTransaction getAddressBalance
              getTransactionSize now tx s)
    as [[_ H]|[(_ & e & _ & H)|(Hfresh & Hv & kept & Hkept & H)]];
    rewrite H in Hadd;
    [discriminate | destruct (errorListener s); discriminate |].
  injection Hadd as <-.
  rewrite (proj2 (Z.leb_gt _ _) Hroom) in Hkept. subst kept.
  unfold removeTransaction, Eff.bind, Eff.gets, Eff.modify, Eff.ret. simpl.
  rewrite JsMap_has_set. eexists. split; [reflexivity|]. simpl.
  apply JsMap_delete_set_new. unfold JsMap.has in Hfresh.
  by destruct (JsMap.get _ _).
Qed.

Lemma delete_confirmed_spec confirmed : forall s,
  NoDup (JsMap.keys (transactions s)) ->
  exists s',
    Eff.for_of confirmed (fun tx =>
      Eff.modify (fun s => with_transactions
        (JsMap.delete (getTransactionHash tx) (transactions s)) s)) s = (inr tt, s') /\
    maxSize s' = maxSize s /\ emitted s' = emitted s /\
    NoDup (JsMap.keys (transactions s')) /\
    forall h, JsMap.get h (transactions s')
              = if decide (h ∈ map getTransactionHash confirmed) then None
                else JsMap.get h (transactions s).
Proof.
  induction confirmed as [|tx rest IH]; intros s Hnd.
  - exists s. simpl. split_and!; auto.
  - cbn [Eff.for_of]. unfold Eff.bind at 1, Eff.modify at 1.
    set (s1 := with_transactions _ s).
    destruct (IH s1) as (s' & Hrun & Hmax & Hem & Hnd' & Hget).
    { by apply JsMap_NoDup_delete. }
    exists s'. split; [exact Hrun|]. split_and!; auto.
    intros h. rewrite Hget. subst s1. simpl.
    destruct (decide (h = getTransactionHash tx)) as [->|Hne].
    + rewrite JsMap_get_delete_eq.
      rewrite (decide_True (P := _ ∈ _ :: _)) by apply list_elem_of_here.
      by destruct (decide _).
    + rewrite JsMap_get_delete_ne by done.
      destruct (decide (h ∈ map getTransactionHash rest)) as [Hin|Hnin].
      * rewrite decide_True; [done|]. by apply list_elem_of_further.
      * rewrite decide_False; [done|]. intros Hin.
        apply elem_of_cons in Hin as [?|?]; done.
Qed.

(** X17: [cleanPool] returns and keeps exactly the entries that are neither
    confirmed nor older than [MAX_AGE_MS]: the keys of the pool being
    distinct, as the keys of a [Map] are, an entry is found afterwards if and
    only if it was found before, its key is the key of no confirmed
    transaction and its admission lies at most an hour back; nothing is
    emitted. *)
Theorem cleanPool_keeps_young_unconfirmed now confirmed s :
  NoDup (JsMap.keys (transactions s)) ->
  exists s',
    cleanPool now (inr confirmed) s = (inr tt, s') /\
    maxSize s' = maxSize s /\ emitted s' = emitted s /\
    forall h p,
      getTransaction h s' = Some p <->
      getTransaction h s = Some p /\
      (h ∉ map getTransactionHash confirmed) /\
      now - timestamp (fields p) <= MAX_AGE_MS.
Proof.
  intros Hnd.
  destruct (delete_confirmed_spec confirmed s Hnd) as (s1 & Hrun & Hmax & Hem & Hnd1 & Hget).
  unfold cleanPool, TransactionPool.cleanPool.
  unfold Eff.bind at 1, lift at 1.
  rewrite (bind_returns _ _ _ _ _ Hrun).
  eexists. split; [reflexivity|]. simpl. split_and!; auto.
  intros h p. unfold getTransaction. simpl. unfold JsMap.t in *.
  rewrite (JsMap_get_filter _ h p _ Hnd1). rewrite Hget. simpl.
  destruct (decide (h ∈ map getTransactionHash confirmed)) as [Hin|Hnin].
  - split; [by intros [? _] | by intros (_ & ? & _)].
  - split.
    + intros [Hp Hage]. split_and!; auto. lia.
    + intros (Hp & _ & Hage). split; auto. lia.
Qed.
End TransactionPoolUpkeep.

Section BalancePoolUpkeep.
Import Errors BalancePool.

Variable isValid : Transaction -> bool.
Variable hashSerialized : Transaction -> string.
Variable getSenderBalance : string -> Error + Z.

Local Abbreviation addTransaction := (addTransaction isValid hashSerialized getSenderBalance).
Local Abbreviation validateTransactionBalance := (validateTransactionBalance getSenderBalance).
Local Abbreviation validatePool := (validatePool isValid getSenderBalance).
Local Abbreviation validateEach := (validateEach isValid getSenderBalance).

Lemma validateTransactionBalance_pure tx s : (validateTransactionBalance tx s).2 = s.
Proof.
  unfold validateTransactionBalance, BalancePool.validateTransactionBalance,
    Eff.catch, Eff.bind, lift, getPendingAmount, Eff.gets.
  by destruct (getSenderBalance (from tx)).
Qed.

Lemma addTransaction_outcome tx s :
  (exists m, addTransaction tx s
             = (inl (PlainError ("Failed to add transaction: " ++ m)), s)) \/
  (JsMap.size (transactions s) < maxPoolSize /\
   JsMap.has (hashSerialized tx) (transactions s) = false /\
   addTransaction tx s
   = (inr tt, mkState (JsMap.set (hashSerialized tx) tx (transactions s)))).
Proof.
  pose proof (validateTransactionBalance_pure tx s) as Hp.
  unfold addTransaction, BalancePool.addTransaction, Eff.catch, Eff.bind, Eff.gets,
    Eff.throw, Eff.modify.
  destruct (isValid tx); simpl; [|left; eauto].
  destruct (maxPoolSize <=? JsMap.size (transactions s)) eqn:Hsz; [left; eauto|].
  apply Z.leb_gt in Hsz.
  destruct (JsMap.has (hashSerialized tx) (transactions s)) eqn:Hhas; [left; eauto|].
  destruct (validateTransactionBalance tx s) as [[e|[|]] s1]; simpl in *; subst s1;
    simpl; [left; eauto| |left; eauto].
  right. auto.
Qed.

(** X18: when [addTransaction] of the balance-checking pool throws, the pool
    is as it was, and the error is a plain [Error] whose message starts with
    "Failed to add transaction: ". *)
Theorem failed_admission_keeps_pending tx s e s' :
  addTransaction tx s = (inl e, s') ->
  s' = s /\ exists m, e = PlainError ("Failed to add transaction: " ++ m).
Proof.
  intros Hadd. destruct (addTransaction_outcome tx s) as [[m H]|(_ & _ & H)];
    rewrite H in Hadd; [|discriminate].
  injection Hadd as <- <-. eauto.
Qed.

(** X19: the balance-checking pool stays within [maxPoolSize]: a pool of at
    most 1000 entries has at most 1000 entries after [addTransaction],
    whether the call returns or throws. *)
Theorem pool_size_stays_bounded tx s :
  size s <= maxPoolSize ->
  size (addTransaction tx s).2 <= maxPoolSize.
Proof.
  unfold size. intros Hle.
  destruct (addTransaction_outcome tx s) as [[m H]|(Hlt & Hfresh & H)]; rewrite H; simpl.
  - done.
  - rewrite JsMap_size_set_new by done. lia.
Qed.

(** X20: [removeExpiredTransactions] keeps exactly the entries that are at
    most [expirationBlocks] blocks old: the keys of the pool being distinct,
    as the keys of a [Map] are, an entry is found afterwards if and only if
    it was found before and the current block is at most six past its block
    number. *)
Theorem expired_transactions_removed currentBlock s :
  NoDup (JsMap.keys (transactions s)) ->
  exists s',
    removeExpiredTransactions currentBlock s = (inr tt, s') /\
    forall h tx,
      getTransaction h s' = Some tx <->
      getTransaction h s = Some tx /\ currentBlock - blockNumber tx <= expirationBlocks.
Proof.
  intros Hnd. eexists. split; [reflexivity|]. intros h tx.
  unfold getTransaction. simpl. unfold JsMap.t in *.
  rewrite (JsMap_get_filter _ h tx _ Hnd). simpl. split; intros [? ?]; split; auto; lia.
Qed.

(** X21: [validatePool] of the pool as the sources have it, with the
    balance lookup that throws: on the empty pool it returns true; when the
    first entry is not valid it returns false; otherwise the balance check of
    the first entry throws and [validatePool] throws "Pool validation
    failed: Transaction validation failed: Not implemented"; the pool is
    never changed. *)
Theorem shipped_validatePool_outcome s :
  BalancePool.validatePool isValid getSenderBalance_stub s
  = match getAllTransactions s with
    | [] => (inr true, s)
    | tx :: _ =>
        if isValid tx
        then (inl (PlainError
                     "Pool validation failed: Transaction validation failed: Not implemented"),
              s)
        else (inr false, s)
    end.
Proof.
  unfold BalancePool.validatePool, Eff.catch, Eff.bind, Eff.gets, getAllTransactions.
  destruct (JsMap.values (transactions s)) as [|tx rest]; [done|].
  cbn [BalancePool.validateEach]. by destruct (isValid tx).
Qed.
End BalancePoolUpkeep.

Lemma admitted_transaction_passed_checks_witness :
  TransactionPool.getTransaction "alice>bob" Samples.roomy
  = Some (TransactionPool.mkPoolTransaction
            (TransactionPool.with_timestamp 1000 Samples.toBob) []).
Proof.
  assert (Samples.poolAdd 1000 Samples.toBob (TransactionPool.new 5000)
          = (inr true, Samples.roomy)) as Hadd by (vm_compute; reflexivity).
  destruct (admitted_transaction_passed_checks Samples.poolDigest Samples.poolVerify
              Samples.poolBalance Samples.poolSize 1000 Samples.toBob
              (TransactionPool.new 5000) Samples.roomy Hadd) as (_ & Hget & _).
  exact Hget.
Defined.

Lemma admit_then_remove_restores_entries_witness :
  exists s2,
    TransactionPool.removeTransaction "alice>bob" Samples.roomy = (inr true, s2) /\
    TransactionPool.transactions s2
    = TransactionPool.transactions (TransactionPool.new 5000).
Proof.
  assert (TransactionPool.getPoolSize (TransactionPool.new 5000)
          < TransactionPool.maxSize (TransactionPool.new 5000)) as Hroom
    by (vm_compute; reflexivity).
  assert (Samples.poolAdd 1000 Samples.toBob (TransactionPool.new 5000)
          = (inr true, Samples.roomy)) as Hadd by (vm_compute; reflexivity).
  exact (admit_then_remove_restores_entries Samples.poolDigest Samples.poolVerify
           Samples.poolBalance Samples.poolSize 1000 Samples.toBob
           (TransactionPool.new 5000) Samples.roomy Hroom Hadd).
Defined.

Lemma cleanPool_keeps_young_unconfirmed_witness :
  exists s',
    TransactionPool.cleanPool Samples.poolDigest 2000 (inr [Samples.toBob]) Samples.roomy
    = (inr tt, s') /\
    TransactionPool.emitted s' = TransactionPool.emitted Samples.roomy.
Proof.
  assert (NoDup (JsMap.keys (TransactionPool.transactions Samples.roomy))) as Hnd
    by apply NoDup_singleton.
  destruct (cleanPool_keeps_young_unconfirmed Samples.poolDigest 2000 [Samples.toBob]
              Samples.roomy Hnd) as (s' & Hrun & _ & Hem & _).
  exists s'. auto.
Defined.

Lemma failed_admission_keeps_pending_witness :
  (BalancePool.addTransaction Samples.alwaysValid Samples.byAmount Samples.balance100
     Samples.new41 Samples.onePending).2 = Samples.onePending.
Proof.
  assert (BalancePool.addTransaction Samples.alwaysValid Samples.byAmount
            Samples.balance100 Samples.new41 Samples.onePending
          = (inl (Errors.PlainError
                    "Failed to add transaction: Insufficient balance for transaction"),
             (BalancePool.addTransaction Samples.alwaysValid Samples.byAmount
                Samples.balance100 Samples.new41 Samples.onePending).2)) as Hadd
    by (vm_compute; reflexivity).
  exact (proj1 (failed_admission_keeps_pending Samples.alwaysValid Samples.byAmount
                  Samples.balance100 Samples.new41 Samples.onePending _ _ Hadd)).
Defined.

Lemma pool_size_stays_bounded_witness :
  BalancePool.size
    (BalancePool.addTransaction Samples.alwaysValid Samples.byAmount Samples.balance100
       Samples.new40 Samples.onePending).2
  <= BalancePool.maxPoolSize.
Proof.
  apply (pool_size_stays_bounded Samples.alwaysValid Samples.byAmount Samples.balance100
           Samples.new40 Samples.onePending).
  vm_compute. discriminate.
Defined.

Lemma expired_transactions_removed_witness :
  exists s',
    BalancePool.removeExpiredTransactions 8 Samples.onePending = (inr tt, s') /\
    forall h tx,
      BalancePool.getTransaction h s' = Some tx <->
      BalancePool.getTransaction h Samples.onePending = Some tx /\
      8 - BalancePool.blockNumber tx <= BalancePool.expirationBlocks.
Proof.
  apply (expired_transactions_removed 8 Samples.onePending). apply NoDup_singleton.
Defined.

(** ** Merkle roots and the validators: acceptance *)

Section MerkleFullTrees.
Variable hash : string -> string.

Lemma pairUp_even_agree l :
  Nat.Even (length l) ->
  CryptographicHashA.pairUp hash l = CryptographicHashB.pairUp hash l.
Proof.
  induction l as [| x | a b l IH] using list_pair_ind; intros Hev.
  - done.
  - destruct Hev as [n Hn]. simpl in Hn. lia.
  - simpl. f_equal. apply IH. destruct Hev as [n Hn]. simpl in Hn.
    exists (n - 1)%nat. lia.
Qed.

Lemma pairUpB_halves l n :
  length l = (2 * n)%nat -> length (CryptographicHashB.pairUp hash l) = n.
Proof.
  revert n. induction l as [| x | a b l IH] using list_pair_ind; intros n Hn.
  - simpl in *. lia.
  - simpl in Hn. lia.
  - simpl in *. destruct n as [|n]; [lia|]. f_equal. apply IH. lia.
Qed.

Lemma iterate_full_tree_agree fuel : forall k level,
  length level = (2 ^ k)%nat ->
  MerkleLoop.iterate (CryptographicHashA.pairUp hash) fuel level
  = MerkleLoop.iterate (CryptographicHashB.pairUp hash) fuel level.
Proof.
  induction fuel as [|fuel IH]; intros k level Hlen; [done|].
  simpl. destruct (1 <? length level)%nat eqn:Hgt; [|done].
  apply Nat.ltb_lt in Hgt. destruct k as [|k]; [simpl in Hlen; lia|].
  assert (length level = (2 * 2 ^ k)%nat) as Hlen' by (rewrite Hlen; apply Nat.pow_succ_r').
  rewrite pairUp_even_agree by (exists (2 ^ k)%nat; lia).
  apply (IH k). by apply pairUpB_halves.
Qed.

(** X22: the two [CryptographicHash] classes differ on odd levels only: on
    an array whose length is a power of two both [merkleHash] methods return,
    and return the same root. *)
Theorem merkle_classes_agree_on_full_trees k items :
  length items = (2 ^ k)%nat ->
  exists root,
    CryptographicHashA.merkleHash hash items = inr root /\
    CryptographicHashB.merkleHash hash items = inr root.
Proof.
  intros Hlen.
  assert (items <> []) as Hne.
  { intros ->. simpl in Hlen. pose proof (Nat.pow_nonzero 2 k). lia. }
  destruct (merkleHashB_returns hash items Hne) as (root & HB & _).
  exists root. split; [|done].
  unfold CryptographicHashA.merkleHash, CryptographicHashB.merkleHash in *.
  destruct items as [|x items]; [done|].
  rewrite (iterate_full_tree_agree _ k) by (by rewrite length_map).
  destruct (MerkleLoop.iterate _ _ _); [discriminate|]. done.
Qed.

(** Both [merkleHash] methods return exactly on the non-empty arrays. *)
Lemma merkleHash_throws_only_on_empty items :
  ((exists root, CryptographicHashA.merkleHash hash items = inr root) <-> items <> []) /\
  ((exists root, CryptographicHashB.merkleHash hash items = inr root) <-> items <> []).
Proof.
  split; split.
  - intros [root H] ->. discriminate.
  - intros Hne. destruct (merkleHashA_returns hash items Hne) as (root & H & _). eauto.
  - intros [root H] ->. discriminate.
  - intros Hne. destruct (merkleHashB_returns hash items Hne) as (root & H & _). eauto.
Qed.
End MerkleFullTrees.

Section BlockValidatorAcceptance.
Import Errors BlockValidator.

Variable difficulty : nat.
Variable maxBlockSize : Z.
Variable now : Z.
Variable serializedLength : Block -> Error + Z.
Variable sha256_JSON :
  JsValue -> JsValue -> JsValue -> JsValue -> JsValue -> Error + string.

Local Abbreviation validateBlock :=
  (validateBlock difficulty maxBlockSize now serializedLength sha256_JSON).

Lemma validateTransaction_true tx :
  validateTransaction tx = true <-> signature tx <> "" /\ senderPublicKey tx <> "".
Proof.
  unfold validateTransaction. repeat case_bool_decide; simpl; split; try done;
    intros [? ?]; done.
Qed.

Lemma validateTransactions_Valid txs :
  validateTransactions txs = Valid <->
  Forall (fun tx => signature tx <> "" /\ senderPublicKey tx <> "") txs.
Proof.
  induction txs as [|tx rest IH]; simpl.
  - split; auto.
  - rewrite Forall_cons, <- IH, <- validateTransaction_true.
    destruct (validateTransaction tx); simpl.
    + split; [by intros -> | by intros [_ ?]].
    + split; [done | by intros [? _]].
Qed.

(** X23: [validateBlock] accepts a block exactly when its fields have the
    types of a block, its serialization is within [maxBlockSize], its
    timestamp is at most two minutes ahead of the clock and, when a previous
    block is given, after that block's, its hash is the recomputed hash and
    starts with [difficulty] zeros, its previous hash, when a previous block
    is given, is that block's hash, and every transaction has a signature and
    a sender key. *)
Theorem block_accepted_iff block previousBlock :
  validateBlock block previousBlock = Valid <->
  validateBlockStructure block = true /\
  (exists blockSize, serializedLength block = inr blockSize /\ blockSize <= maxBlockSize) /\
  number_of (timestamp block) <= now + 120000 /\
  (forall p, previousBlock = Some p ->
     number_of (timestamp p) < number_of (timestamp block)) /\
  (exists h, calculateBlockHash sha256_JSON block = inr h /\
             hash block = JsString h /\
             startsWith (repeat0 difficulty) h = true) /\
  (forall p, previousBlock = Some p ->
     exists h, previousHash block = JsString h /\ hash p = JsString h) /\
  Forall (fun tx => signature tx <> "" /\ senderPublicKey tx <> "")
         (array_of (transactions block)).
Proof.
  unfold validateBlock, BlockValidator.validateBlock, validateBlockSize, validateTimestamp,
    validateBlockHash, validatePreviousHash.
  destruct (validateBlockStructure block); simpl; [|split; [done | by intros [? _]]].
  destruct (serializedLength block) as [e|blockSize]; simpl.
  { split; [done|]. intros (_ & (? & ? & _) & _). done. }
  destruct (blockSize <=? maxBlockSize) eqn:Hsz;
    [apply Z.leb_le in Hsz | apply Z.leb_gt in Hsz]; cycle 1.
  { split; [done|]. intros (_ & (? & [= <-] & ?) & _). lia. }
  change (now + 2 * 60 * 1000) with (now + 120000).
  destruct (now + 120000 <? number_of (timestamp block)) eqn:Hfut;
    [apply Z.ltb_lt in Hfut | apply Z.ltb_ge in Hfut]; simpl.
  { split; [done|]. intros (_ & _ & ? & _). lia. }
  destruct (calculateBlockHash sha256_JSON block) as [e|h] eqn:Hcalc.
  { destruct previousBlock as [p|];
      [destruct (number_of (timestamp block) <=? number_of (timestamp p))|]; simpl;
      (split; [done|]); intros (_ & _ & _ & _ & (? & ? & _) & _); done. }
  assert ((exists h', inr (B := string) (A := Error) h = inr h' /\ hash block = JsString h' /\
                      startsWith (repeat0 difficulty) h' = true)
          <-> match hash block with
              | JsString h0 => bool_decide (h0 = h) && startsWith (repeat0 difficulty) h0
              | _ => false
              end = true) as Hhash.
  { split.
    - intros (h' & [= <-] & -> & Hpre). rewrite bool_decide_eq_true_2 by done. done.
    - destruct (hash block) as [| |h0|]; try done.
      intros [Heq Hpre]%andb_true_iff. apply bool_decide_eq_true in Heq. subst.
      eauto. }
  destruct previousBlock as [p|].
  - destruct (number_of (timestamp block) <=? number_of (timestamp p)) eqn:Hord;
      [apply Z.leb_le in Hord | apply Z.leb_gt in Hord]; simpl.
    { split; [done|]. intros (_ & _ & _ & Hp & _). specialize (Hp p eq_refl). lia. }
    destruct (match hash block with JsString _ => _ | _ => false end) eqn:Hh; cycle 1.
    { split; [done|]. intros (_ & _ & _ & _ & Hx & _). apply Hhash in Hx. done. }
    assert ((exists a, previousHash block = JsString a /\ hash p = JsString a)
            <-> match previousHash block, hash p with
                | JsString a, JsString b => bool_decide (a = b)
                | _, _ => false
                end = true) as Hprev.
    { split.
      - intros (a & -> & ->). by apply bool_decide_eq_true_2.
      - destruct (previousHash block) as [| |a|], (hash p) as [| |b|]; try done.
        intros ->%bool_decide_eq_true. eauto. }
    destruct (match previousHash block with JsString _ => _ | _ => false end) eqn:Hp;
      simpl.
    + rewrite validateTransactions_Valid. split.
      * intros Htx. split_and!; eauto.
        -- by intros ? [= <-].
        -- by apply Hhash.
        -- intros ? [= <-]. by apply Hprev.
      * intros (_ & _ & _ & _ & _ & _ & ?). done.
    + split; [done|]. intros (_ & _ & _ & _ & _ & Hx & _).
      specialize (Hx p eq_refl). apply Hprev in Hx. done.
  - simpl.
    destruct (match hash block with JsString _ => _ | _ => false end) eqn:Hh; cycle 1.
    { split; [done|]. intros (_ & _ & _ & _ & Hx & _). apply Hhash in Hx. done. }
    rewrite validateTransactions_Valid. split.
    + intros Htx. split_and!; eauto; try done. by apply Hhash.
    + intros (_ & _ & _ & _ & _ & _ & ?). done.
Qed.

(** The first transaction without a signature or sender key is the one
    named in the error. *)
Lemma first_unsigned_transaction_reported good bad rest :
  Forall (fun tx => signature tx <> "" /\ senderPublicKey tx <> "") good ->
  signature bad = "" \/ senderPublicKey bad = "" ->
  validateTransactions (good ++ bad :: rest) = Invalid ("Invalid transaction: " ++ id bad).
Proof.
  intros Hgood Hbad. induction Hgood as [|tx good Htx _ IH]; simpl.
  - assert (validateTransaction bad = false) as ->; [|done].
    destruct (validateTransaction bad) eqn:Hv; [|done].
    apply validateTransaction_true in Hv as [? ?]. by destruct Hbad.
  - by rewrite (proj2 (validateTransaction_true tx) Htx).
Qed.
End BlockValidatorAcceptance.

Section TransactionValidatorAcceptance.
Import Errors TransactionValidator.

Variable now : Z.
Variable serializedLength : Transaction -> Error + Z.
Variable sha256_JSON : string -> string -> Z -> Z -> Z -> Z -> string.
Variable ecVerify : string -> string -> string -> Error + bool.

Local Abbreviation validateTransaction :=
  (validateTransaction now serializedLength sha256_JSON ecVerify).

(** X24: [validateTransaction] never returns false: it returns true or
    throws, and whatever it throws is a [ValidationError]. *)
Theorem validateTransaction_true_or_ValidationError tx block :
  validateTransaction tx block = inr true \/
  exists m, validateTransaction tx block = inl (ValidationError m).
Proof.
  unfold validateTransaction, TransactionValidator.validateTransaction.
  destruct (andThen _ _) as [[]|[]] eqn:H; eauto.
  exfalso. unfold andThen in H.
  destruct (validateBasics _ _ _); [discriminate|].
  destruct (validateSignature _ _ _); [discriminate|].
  destruct (validateAmount _); [discriminate|].
  destruct block as [b|]; [destruct (validateInBlock _ _)|]; discriminate.
Qed.

Lemma validateBasics_passes tx :
  validateBasics now serializedLength tx = inr tt <->
  (id tx <> "" /\ from tx <> "" /\ to tx <> "" /\ signature tx <> "") /\
  (exists size, serializedLength tx = inr size /\ size <= maxTxSize) /\
  timestamp tx <= now + 300000 /\ minFee <= fee tx.
Proof.
  unfold validateBasics, andThen, falsy.
  repeat case_bool_decide; simpl; try (split; [done | intros [(? & ? & ? & ?) _]; done]).
  destruct (serializedLength tx) as [e|size].
  { split; [done|]. intros (_ & (? & ? & _) & _). done. }
  destruct (maxTxSize <? size) eqn:Hc1;
    [apply Z.ltb_lt in Hc1 | apply Z.ltb_ge in Hc1].
  { split; [done|]. intros (_ & (? & [= <-] & ?) & _). lia. }
  destruct (now + 300000 <? timestamp tx) eqn:Hc2;
    [apply Z.ltb_lt in Hc2 | apply Z.ltb_ge in Hc2].
  { split; [done|]. intros (_ & _ & ? & _). lia. }
  destruct (fee tx <? minFee) eqn:Hc3;
    [apply Z.ltb_lt in Hc3 | apply Z.ltb_ge in Hc3].
  { split; [done|]. intros (_ & _ & _ & ?). lia. }
  split; [|done]. intros _. split_and!; eauto.
Qed.

Lemma validateSignature_passes tx :
  validateSignature sha256_JSON ecVerify tx = inr tt <->
  ecVerify (from tx) (calculateTxHash sha256_JSON tx) (signature tx) = inr true.
Proof.
  unfold validateSignature, andThen.
  destruct (ecVerify _ _ _) as [e|[|]]; simpl; split; done.
Qed.

Lemma validateAmount_passes tx :
  validateAmount tx = inr tt <->
  0 < amount tx /\ amount tx <= senderBalance tx /\ amount tx + fee tx <= senderBalance tx.
Proof.
  unfold validateAmount.
  destruct (amount tx <=? 0) eqn:H1; [apply Z.leb_le in H1 | apply Z.leb_gt in H1].
  { split; [done|]. lia. }
  destruct (senderBalance tx <? amount tx) eqn:H2;
    [apply Z.ltb_lt in H2 | apply Z.ltb_ge in H2].
  { split; [done|]. lia. }
  simpl.
  destruct (senderBalance tx <? amount tx + fee tx) eqn:H3;
    [apply Z.ltb_lt in H3 | apply Z.ltb_ge in H3].
  { split; [done|]. lia. }
  split; [|done]. intros _. lia.
Qed.

Lemma validateInBlock_passes tx block :
  validateInBlock tx block = inr tt <->
  timestamp tx <= blockTimestamp block /\
  (length (filter (fun t => id t = id tx) (transactions block)) <= 1)%nat.
Proof.
  unfold validateInBlock.
  destruct (blockTimestamp block <? timestamp tx) eqn:H1;
    [apply Z.ltb_lt in H1 | apply Z.ltb_ge in H1].
  { split; [done|]. lia. }
  destruct (1 <? _)%nat eqn:H2; [apply Nat.ltb_lt in H2 | apply Nat.ltb_ge in H2].
  { split; [done|]. lia. }
  split; [|done]. intros _. lia.
Qed.

(** X25: [validateTransaction] returns true exactly when the id, the two
    addresses and the signature are present, the serialization is within
    [maxTxSize], the timestamp is at most five minutes ahead of the clock,
    the fee is at least [minFee], the signature verifies for the sender's key
    over the hash of the transaction, the amount is positive, amount plus fee
    is within the sender's balance and, when a block is given, the
    transaction is not stamped after the block and its id occurs at most once
    in it. *)
Theorem transaction_accepted_iff tx block :
  validateTransaction tx block = inr true <->
  (id tx <> "" /\ from tx <> "" /\ to tx <> "" /\ signature tx <> "") /\
  (exists size, serializedLength tx = inr size /\ size <= maxTxSize) /\
  timestamp tx <= now + 300000 /\
  minFee <= fee tx /\
  ecVerify (from tx) (calculateTxHash sha256_JSON tx) (signature tx) = inr true /\
  0 < amount tx /\
  amount tx + fee tx <= senderBalance tx /\
  (forall b, block = Some b ->
     timestamp tx <= blockTimestamp b /\
     (length (filter (fun t => id t = id tx) (transactions b)) <= 1)%nat).
Proof.
  pose proof (validateBasics_passes tx) as HB.
  pose proof (validateSignature_passes tx) as HS.
  pose proof (validateAmount_passes tx) as HA.
  unfold validateTransaction, TransactionValidator.validateTransaction, andThen.
  destruct (validateBasics now serializedLength tx) as [e|[]].
  { split; [by destruct e|]. intros (H1 & H2 & H3 & H4 & _).
    assert (inl (B := unit) e = inr tt) by (apply HB; auto). done. }
  destruct (proj1 HB eq_refl) as (H1 & H2 & H3 & H4).
  destruct (validateSignature sha256_JSON ecVerify tx) as [e|[]].
  { split; [by destruct e|]. intros (_ & _ & _ & _ & H5 & _).
    assert (inl (B := unit) e = inr tt) by (by apply HS). done. }
  pose proof (proj1 HS eq_refl) as H5.
  destruct (validateAmount tx) as [e|[]].
  { split; [by destruct e|]. intros (_ & _ & _ & _ & _ & H6 & H7 & _).
    assert (inl (B := unit) e = inr tt); [apply HA; unfold minFee in *; lia | done]. }
  destruct (proj1 HA eq_refl) as (H6 & _ & H7).
  destruct block as [b|].
  - pose proof (validateInBlock_passes tx b) as HI.
    destruct (validateInBlock tx b) as [e|[]].
    + split; [by destruct e|]. intros (_ & _ & _ & _ & _ & _ & _ & H8).
      assert (inl (B := unit) e = inr tt); [apply HI; by apply H8 | done].
    + split; [|done]. intros _.
      refine (conj _ (conj _ (conj _ (conj _ (conj _ (conj _ (conj _ _))))))); auto.
      intros ? [= <-]. by apply HI.
  - split; [|done]. intros _.
    refine (conj _ (conj _ (conj _ (conj _ (conj _ (conj _ (conj _ _))))))); auto.
    done.
Qed.

(** X26: [validateInBlock] does not ask for the transaction to be in the
    block: a transaction stamped no later than the block passes when its id
    does not occur in the block at all. *)
Theorem transaction_absent_from_block_passes tx block :
  timestamp tx <= blockTimestamp block ->
  id tx ∉ map id (transactions block) ->
  validateInBlock tx block = inr tt.
Proof.
  intros Hts Habsent. apply validateInBlock_passes. split; [done|].
  assert (filter (fun t => id t = id tx) (transactions block) = []) as ->; [|simpl; lia].
  induction (transactions block) as [|t l IH]; [done|].
  rewrite filter_cons. destruct (decide (id t = id tx)) as [Heq|Hne].
  - exfalso. apply Habsent. simpl. rewrite Heq. apply list_elem_of_here.
  - apply IH. intros Hin. apply Habsent. simpl. by apply list_elem_of_further.
Qed.
End TransactionValidatorAcceptance.

Lemma merkle_classes_agree_on_full_trees_witness :
  exists root,
    CryptographicHashA.merkleHash Samples.tagHash ["a"; "b"; "c"; "d"] = inr root /\
    CryptographicHashB.merkleHash Samples.tagHash ["a"; "b"; "c"; "d"] = inr root.
Proof.
  apply (merkle_classes_agree_on_full_trees Samples.tagHash 2 ["a"; "b"; "c"; "d"]).
  reflexivity.
Defined.

Lemma transaction_absent_from_block_passes_witness :
  TransactionValidator.validateInBlock Samples.worthless
    (TransactionValidator.mkBlock 100 []) = inr tt.
Proof.
  apply (transaction_absent_from_block_passes Samples.worthless
           (TransactionValidator.mkBlock 100 [])).
  - vm_compute. discriminate.
  - simpl. apply not_elem_of_nil.
Defined.

(** ** The proposer-checking engine *)

Section ConsensusEngine2Facts.
Import Errors ConsensusEngine2.

Variable SHA256_JSON : string -> Z -> list Transaction -> Z -> string.
Variable cryptoVerify : string -> string -> string -> Error + bool.
Variable ecPairVerify : string -> string -> string -> Error + bool.

Local Abbreviation calculateBlockHash := (calculateBlockHash SHA256_JSON).
Local Abbreviation validateBlock := (validateBlock SHA256_JSON cryptoVerify ecPairVerify).
Local Abbreviation proposeBlock := (proposeBlock SHA256_JSON cryptoVerify ecPairVerify).
Local Abbreviation acceptable := (acceptable SHA256_JSON cryptoVerify ecPairVerify).
Local Abbreviation reachable := (reachable SHA256_JSON cryptoVerify ecPairVerify).
Local Abbreviation proposed := (proposed SHA256_JSON ecPairVerify).

Lemma validateTransactions_true txs :
  validateTransactions cryptoVerify txs = true <->
  Forall (fun tx => cryptoVerify (txHash tx) (txSignature tx) (publicKey tx) = inr true) txs.
Proof.
  induction txs as [|tx txs IH]; simpl.
  - split; auto.
  - rewrite Forall_cons, <- IH. unfold validateTransaction.
    destruct (cryptoVerify _ _ _) as [e|[|]]; simpl.
    + split; [done | by intros [? _]].
    + split; [by intros -> | by intros [_ ?]].
    + split; [done | by intros [? _]].
Qed.

Lemma validateBlock_spec block s :
  exists ok, validateBlock block s = (inr ok, s) /\
             (ok = true <-> acceptable (chainHead s) block).
Proof.
  unfold validateBlock, ConsensusEngine2.validateBlock, Eff.bind, Eff.gets, Eff.ret,
    acceptable, ConsensusEngine2.acceptable.
  case_bool_decide as H1; simpl; cycle 1.
  { exists false. split; [done|]. split; [done | by intros [? _]]. }
  case_bool_decide as H2; simpl; cycle 1.
  { exists false. split; [done|]. split; [done | by intros (_ & ? & _)]. }
  pose proof (validateTransactions_true (transactions block)) as Htx.
  destruct (validateTransactions cryptoVerify (transactions block)); simpl; cycle 1.
  { exists false. split; [done|]. split; [done|]. intros (_ & _ & H & _).
    apply Htx in H. done. }
  eexists. split; [reflexivity|]. unfold verifyBlockSignature.
  destruct (ecPairVerify _ _ _) as [e|[|]].
  - split; [done | by intros (_ & _ & _ & ?)].
  - split; [|done]. intros _. split_and!; auto. by apply Htx.
  - split; [done | by intros (_ & _ & _ & ?)].
Qed.

Lemma proposeBlock_cases block s :
  (JsSet.has (proposer block) (validators s) = true /\
   acceptable (chainHead s) block /\
   proposeBlock block s
   = (inr (Accepted (hash block)),
      mkState (validators s) (JsMap.set (hash block) block (pendingBlocks s))
              (currentBlock s) (chainHead s) (emitted s ++ [EvBlockProposed block]))) \/
  (~ (JsSet.has (proposer block) (validators s) = true /\ acceptable (chainHead s) block) /\
   exists error, proposeBlock block s = (inr (Rejected error), s)).
Proof.
  destruct (validateBlock_spec block s) as (ok & Hv & Hok).
  unfold proposeBlock, ConsensusEngine2.proposeBlock, Eff.catch, Eff.bind, Eff.gets.
  destruct (JsSet.has (proposer block) (validators s)) eqn:Hk; simpl; cycle 1.
  { right. split; [by intros [? _] | eexists; reflexivity]. }
  rewrite Hv.
  destruct ok; simpl.
  - left. split_and!; auto. by apply Hok.
  - right. split; [|eexists; reflexivity]. intros [_ H]. apply Hok in H. done.
Qed.

(** X27: [proposeBlock] of the second engine never throws; it accepts a
    block, answering with the block's hash, exactly when the proposer is a
    validator, the hash of the block is the recomputed one, the block extends
    the current chain head and the signatures of its transactions and of the
    block verify; the block is then pending under its hash and one
    ['blockProposed'] event was emitted; otherwise the answer is a rejection
    and the engine is unchanged. *)
Theorem proposal_accepted_iff block s :
  exists result s',
    proposeBlock block s = (inr result, s') /\
    (result = Accepted (hash block) <->
       proposer block ∈ validators s /\ acceptable (chainHead s) block) /\
    (result = Accepted (hash block) ->
       JsMap.get (hash block) (pendingBlocks s') = Some block /\
       chainHead s' = chainHead s /\ currentBlock s' = currentBlock s /\
       emitted s' = emitted s ++ [EvBlockProposed block]) /\
    (result <> Accepted (hash block) ->
       s' = s /\ exists error, result = Rejected error).
Proof.
  assert (JsSet.has (proposer block) (validators s) = true
          <-> proposer block ∈ validators s) as Hhas.
  { unfold JsSet.has. apply bool_decide_eq_true. }
  destruct (proposeBlock_cases block s) as [(Hk & Hacc & H)|(Hno & error & H)];
    rewrite H; eexists _, _; (split; [reflexivity|]); simpl; split_and!.
  - split; [|done]. intros _. split; [by apply Hhas | done].
  - intros _. split_and!; auto. apply JsMap_get_set_eq.
  - done.
  - split; [done|]. intros [Hk Hacc]. exfalso. apply Hno. split; [by apply Hhas | done].
  - done.
  - intros _. eauto.
Qed.

Lemma finalizeBlock_pending h block s :
  JsMap.get h (pendingBlocks s) = Some block ->
  finalizeBlock h s
  = (inr tt, mkState (validators s) (JsMap.delete h (pendingBlocks s))
                     (Some block) (hash block) (emitted s ++ [EvBlockFinalized block])).
Proof. intros Hget. unfold finalizeBlock, Eff.bind, Eff.gets. by rewrite Hget. Qed.

(** X28: [finalizeBlock] throws "Block not found", changing nothing, for a
    hash that is not pending; for a pending hash it returns, the block is the
    current block, its hash is the chain head, the hash is pending no more,
    the other pending blocks stay, and one ['blockFinalized'] event was
    emitted. *)
Theorem finalizeBlock_moves_head h s :
  match JsMap.get h (pendingBlocks s) with
  | None => finalizeBlock h s = (inl (PlainError "Block not found"), s)
  | Some block =>
      exists s',
        finalizeBlock h s = (inr tt, s') /\
        getCurrentBlock s' = Some block /\
        getChainHead s' = hash block /\
        JsMap.get h (pendingBlocks s') = None /\
        (forall h', h' <> h ->
           JsMap.get h' (pendingBlocks s') = JsMap.get h' (pendingBlocks s)) /\
        emitted s' = emitted s ++ [EvBlockFinalized block]
  end.
Proof.
  destruct (JsMap.get h (pendingBlocks s)) as [block|] eqn:Hget; cycle 1.
  { unfold finalizeBlock, Eff.bind, Eff.gets. by rewrite Hget. }
  rewrite (finalizeBlock_pending h block s Hget).
  eexists. split; [reflexivity|]. simpl. split_and!; auto.
  - apply JsMap_get_delete_eq.
  - intros h' Hne. apply JsMap_get_delete_ne. congruence.
Qed.

Lemma reachable_proposed s : reachable s -> proposed s.
Proof.
  induction 1 as [vs head|s block Hr IH|s h Hr IH].
  - split; simpl; intros; discriminate.
  - destruct (proposeBlock_cases block s) as [(Hk & Hacc & H)|(Hno & error & H)];
      rewrite H; simpl; [|done].
    destruct IH as [IH1 IH2]. split; simpl; [|done].
    intros h b. destruct (decide (hash block = h)) as [<-|Hne].
    + rewrite JsMap_get_set_eq. intros [= <-].
      destruct Hacc as (? & _ & _ & ?). split_and!; auto.
      unfold JsSet.has in Hk. by apply bool_decide_eq_true in Hk.
    + rewrite JsMap_get_set_ne by done. apply IH1.
  - destruct (JsMap.get h (pendingBlocks s)) as [block|] eqn:Hget; cycle 1.
    { unfold finalizeBlock, Eff.bind, Eff.gets. by rewrite Hget. }
    rewrite (finalizeBlock_pending h block s Hget).
    destruct IH as [IH1 IH2]. split; simpl.
    + intros h' b. destruct (decide (h = h')) as [<-|Hne].
      * by rewrite JsMap_get_delete_eq.
      * rewrite JsMap_get_delete_ne by done. apply IH1.
    + intros b [= <-]. destruct (IH1 h block Hget) as (_ & ? & ? & ?). auto.
Qed.

(** X29: in every reachable state of the second engine the current block,
    when there is one, carries the chain head as its hash, was proposed by a
    validator, has the recomputed hash as its hash and a block signature that
    verifies. *)
Theorem head_was_proposed_by_validator s block :
  reachable s ->
  getCurrentBlock s = Some block ->
  getChainHead s = hash block /\
  proposer block ∈ validators s /\
  calculateBlockHash block = hash block /\
  ecPairVerify (proposer block) (hash block) (signature block) = inr true.
Proof.
  intros Hr Hcur. by apply (head_proposed _ _ _ (reachable_proposed s Hr)).
Qed.

(** X30: [finalizeBlock] does not check the link to the head: when two
    blocks with different hashes have been accepted one after the other, both
    on the same head, both can be finalized in turn; the chain head moves to
    the first and then to the second, whose previous hash is still the head
    the two were proposed on. *)
Theorem competing_proposals_both_finalize b1 b2 s s1 s2 :
  proposeBlock b1 s = (inr (Accepted (hash b1)), s1) ->
  proposeBlock b2 s1 = (inr (Accepted (hash b2)), s2) ->
  hash b1 <> hash b2 ->
  exists s3 s4,
    finalizeBlock (hash b1) s2 = (inr tt, s3) /\
    finalizeBlock (hash b2) s3 = (inr tt, s4) /\
    previousHash b1 = chainHead s /\ previousHash b2 = chainHead s /\
    getChainHead s3 = hash b1 /\
    getChainHead s4 = hash b2 /\ getCurrentBlock s4 = Some b2.
Proof.
  intros H1 H2 Hne.
  destruct (proposeBlock_cases b1 s) as [(_ & Hacc1 & H)|(_ & error & H)];
    rewrite H in H1; [|discriminate]. injection H1 as Hs1.
  destruct (proposeBlock_cases b2 s1) as [(_ & Hacc2 & H')|(_ & error & H')];
    rewrite H' in H2; [|discriminate]. injection H2 as <-. subst s1. simpl in *.
  destruct Hacc1 as (_ & Hp1 & _). destruct Hacc2 as (_ & Hp2 & _).
  eexists _, _. split.
  { apply (finalizeBlock_pending _ b1). simpl.
    rewrite JsMap_get_set_ne by done. apply JsMap_get_set_eq. }
  split.
  { apply (finalizeBlock_pending _ b2). simpl.
    rewrite JsMap_get_delete_ne by done. apply JsMap_get_set_eq. }
  split_and!; reflexivity || done.
Qed.
End ConsensusEngine2Facts.

Lemma finalizedL_reachable :
  ConsensusEngine2.reachable Samples.headDigest Samples.acceptKey Samples.acceptKey
    Samples.finalizedL.
Proof.
  unfold Samples.finalizedL, Samples.proposedL, Samples.propose.
  apply ConsensusEngine2.reach_finalize, ConsensusEngine2.reach_propose,
    ConsensusEngine2.reach_new.
Qed.

Lemma head_was_proposed_by_validator_witness :
  ConsensusEngine2.getChainHead Samples.finalizedL = "g#1" /\
  "V" ∈ ConsensusEngine2.validators Samples.finalizedL.
Proof.
  assert (ConsensusEngine2.getCurrentBlock Samples.finalizedL = Some Samples.blockL)
    as Hcur by (vm_compute; reflexivity).
  destruct (head_was_proposed_by_validator Samples.headDigest Samples.acceptKey
              Samples.acceptKey Samples.finalizedL Samples.blockL
              finalizedL_reachable Hcur) as (Hhead & Hval & _).
  split; [exact Hhead | exact Hval].
Defined.

Lemma competing_proposals_both_finalize_witness :
  exists s3 s4,
    ConsensusEngine2.finalizeBlock "g#1" Samples.proposedLR = (inr tt, s3) /\
    ConsensusEngine2.finalizeBlock "g#2" s3 = (inr tt, s4) /\
    ConsensusEngine2.getChainHead s4 = "g#2".
Proof.
  assert (Samples.propose Samples.blockL (ConsensusEngine2.new ["V"] "g")
          = (inr (ConsensusEngine2.Accepted "g#1"), Samples.proposedL)) as H1
    by (vm_compute; reflexivity).
  assert (Samples.propose Samples.blockR Samples.proposedL
          = (inr (ConsensusEngine2.Accepted "g#2"), Samples.proposedLR)) as H2
    by (vm_compute; reflexivity).
  assert (ConsensusEngine2.hash Samples.blockL <> ConsensusEngine2.hash Samples.blockR)
    as Hne by discriminate.
  destruct (competing_proposals_both_finalize Samples.headDigest Samples.acceptKey
              Samples.acceptKey Samples.blockL Samples.blockR
              (ConsensusEngine2.new ["V"] "g") Samples.proposedL Samples.proposedLR
              H1 H2 Hne) as (s3 & s4 & Hf1 & Hf2 & _ & _ & _ & Hhead & _).
  exists s3, s4. split; [exact Hf1|]. split; [exact Hf2 | exact Hhead].
Defined.

